(** * SearchTree2D: a generic two-dimensional search tree

    Shallow embedding of [searchTree2D.h].  The tree is generic in the value
    type, in the search-space type ([NodeCompare]) and in a predicate object
    implementing the [SearchPredicate] interface; here the interface is a
    type class and the tree is developed inside a section over an arbitrary
    instance.  [std::set<Value>] is a [gset Value]. *)

From stdpp Require Import gmap sets list.

Set Default Proof Using "Type*".
#[global] Set Warnings "-clear-no-such-hyp".

(** ** Region codes and the four-slot maps keyed by them *)

(** [enum class RegionCode]; the enumerators are listed in increasing
    numeric value, which is the iteration order of every
    [std::map<RegionCode, _>] in the source. *)
Inductive RegionCode := UPPER_LEFT | UPPER_RIGHT | LOWER_LEFT | LOWER_RIGHT.

Definition region_value (c : RegionCode) : Z :=
  match c with
  | UPPER_LEFT => Z.shiftl 1 0
  | UPPER_RIGHT => Z.shiftl 1 1
  | LOWER_LEFT => Z.shiftl 1 2
  | LOWER_RIGHT => Z.shiftl 1 3
  end.

Definition all_regions : list RegionCode :=
  [UPPER_LEFT; UPPER_RIGHT; LOWER_LEFT; LOWER_RIGHT].

#[global] Instance RegionCode_eq_dec : EqDecision RegionCode.
Proof. solve_decision. Defined.

(** A map whose key set is exactly the four region codes.  Both
    [m_mapRegions] (the constructors insert the four keys and nothing ever
    erases one) and the local [QuadMap]s of [rebalance] have this shape. *)
Record Quad (A : Type) := mkQuad { q_ul : A; q_ur : A; q_ll : A; q_lr : A }.
Arguments mkQuad {A} _ _ _ _.
Arguments q_ul {A} _.
Arguments q_ur {A} _.
Arguments q_ll {A} _.
Arguments q_lr {A} _.

Definition quad_at {A} (c : RegionCode) (q : Quad A) : A :=
  match c with
  | UPPER_LEFT => q_ul q
  | UPPER_RIGHT => q_ur q
  | LOWER_LEFT => q_ll q
  | LOWER_RIGHT => q_lr q
  end.

Definition quad_map {A B} (f : A → B) (q : Quad A) : Quad B :=
  mkQuad (f (q_ul q)) (f (q_ur q)) (f (q_ll q)) (f (q_lr q)).

Definition quad_zip {A B C} (f : A → B → C) (p : Quad A) (q : Quad B) : Quad C :=
  mkQuad (f (q_ul p) (q_ul q)) (f (q_ur p) (q_ur q))
         (f (q_ll p) (q_ll q)) (f (q_lr p) (q_lr q)).

(** The values of the map, in key order. *)
Definition quad_list {A} (q : Quad A) : list A :=
  [q_ul q; q_ur q; q_ll q; q_lr q].

Definition quad_pure {A} (a : A) : Quad A := mkQuad a a a a.

Definition g_minDataSize : nat := 3.

(** ** The predicate interface *)

(** [SearchPredicate<Value, NodeCompare>].  [buildQuadrantsFromData] receives
    a map of references to the four quadrant search spaces and writes through
    them: it is a function from their contents before the call to their
    contents after it. *)
Class SearchPredicate (Value NodeCompare : Type) `{Countable Value} := {
  nilCompare : NodeCompare;
  buildRegionFromData : gset Value → NodeCompare;
  buildQuadrantsFromData :
    NodeCompare → gset Value → Quad NodeCompare → Quad NodeCompare;
  satisfies : NodeCompare → Value → bool;
  overlaps : NodeCompare → NodeCompare → bool;
}.

(** ** Outcomes of the recursive maintenance pass *)

(** [Node::rebalance] recurses into children it has just created, so its
    depth is not bounded by the tree it starts from; the embedding runs it
    on fuel.  It also dereferences child pointers without a null test. *)
Inductive outcome (A : Type) :=
  | Done (a : A)
  | OutOfFuel
  | NullDeref.
Arguments Done {A} _.
Arguments OutOfFuel {A}.
Arguments NullDeref {A}.

#[global] Instance outcome_ret : MRet outcome := λ A a, Done a.
#[global] Instance outcome_bind : MBind outcome := λ A B f m,
  match m with
  | Done a => f a
  | OutOfFuel => OutOfFuel
  | NullDeref => NullDeref
  end.
#[global] Instance outcome_fmap : FMap outcome := λ A B f m,
  match m with
  | Done a => Done (f a)
  | OutOfFuel => OutOfFuel
  | NullDeref => NullDeref
  end.

(** An outcome that is not a null dereference, and whose result, if there
    is one, has the property [P]. *)
Definition outcome_ok {A} (P : A → Prop) (o : outcome A) : Prop :=
  match o with
  | Done a => P a
  | OutOfFuel => True
  | NullDeref => False
  end.

(** Visit the four slots in key order. *)
Definition quad_mapM {A B} (f : A → outcome B) (q : Quad A) : outcome (Quad B) :=
  ul ← f (q_ul q); ur ← f (q_ur q); ll ← f (q_ll q); lr ← f (q_lr q);
  mret (mkQuad ul ur ll lr).

Section tree.
Context {Value NodeCompare : Type} `{Countable Value}.
Context {Predicate : SearchPredicate Value NodeCompare}.

Local Abbreviation SetValue := (gset Value).

(** ** Nodes *)

(** [class Node]: the search space, the four child slots (a null
    [unique_ptr] is [None]) and the local data. *)
#[local] Unset Elimination Schemes.
Inductive Node := mkNode {
  m_compare : NodeCompare;
  m_mapRegions : Quad (option Node);
  m_data : SetValue;
}.
#[local] Set Elimination Schemes.

Definition set_regions (r : Quad (option Node)) (n : Node) : Node :=
  mkNode (m_compare n) r (m_data n).
Definition set_data (d : SetValue) (n : Node) : Node :=
  mkNode (m_compare n) (m_mapRegions n) d.

(** [Node::Node()] *)
Definition newNode : Node := mkNode nilCompare (quad_pure None) ∅.

(** [Node::setCompare] *)
Definition setCompare (compare : NodeCompare) (n : Node) : Node :=
  mkNode compare (m_mapRegions n) (m_data n).

(** [Node::Node(const Node&)]: the search space and the data are copied by
    the member initialisers, every non-null child is copied recursively. *)
Fixpoint copyNode (other : Node) : Node :=
  mkNode (m_compare other)
    (quad_map (λ region : option Node,
                 match region with
                 | Some child => Some (copyNode child)
                 | None => None
                 end) (m_mapRegions other))
    (m_data other).

(** [Node::hasChildren] *)
Definition hasChildren (n : Node) : bool :=
  existsb (λ region : option Node, bool_decide (is_Some region))
          (quad_list (m_mapRegions n)).

(** [Node::add].  The loop visits the four slots; a non-null child whose
    search space satisfies the value receives it and sets [wasAdded]. *)
Definition accepts (val : Value) (region : option Node) : bool :=
  match region with
  | Some child => satisfies (m_compare child) val
  | None => false
  end.

Fixpoint add (val : Value) (n : Node) : Node :=
  if hasChildren n then
    let regions :=
      quad_map (λ region : option Node,
                  match region with
                  | Some child =>
                      if satisfies (m_compare child) val
                      then Some (add val child) else Some child
                  | None => None
                  end) (m_mapRegions n) in
    let wasAdded := existsb (accepts val) (quad_list (m_mapRegions n)) in
    if wasAdded then mkNode (m_compare n) regions (m_data n)
    else mkNode (m_compare n) regions ({[val]} ∪ m_data n)
  else mkNode (m_compare n) (m_mapRegions n) ({[val]} ∪ m_data n).

(** [Node::remove] *)
Fixpoint remove (val : Value) (n : Node) : Node :=
  let regions :=
    if hasChildren n then
      quad_map (λ region : option Node,
                  match region with
                  | Some child => Some (remove val child)
                  | None => None
                  end) (m_mapRegions n)
    else m_mapRegions n in
  mkNode (m_compare n) regions (m_data n ∖ {[val]}).

(** [Node::deleteChildren] *)
Definition deleteChildren (n : Node) : Node :=
  set_regions (quad_map (λ region : option Node,
                           match region with
                           | Some _ => None
                           | None => region
                           end) (m_mapRegions n)) n.

(** [Node::clear] *)
Fixpoint clear (n : Node) : Node :=
  let n' :=
    if hasChildren n then
      deleteChildren
        (set_regions (quad_map (λ region : option Node,
                                  match region with
                                  | Some child => Some (clear child)
                                  | None => None
                                  end) (m_mapRegions n)) n)
    else n in
  set_data ∅ n'.

(** [Node::getNearbyValues] *)
Fixpoint getNearbyValues (n : Node) (compare : NodeCompare) : SetValue :=
  let nearbyVals :=
    if hasChildren n then
      foldl (λ (acc : SetValue) (region : option Node),
               match region with
               | Some child => acc ∪ getNearbyValues child compare
               | None => acc
               end) ∅ (quad_list (m_mapRegions n))
    else ∅ in
  if overlaps (m_compare n) compare then nearbyVals ∪ m_data n else nearbyVals.

(** [Node::getAllChildValues] *)
Fixpoint getAllChildValues (n : Node) : SetValue :=
  let setData :=
    if hasChildren n then
      foldl (λ (acc : SetValue) (region : option Node),
               match region with
               | Some child => acc ∪ getAllChildValues child
               | None => acc
               end) ∅ (quad_list (m_mapRegions n))
    else ∅ in
  setData ∪ m_data n.

(** [Node::buildRootRegion] *)
Definition buildRootRegion (n : Node) : Node :=
  setCompare (buildRegionFromData (getAllChildValues n)) n.

(** [Node::shouldSubdivide]: [inAllRegions] stays true exactly when every
    value satisfies every quadrant. *)
Definition shouldSubdivide (vecVals : SetValue) (mapQuads : Quad NodeCompare) : bool :=
  let inAllRegions :=
    forallb (λ val, forallb (λ quad, satisfies quad val) (quad_list mapQuads))
            (elements vecVals) in
  negb inAllRegions.

(** The loop [for (thisVal : setAllData) add(thisVal)] of [rebalance]. *)
Definition addAll (setAllData : SetValue) (n : Node) : Node :=
  foldl (λ acc thisVal, add thisVal acc) n (elements setAllData).

(** The loop of [rebalance] that reads [region.second->m_compare] for every
    slot, with no null test. *)
Definition childCompares (n : Node) : outcome (Quad NodeCompare) :=
  quad_mapM (λ region : option Node,
               match region with
               | Some child => Done (m_compare child)
               | None => NullDeref
               end) (m_mapRegions n).

(** The predicate wrote the quadrants through references to the children's
    own search spaces. *)
Definition writeCompares (mapQuads : Quad NodeCompare) (n : Node) : Node :=
  set_regions (quad_zip (λ (region : option Node) quad,
                           match region with
                           | Some child => Some (setCompare quad child)
                           | None => None
                           end) (m_mapRegions n) mapQuads) n.

(** Creation of the missing children, each given its quadrant. *)
Definition buildChildren (mapQuads : Quad NodeCompare) (n : Node) : Node :=
  set_regions (quad_zip (λ (region : option Node) quad,
                           match region with
                           | Some child => Some (setCompare quad child)
                           | None => Some (setCompare quad newNode)
                           end) (m_mapRegions n) mapQuads) n.

(** The closing loop calling [rebalance] on every non-null child. *)
Definition rebalanceChildren (rebalance : Node → outcome Node) (n : Node) : outcome Node :=
  regions ← quad_mapM (λ region : option Node,
                         match region with
                         | Some child => Some <$> rebalance child
                         | None => Done None
                         end) (m_mapRegions n);
  mret (set_regions regions n).

(** [Node::rebalance] *)
Fixpoint rebalance (fuel : nat) (n : Node) : outcome Node :=
  match fuel with
  | O => OutOfFuel
  | S fuel =>
      let setAllData :=
        filter (λ val, satisfies (m_compare n) val = true) (getAllChildValues n) in
      let n := set_data ∅ n in
      if hasChildren n then
        if decide (size setAllData ≤ g_minDataSize) then
          Done (set_data setAllData (deleteChildren n))
        else
          quads ← childCompares n;
          let mapQuads := buildQuadrantsFromData (m_compare n) setAllData quads in
          let n := writeCompares mapQuads n in
          if shouldSubdivide setAllData mapQuads then
            rebalanceChildren (rebalance fuel) (addAll setAllData n)
          else
            Done (set_data setAllData (deleteChildren n))
      else
        if decide (size setAllData ≤ g_minDataSize) then
          Done (set_data setAllData n)
        else
          let mapQuads :=
            buildQuadrantsFromData (m_compare n) setAllData (quad_pure nilCompare) in
          if shouldSubdivide setAllData mapQuads then
            rebalanceChildren (rebalance fuel)
              (addAll setAllData (buildChildren mapQuads n))
          else
            Done (set_data setAllData n)
  end.

(** ** Vocabulary for the statements *)

(** Every node of the graph rooted at [n], the root first. *)
Fixpoint nodes (n : Node) : list Node :=
  n :: concat (quad_list (quad_map (λ region : option Node,
                                      match region with
                                      | Some child => nodes child
                                      | None => []
                                      end) (m_mapRegions n))).

(** LEAF: no child slot is populated.  BRANCH: all four are. *)
Definition isLeaf (n : Node) : bool :=
  forallb (λ region : option Node, bool_decide (region = None))
          (quad_list (m_mapRegions n)).
Definition isBranch (n : Node) : bool :=
  forallb (λ region : option Node, bool_decide (is_Some region))
          (quad_list (m_mapRegions n)).

(** Every node of the graph is a LEAF or a BRANCH. *)
Fixpoint leafOrBranchEverywhere (n : Node) : bool :=
  (isLeaf n || isBranch n) &&
  forallb (λ region : option Node,
             match region with
             | Some child => leafOrBranchEverywhere child
             | None => true
             end) (quad_list (m_mapRegions n)).

(** What [rebalance] keeps of the gathered values: [setAllData] after the
    erase loop. *)
Definition survivors (n : Node) : SetValue :=
  filter (λ val, satisfies (m_compare n) val = true) (getAllChildValues n).

(** The search spaces the quadrant map of [rebalance] refers to before the
    predicate is called: the children's own, or fresh [nilCompare]s. *)
Definition slotCompares (n : Node) : Quad NodeCompare :=
  quad_map (λ region : option Node,
              match region with
              | Some child => m_compare child
              | None => nilCompare
              end) (m_mapRegions n).

(** The candidate quadrants of a rebalance pass. *)
Definition candidateQuads (n : Node) : Quad NodeCompare :=
  buildQuadrantsFromData (m_compare n) (survivors n) (slotCompares n).

(** The two ways a rebalance pass leaves a node: as a LEAF holding the
    surviving values, or subdivided, before the children are rebalanced. *)
Definition settledLeaf (n : Node) : Node :=
  mkNode (m_compare n) (quad_pure None) (survivors n).
Definition subdivided (n : Node) : Node :=
  addAll (survivors n) (buildChildren (candidateQuads n) (set_data ∅ n)).

(** Two properties a predicate may have.  The quadrants lie within the
    search space they divide; and the quadrants written by
    [buildQuadrantsFromData] do not depend on what the slots held before. *)
Definition quadrantsWithinParent : Prop :=
  ∀ (parentRegion : NodeCompare) (values : SetValue) (quads : Quad NodeCompare)
    (rc : RegionCode) (val : Value),
    satisfies (quad_at rc (buildQuadrantsFromData parentRegion values quads)) val = true →
    satisfies parentRegion val = true.
Definition quadrantsIgnoreSlots : Prop :=
  ∀ (parentRegion : NodeCompare) (values : SetValue) (quads quads' : Quad NodeCompare),
    buildQuadrantsFromData parentRegion values quads
    = buildQuadrantsFromData parentRegion values quads'.

(** The values of [vals] that no quadrant accepts. *)
Definition orphans (vals : SetValue) (quads : Quad NodeCompare) : SetValue :=
  filter (λ val, existsb (λ quad, satisfies quad val) (quad_list quads) = false) vals.

(** The graph and its search spaces, the data left out. *)
Fixpoint skeleton (n : Node) : Node :=
  mkNode (m_compare n)
    (quad_map (λ region : option Node,
                 match region with
                 | Some child => Some (skeleton child)
                 | None => None
                 end) (m_mapRegions n))
    ∅.

(** What a rebalance pass leaves at a node: local values that satisfy the
    node's search space and, at a BRANCH, are orphans, above more values
    than the threshold, one of which some child's search space rejects. *)
Definition settled (m : Node) : Prop :=
  (∀ v, v ∈ m_data m → satisfies (m_compare m) v = true)
  ∧ (isLeaf m = true
     ∨ (isBranch m = true
        ∧ g_minDataSize < size (getAllChildValues m)
        ∧ (∀ v, v ∈ m_data m →
                existsb (accepts v) (quad_list (m_mapRegions m)) = false)
        ∧ ∃ v rc child,
            v ∈ getAllChildValues m
            ∧ quad_at rc (m_mapRegions m) = Some child
            ∧ satisfies (m_compare child) v = false)).

(** Two more properties a predicate may have.  A test region that
    satisfies a value overlaps every search space that satisfies it; and
    the quadrants of a search space holding more values than the threshold
    are smaller than it, in some measure. *)
Definition overlapsWhereSatisfied : Prop :=
  ∀ (nodeCompare testRegion : NodeCompare) (val : Value),
    satisfies nodeCompare val = true → satisfies testRegion val = true →
    overlaps nodeCompare testRegion = true.
Definition quadrantsShrink (measure : NodeCompare → nat) : Prop :=
  ∀ (parentRegion : NodeCompare) (values : SetValue) (quads : Quad NodeCompare)
    (rc : RegionCode),
    g_minDataSize < size values →
    (∀ val, val ∈ values → satisfies parentRegion val = true) →
    measure (quad_at rc (buildQuadrantsFromData parentRegion values quads))
    < measure parentRegion.

(** Every node's local values satisfy the node's search space. *)
Definition valuesInPlace (n : Node) : Prop :=
  ∀ m v, m ∈ nodes n → v ∈ m_data m → satisfies (m_compare m) v = true.

(** ** The tree facade *)

Record SearchTree2D := mkTree { m_tree : Node }.

(** [SearchTree2D()] *)
Definition newTree : SearchTree2D := mkTree newNode.
(** [SearchTree2D(const SearchTree2D&) = default] copies the member. *)
Definition copyTree (t : SearchTree2D) : SearchTree2D := mkTree (copyNode (m_tree t)).
Definition tree_add (val : Value) (t : SearchTree2D) : SearchTree2D :=
  mkTree (add val (m_tree t)).
Definition tree_remove (val : Value) (t : SearchTree2D) : SearchTree2D :=
  mkTree (remove val (m_tree t)).
Definition tree_clear (t : SearchTree2D) : SearchTree2D := mkTree (clear (m_tree t)).
Definition tree_getNearbyValues (t : SearchTree2D) (compare : NodeCompare) : SetValue :=
  getNearbyValues (m_tree t) compare.
Definition tree_rebalance (fuel : nat) (t : SearchTree2D) : outcome SearchTree2D :=
  mkTree <$> rebalance fuel (buildRootRegion (m_tree t)).


(** A run of [add] calls. *)
Definition addValues (vals : list Value) (t : SearchTree2D) : SearchTree2D :=
  foldl (λ t val, tree_add val t) t vals.

(** The public operations, and programs made of them. *)
Inductive operation :=
  | OpAdd (val : Value)
  | OpRemove (val : Value)
  | OpClear
  | OpRebalance
  | OpCopy.

Definition perform (fuel : nat) (op : operation) (t : SearchTree2D) : outcome SearchTree2D :=
  match op with
  | OpAdd val => Done (tree_add val t)
  | OpRemove val => Done (tree_remove val t)
  | OpClear => Done (tree_clear t)
  | OpRebalance => tree_rebalance fuel t
  | OpCopy => Done (copyTree t)
  end.

Fixpoint performAll (fuel : nat) (ops : list operation) (t : SearchTree2D) : outcome SearchTree2D :=
  match ops with
  | [] => Done t
  | op :: ops => t' ← perform fuel op t; performAll fuel ops t'
  end.

(** The operation that restructures. *)
Definition isRebalance (op : operation) : bool :=
  match op with
  | OpRebalance => true
  | _ => false
  end.

End tree.

(** * The node graph in memory

    The nodes above are values; the source keeps each [Node] in memory and
    reaches children through [std::unique_ptr<Node>].  To speak about what
    two trees share, this second embedding keeps the nodes in a store
    indexed by address and the child slots hold addresses.  Walks over the
    graph follow addresses and so run on fuel; an absent address or
    exhausted fuel is [None]. *)

Definition loc : Type := positive.

Definition quad_set {A} (rc : RegionCode) (a : A) (q : Quad A) : Quad A :=
  match rc with
  | UPPER_LEFT => mkQuad a (q_ur q) (q_ll q) (q_lr q)
  | UPPER_RIGHT => mkQuad (q_ul q) a (q_ll q) (q_lr q)
  | LOWER_LEFT => mkQuad (q_ul q) (q_ur q) a (q_lr q)
  | LOWER_RIGHT => mkQuad (q_ul q) (q_ur q) (q_ll q) a
  end.

Section memory.
Context {Value NodeCompare : Type} `{Countable Value}.
Context {Predicate : SearchPredicate Value NodeCompare}.

Local Abbreviation SetValue := (gset Value).
Local Abbreviation Node := (@Node Value NodeCompare _ _).

(** A [Node] object: its child slots hold the addresses of the children. *)
Record Cell := mkCell {
  c_compare : NodeCompare;
  c_regions : Quad (option loc);
  c_data : SetValue;
}.

Local Abbreviation heap := (gmap loc Cell).

Definition c_setCompare (compare : NodeCompare) (c : Cell) : Cell :=
  mkCell compare (c_regions c) (c_data c).
Definition c_setRegions (regions : Quad (option loc)) (c : Cell) : Cell :=
  mkCell (c_compare c) regions (c_data c).
Definition c_setData (d : SetValue) (c : Cell) : Cell :=
  mkCell (c_compare c) (c_regions c) d.

(** [Node::Node()] *)
Definition c_new : Cell := mkCell nilCompare (quad_pure None) ∅.

(** [Node::hasChildren] *)
Definition c_hasChildren (c : Cell) : bool :=
  existsb (λ region : option loc, bool_decide (is_Some region))
          (quad_list (c_regions c)).

(** [for (region : m_mapRegions) if (region.second) body(region.second)],
    threading the store. *)
Fixpoint forChildren (body : loc → heap → option heap)
    (regions : list (option loc)) (h : heap) : option heap :=
  match regions with
  | [] => Some h
  | region :: regions =>
      h ← match region with
          | Some p => body p h
          | None => Some h
          end;
      forChildren body regions h
  end.

(** The same loop collecting a set from every child. *)
Fixpoint gatherChildren (f : loc → option SetValue)
    (regions : list (option loc)) : option SetValue :=
  match regions with
  | [] => Some ∅
  | region :: regions =>
      vals ← match region with
             | Some p => f p
             | None => Some ∅
             end;
      rest ← gatherChildren f regions;
      Some (vals ∪ rest)
  end.

(** [Node::getAllChildValues] *)
Fixpoint h_getAllChildValues (fuel : nat) (h : heap) (this : loc) : option SetValue :=
  match fuel with
  | O => None
  | S fuel =>
      node ← h !! this;
      setData ← (if c_hasChildren node
                 then gatherChildren (h_getAllChildValues fuel h)
                                     (quad_list (c_regions node))
                 else Some ∅);
      Some (setData ∪ c_data node)
  end.

(** [Node::getNearbyValues] *)
Fixpoint h_getNearbyValues (fuel : nat) (h : heap) (this : loc)
    (compare : NodeCompare) : option SetValue :=
  match fuel with
  | O => None
  | S fuel =>
      node ← h !! this;
      nearbyVals ← (if c_hasChildren node
                    then gatherChildren (λ p, h_getNearbyValues fuel h p compare)
                                        (quad_list (c_regions node))
                    else Some ∅);
      Some (if overlaps (c_compare node) compare
            then nearbyVals ∪ c_data node else nearbyVals)
  end.

(** The loop of [Node::add] with its [wasAdded] flag. *)
Fixpoint addToChildren (addChild : loc → heap → option heap) (val : Value)
    (regions : list (option loc)) (h : heap) : option (heap * bool) :=
  match regions with
  | [] => Some (h, false)
  | region :: regions =>
      step ← match region with
             | Some p =>
                 child ← h !! p;
                 if satisfies (c_compare child) val
                 then h ← addChild p h; Some (h, true)
                 else Some (h, false)
             | None => Some (h, false)
             end;
      rest ← addToChildren addChild val regions step.1;
      Some (rest.1, step.2 || rest.2)
  end.

(** [Node::add] *)
Fixpoint h_add (fuel : nat) (val : Value) (this : loc) (h : heap) : option heap :=
  match fuel with
  | O => None
  | S fuel =>
      node ← h !! this;
      if c_hasChildren node then
        match addToChildren (h_add fuel val) val (quad_list (c_regions node)) h with
        | Some (h, wasAdded) =>
            if wasAdded then Some h
            else Some (alter (λ c, c_setData ({[val]} ∪ c_data c) c) this h)
        | None => None
        end
      else Some (alter (λ c, c_setData ({[val]} ∪ c_data c) c) this h)
  end.

(** [Node::remove] *)
Fixpoint h_remove (fuel : nat) (val : Value) (this : loc) (h : heap) : option heap :=
  match fuel with
  | O => None
  | S fuel =>
      node ← h !! this;
      h ← (if c_hasChildren node
           then forChildren (h_remove fuel val) (quad_list (c_regions node)) h
           else Some h);
      Some (alter (λ c, c_setData (c_data c ∖ {[val]}) c) this h)
  end.

(** [Node::deleteChildren]: resetting a slot runs the child's destructor,
    which clears the child, and releases its storage. *)
Definition deleteChildrenWith (clearChild : loc → heap → option heap)
    (this : loc) (h : heap) : option heap :=
  node ← h !! this;
  h ← forChildren (λ p h, h ← clearChild p h; Some (delete p h))
                  (quad_list (c_regions node)) h;
  Some (alter (c_setRegions (quad_map (λ region : option loc,
                                         match region with
                                         | Some _ => None
                                         | None => region
                                         end) (c_regions node))) this h).

(** [Node::clear] *)
Fixpoint h_clear (fuel : nat) (this : loc) (h : heap) : option heap :=
  match fuel with
  | O => None
  | S fuel =>
      node ← h !! this;
      h ← (if c_hasChildren node then
             h ← forChildren (h_clear fuel) (quad_list (c_regions node)) h;
             deleteChildrenWith (h_clear fuel) this h
           else Some h);
      Some (alter (c_setData ∅) this h)
  end.

Definition h_deleteChildren (fuel : nat) (this : loc) (h : heap) : option heap :=
  deleteChildrenWith (h_clear fuel) this h.

(** The loop of the copy constructor: every non-null child of the source is
    copied into new storage and the copy's slot is set to its address. *)
Fixpoint copyChildren (copyChild : loc → heap → option (loc * heap)) (this : loc)
    (regions : list (RegionCode * option loc)) (h : heap) : option heap :=
  match regions with
  | [] => Some h
  | (rc, region) :: regions =>
      h ← match region with
          | Some p =>
              match copyChild p h with
              | Some (p', h) =>
                  Some (alter (λ c, c_setRegions (quad_set rc (Some p') (c_regions c)) c)
                              this h)
              | None => None
              end
          | None => Some h
          end;
      copyChildren copyChild this regions h
  end.

(** The slots of a map with their keys, in key order. *)
Definition quad_items {A} (q : Quad A) : list (RegionCode * A) :=
  [(UPPER_LEFT, q_ul q); (UPPER_RIGHT, q_ur q);
   (LOWER_LEFT, q_ll q); (LOWER_RIGHT, q_lr q)].

(** [new Node(other)]: storage is obtained first, then [Node::Node(const
    Node&)] runs in it. *)
Fixpoint h_copyNode (fuel : nat) (other : loc) (h : heap) : option (loc * heap) :=
  match fuel with
  | O => None
  | S fuel =>
      source ← h !! other;
      let this := fresh (dom h) in
      let h := <[this := mkCell (c_compare source) (quad_pure None) (c_data source)]> h in
      h ← copyChildren (h_copyNode fuel) this (quad_items (c_regions source)) h;
      Some (this, h)
  end.

(** [Node::buildRootRegion] *)
Definition h_buildRootRegion (fuel : nat) (this : loc) (h : heap) : option heap :=
  vals ← h_getAllChildValues fuel h this;
  Some (alter (c_setCompare (buildRegionFromData vals)) this h).

(** The loop of [rebalance] reading every child's search space. *)
Definition h_childCompares (this : loc) (h : heap) : option (Quad NodeCompare) :=
  node ← h !! this;
  let read := λ region : option loc, p ← region; c_compare <$> h !! p in
  ul ← read (q_ul (c_regions node)); ur ← read (q_ur (c_regions node));
  ll ← read (q_ll (c_regions node)); lr ← read (q_lr (c_regions node));
  Some (mkQuad ul ur ll lr).

(** The predicate writes the quadrants through the references it was given:
    the children's own search spaces. *)
Fixpoint writeThrough (slots : list (option loc * NodeCompare)) (h : heap) : heap :=
  match slots with
  | [] => h
  | (Some p, quad) :: slots => writeThrough slots (alter (c_setCompare quad) p h)
  | (None, _) :: slots => writeThrough slots h
  end.

Definition h_writeThrough (mapQuads : Quad NodeCompare) (this : loc) (h : heap)
    : option heap :=
  node ← h !! this;
  Some (writeThrough (zip (quad_list (c_regions node)) (quad_list mapQuads)) h).

(** The closing loop calling [rebalance] on every non-null child. *)
Definition h_rebalanceChildren (rebalance : loc → heap → option heap)
    (this : loc) (h : heap) : option heap :=
  node ← h !! this;
  forChildren rebalance (quad_list (c_regions node)) h.

(** The loop creating the missing children and giving each its quadrant. *)
Fixpoint createChildren (this : loc) (slots : list (RegionCode * NodeCompare))
    (h : heap) : option heap :=
  match slots with
  | [] => Some h
  | (rc, quad) :: slots =>
      node ← h !! this;
      let '(p, h) :=
        match quad_at rc (c_regions node) with
        | Some p => (p, h)
        | None =>
            let p := fresh (dom h) in
            (p, alter (λ c, c_setRegions (quad_set rc (Some p) (c_regions c)) c) this
                      (<[p := c_new]> h))
        end in
      createChildren this slots (alter (c_setCompare quad) p h)
  end.

(** The loop [for (thisVal : setAllData) add(thisVal)]. *)
Fixpoint h_addAll (fuel : nat) (vals : list Value) (this : loc) (h : heap) : option heap :=
  match vals with
  | [] => Some h
  | val :: vals => h ← h_add fuel val this h; h_addAll fuel vals this h
  end.

(** [Node::rebalance].  The walks it starts ([getAllChildValues], [add],
    the destructors) visit each node of a graph at most once along a branch
    and get the size of the store as fuel; its own recursion takes [fuel]. *)
Fixpoint h_rebalance (fuel : nat) (this : loc) (h : heap) : option heap :=
  match fuel with
  | O => None
  | S fuel =>
      node ← h !! this;
      gathered ← h_getAllChildValues (size h) h this;
      let setAllData := filter (λ val, satisfies (c_compare node) val = true) gathered in
      let h := alter (c_setData ∅) this h in
      if c_hasChildren node then
        if decide (size setAllData ≤ g_minDataSize) then
          h ← h_deleteChildren (size h) this h;
          Some (alter (c_setData setAllData) this h)
        else
          quads ← h_childCompares this h;
          let mapQuads := buildQuadrantsFromData (c_compare node) setAllData quads in
          h ← h_writeThrough mapQuads this h;
          if shouldSubdivide setAllData mapQuads then
            h ← h_addAll (size h) (elements setAllData) this h;
            h_rebalanceChildren (h_rebalance fuel) this h
          else
            h ← h_deleteChildren (size h) this h;
            Some (alter (c_setData setAllData) this h)
      else
        if decide (size setAllData ≤ g_minDataSize) then
          Some (alter (c_setData setAllData) this h)
        else
          let mapQuads :=
            buildQuadrantsFromData (c_compare node) setAllData (quad_pure nilCompare) in
          if shouldSubdivide setAllData mapQuads then
            h ← createChildren this (quad_items mapQuads) h;
            h ← h_addAll (size h) (elements setAllData) this h;
            h_rebalanceChildren (h_rebalance fuel) this h
          else
            Some (alter (c_setData setAllData) this h)
  end.

(** ** Trees laid out in memory *)

(** Pairwise disjoint footprints. *)
Fixpoint disjointList (Fs : list (gset loc)) : Prop :=
  match Fs with
  | [] => True
  | F :: Fs => F ## ⋃ Fs ∧ disjointList Fs
  end.

(** A child slot of a node value against a child slot of a cell. *)
Definition slotRepr (R : Node → loc → gset loc → heap → Prop)
    (region : option Node) (p : option loc) (F : gset loc) (h : heap) : Prop :=
  match region, p with
  | Some child, Some p => R child p F h
  | None, None => F = ∅
  | _, _ => False
  end.

(** [repr T l F h]: the store [h] holds the node graph [T] at address [l],
    in the cells of the footprint [F], each cell used once (so nothing in
    the graph is shared). *)
Fixpoint repr (T : Node) (l : loc) (F : gset loc) (h : heap) : Prop :=
  ∃ (ptrs : Quad (option loc)) (Fs : Quad (gset loc)),
    (h !! l = Some (mkCell (m_compare T) ptrs (m_data T)))
    ∧ F = {[l]} ∪ ⋃ (quad_list Fs)
    ∧ (l ∉ ⋃ (quad_list Fs))
    ∧ disjointList (quad_list Fs)
    ∧ slotRepr repr (q_ul (m_mapRegions T)) (q_ul ptrs) (q_ul Fs) h
    ∧ slotRepr repr (q_ur (m_mapRegions T)) (q_ur ptrs) (q_ur Fs) h
    ∧ slotRepr repr (q_ll (m_mapRegions T)) (q_ll ptrs) (q_ll Fs) h
    ∧ slotRepr repr (q_lr (m_mapRegions T)) (q_lr ptrs) (q_lr Fs) h.

(** [frame h h' F F']: going from [h] to [h'], a computation that owned the
    footprint [F] and now owns [F'] left every other cell of [h] as it was
    and took the cells it has gained from outside [h]. *)
Definition frame (h h' : heap) (F F' : gset loc) : Prop :=
  (∀ x, x ∈ dom h → x ∉ F → h' !! x = h !! x)
  ∧ (∀ x, x ∈ F' → x ∈ F ∨ x ∉ dom h).

(** Two stores with the same cells, up to the data the cells hold. *)
Definition sameLinks (h h' : heap) : Prop :=
  ∀ x, c_compare <$> h' !! x = c_compare <$> h !! x
       ∧ c_regions <$> h' !! x = c_regions <$> h !! x.

(** The number of nodes of a graph. *)
Definition weight (T : Node) : nat := length (nodes T).

(** A mutating walk, run at the root of a graph laid out in memory, follows
    what the operation does to the graph, and stays within its frame. *)
Definition simulates (op : loc → heap → option heap) (T T' : Node) : Prop :=
  ∀ l F h, repr T l F h →
    ∃ h' F', op l h = Some h' ∧ repr T' l F' h' ∧ frame h h' F F'.

(** A copy takes its cells from outside the store and leaves the store as
    it was. *)
Definition copies (copyChild : loc → heap → option (loc * heap)) (T : Node) : Prop :=
  ∀ src F h, repr T src F h →
    ∃ dst h' F', copyChild src h = Some (dst, h') ∧ repr T dst F' h' ∧ frame h h' ∅ F'.

(** A mutating walk that, besides following the operation, leaves no cell
    behind: every cell of the store it returns was outside the graph before
    or belongs to the graph now. *)
Definition tidy (op : loc → heap → option heap) (T T' : Node) : Prop :=
  ∀ l F h, repr T l F h →
    ∃ h' F', op l h = Some h' ∧ repr T' l F' h' ∧ frame h h' F F'
             ∧ dom h' ⊆ dom h ∖ F ∪ F'.

(** A node with one child slot replaced. *)
Definition withRegion (rc : RegionCode) (region : option Node) (T : Node) : Node :=
  mkNode (m_compare T) (quad_set rc region (m_mapRegions T)) (m_data T).

(** ** Trees in memory

    A [SearchTree2D] object is the address of its root node, which is a
    member of the object. *)

(** [SearchTree2D(const SearchTree2D&)] *)
Definition h_copyTree (other : loc) (h : heap) : option (loc * heap) :=
  h_copyNode (size h) other h.

Definition h_tree_getNearbyValues (h : heap) (t : loc) (compare : NodeCompare)
    : option SetValue :=
  h_getNearbyValues (size h) h t compare.

Definition h_tree_rebalance (fuel : nat) (t : loc) (h : heap) : option heap :=
  h ← h_buildRootRegion (size h) t h;
  h_rebalance fuel t h.

(** [SearchTree2D::~SearchTree2D]: the body clears the tree; the member
    [m_tree] is then destroyed, and [Node::~Node] clears it once more; the
    storage of the root ends with the object. *)
Definition h_destroyTree (t : loc) (h : heap) : option heap :=
  h ← h_clear (size h) t h;
  h ← h_clear (size h) t h;
  Some (delete t h).

(** The four mutating operations of the facade. *)
Inductive mutation :=
  | MutAdd (val : Value)
  | MutRemove (val : Value)
  | MutClear
  | MutRebalance.

Definition h_mutate (fuel : nat) (m : mutation) (t : loc) (h : heap) : option heap :=
  match m with
  | MutAdd val => h_add (size h) val t h
  | MutRemove val => h_remove (size h) val t h
  | MutClear => h_clear (size h) t h
  | MutRebalance => h_tree_rebalance fuel t h
  end.

Definition toOperation (m : mutation) : operation :=
  match m with
  | MutAdd val => OpAdd val
  | MutRemove val => OpRemove val
  | MutClear => OpClear
  | MutRebalance => OpRebalance
  end.

(** A program over two trees: each step mutates the first ([false]) or the
    second ([true]). *)
Fixpoint h_mutateAll (fuel : nat) (prog : list (bool * mutation)) (a b : loc)
    (h : heap) : option heap :=
  match prog with
  | [] => Some h
  | (onSecond, m) :: prog =>
      h ← h_mutate fuel m (if onSecond then b else a) h;
      h_mutateAll fuel prog a b h
  end.

(** The steps of a program that mutate one of the trees. *)
Definition stepsOn (second : bool) (prog : list (bool * mutation)) : list operation :=
  toOperation <$> (snd <$> filter (λ step, step.1 = second) prog).

End memory.

(** * Sample predicates *)

(** ** Points in rectangles

    Values are points of the plane with natural coordinates, search spaces
    are rectangles with inclusive bounds.  The root search space is the
    bounding box of the points and a rectangle is divided at its midpoint. *)

Definition Point : Type := nat * nat.
Record Rect := mkRect { x0 : nat; y0 : nat; x1 : nat; y1 : nat }.

Definition emptyRect : Rect := mkRect 1 1 0 0.
Definition extend (p : Point) (r : Rect) : Rect :=
  mkRect (x0 r `min` p.1) (y0 r `min` p.2) (x1 r `max` p.1) (y1 r `max` p.2).
Definition boundingBox (points : gset Point) : Rect :=
  match elements points with
  | [] => emptyRect
  | p :: ps => foldr extend (mkRect p.1 p.2 p.1 p.2) ps
  end.
Definition inside (r : Rect) (p : Point) : bool :=
  bool_decide (x0 r ≤ p.1 ≤ x1 r ∧ y0 r ≤ p.2 ≤ y1 r).
Definition intersects (a b : Rect) : bool :=
  bool_decide (x0 a ≤ x1 a ∧ y0 a ≤ y1 a ∧ x0 b ≤ x1 b ∧ y0 b ≤ y1 b ∧
               x0 a ≤ x1 b ∧ x0 b ≤ x1 a ∧ y0 a ≤ y1 b ∧ y0 b ≤ y1 a).
Definition quarter (r : Rect) : Quad Rect :=
  let mx := (x0 r + x1 r) / 2 in
  let my := (y0 r + y1 r) / 2 in
  mkQuad (mkRect (x0 r) (my + 1) mx (y1 r)) (mkRect (mx + 1) (my + 1) (x1 r) (y1 r))
         (mkRect (x0 r) (y0 r) mx my) (mkRect (mx + 1) (y0 r) (x1 r) my).

(** The width plus the height of a rectangle. *)
Definition rectSpan (r : Rect) : nat := (x1 r - x0 r) + (y1 r - y0 r).

#[global] Instance RectPredicate : SearchPredicate Point Rect := {|
  nilCompare := emptyRect;
  buildRegionFromData := boundingBox;
  buildQuadrantsFromData := λ parentRegion _ _, quarter parentRegion;
  satisfies := inside;
  overlaps := intersects;
|}.

(** Five points, one in three of the quadrants of their bounding box and
    two in the fourth. *)
Definition fivePoints : SearchTree2D :=
  addValues [(1, 1); (2, 8); (8, 2); (9, 9); (5, 5)] newTree.
Definition fivePointsRebalanced : SearchTree2D :=
  Eval vm_compute in
    match tree_rebalance 2 fivePoints with Done t => t | _ => newTree end.

(** The five points in memory: the root at address 1, built and rebalanced
    there. *)
Definition fivePointsHeap : gmap loc (Cell (Value := Point) (NodeCompare := Rect)) :=
  Eval vm_compute in
    default ∅
      (h_mutateAll 2
         [(false, MutAdd (1, 1)); (false, MutAdd (2, 8)); (false, MutAdd (8, 2));
          (false, MutAdd (9, 9)); (false, MutAdd (5, 5)); (false, MutRebalance)]
         1%positive 1%positive {[1%positive := c_new]}).

(** A tree used, cleared and used again, next to a fresh one. *)
Definition reusedTree : SearchTree2D :=
  Eval vm_compute in
    match tree_rebalance 1 (tree_add (2, 2) newTree) with
    | Done t => tree_add (50, 50) (tree_clear t)
    | _ => newTree
    end.
Definition freshTree : SearchTree2D := tree_add (50, 50) newTree.

(** A program that never rebalances. *)
Definition flatProgram : list (operation (Value := Point)) :=
  [OpAdd (1, 1); OpAdd (2, 8); OpRemove (1, 1); OpCopy; OpClear; OpAdd (5, 5);
   OpAdd (9, 9)].

(** The rebalanced five points and a sixth one. *)
Definition sixPoints : SearchTree2D := tree_add (3, 3) fivePointsRebalanced.

(** ** Rectangles quartered once

    The same points and rectangles, with quadrants that depend on what the
    four slots hold when they are asked for: a rectangle is divided at its
    midpoint while the upper left slot is still the empty rectangle, and
    every slot is given the whole parent afterwards. *)

Definition quarterOnce (parentRegion : Rect) (quads : Quad Rect) : Quad Rect :=
  if bool_decide (x0 (q_ul quads) ≤ x1 (q_ul quads)) then quad_pure parentRegion
  else quarter parentRegion.

Definition OnceRectPredicate : SearchPredicate Point Rect := {|
  nilCompare := emptyRect;
  buildRegionFromData := boundingBox;
  buildQuadrantsFromData := λ parentRegion _ quads, quarterOnce parentRegion quads;
  satisfies := inside;
  overlaps := intersects;
|}.

Definition fivePointsMerged : SearchTree2D :=
  Eval vm_compute in
    match tree_rebalance (Predicate := OnceRectPredicate) 2 fivePointsRebalanced with
    | Done t => t
    | _ => newTree
    end.

(** ** A fixed grid

    Values are naturals and search spaces are half-open intervals.  The
    world is the interval from 0 to 10 whatever the data, and the quadrants
    are the four slabs of width 5 that start where the parent starts. *)

Record Slab := mkSlab { slab_lo : nat; slab_hi : nat }.

Definition inSlab (c : Slab) (v : nat) : bool :=
  bool_decide (slab_lo c ≤ v < slab_hi c).
Definition slabsMeet (a b : Slab) : bool :=
  bool_decide (slab_lo a < slab_hi b ∧ slab_lo b < slab_hi a).
Definition gridSlabs (parent : Slab) : Quad Slab :=
  let lo := slab_lo parent in
  mkQuad (mkSlab lo (lo + 5)) (mkSlab (lo + 5) (lo + 10))
         (mkSlab (lo + 10) (lo + 15)) (mkSlab (lo + 15) (lo + 20)).

#[global] Instance GridPredicate : SearchPredicate nat Slab := {|
  nilCompare := mkSlab 0 0;
  buildRegionFromData := λ _, mkSlab 0 10;
  buildQuadrantsFromData := λ parentRegion _ _, gridSlabs parentRegion;
  satisfies := inSlab;
  overlaps := slabsMeet;
|}.

(** Four values subdivide the world; a fifth one then lands in a child
    whose slab lies outside the world. *)
Definition gridProgram : list (operation (Value := nat)) :=
  [OpAdd 1; OpAdd 2; OpAdd 6; OpAdd 7; OpRebalance; OpAdd 12].
Definition gridTree : SearchTree2D :=
  Eval vm_compute in
    match performAll 2 gridProgram newTree with Done t => t | _ => newTree end.
Definition gridTreeRebalanced : SearchTree2D :=
  Eval vm_compute in
    match tree_rebalance 2 gridTree with Done t => t | _ => newTree end.

(** Four values in the first slab: the first quadrant of that slab is the
    slab itself. *)
Definition crowdedSlab : Node (Value := nat) (NodeCompare := Slab) :=
  mkNode (mkSlab 0 5) (quad_pure None) {[0; 1; 2; 3]}.

(** ** Half-open spans

    Values are naturals, search spaces are half-open intervals, and the
    root search space runs from the least value to the greatest one, which
    it therefore excludes.  The quadrants repeat the parent. *)

Record Span := mkSpan { span_lo : nat; span_hi : nat }.

Definition inSpan (s : Span) (v : nat) : bool :=
  bool_decide (span_lo s ≤ v < span_hi s).
Definition spansMeet (a b : Span) : bool :=
  bool_decide (span_lo a < span_hi b ∧ span_lo b < span_hi a).
Definition spanOf (vals : gset nat) : Span :=
  match elements vals with
  | [] => mkSpan 0 0
  | v :: vs => mkSpan (foldr Nat.min v vs) (foldr Nat.max v vs)
  end.

#[global] Instance SpanPredicate : SearchPredicate nat Span := {|
  nilCompare := mkSpan 0 0;
  buildRegionFromData := spanOf;
  buildQuadrantsFromData := λ parentRegion _ _, quad_pure parentRegion;
  satisfies := inSpan;
  overlaps := spansMeet;
|}.

Definition threeValues : SearchTree2D := addValues [1; 2; 3] newTree.
Definition threeValuesOnce : SearchTree2D :=
  Eval vm_compute in
    match tree_rebalance 1 threeValues with Done t => t | _ => newTree end.
Definition threeValuesTwice : SearchTree2D :=
  Eval vm_compute in
    match tree_rebalance 1 threeValuesOnce with Done t => t | _ => newTree end.


(** * Facts about the four-slot maps *)

(** The enumerators in the order of their numeric values, which is the
    order in which [quad_list] lists the slots. *)
Lemma region_values_increasing :
  region_value <$> all_regions = [1; 2; 4; 8]%Z
  ∧ ∀ i j c d, all_regions !! i = Some c → all_regions !! j = Some d →
               i < j → (region_value c < region_value d)%Z.
Proof.
  split; [reflexivity|]. intros i j c d Hi Hj Hlt.
  destruct i as [|[|[|[|i]]]], j as [|[|[|[|j]]]]; simplify_eq/=; try lia; reflexivity.
Qed.

Lemma quad_list_regions {A} (q : Quad A) :
  quad_list q = (λ c, quad_at c q) <$> all_regions.
Proof. reflexivity. Qed.

Lemma quad_at_map {A B} (f : A → B) rc (q : Quad A) :
  quad_at rc (quad_map f q) = f (quad_at rc q).
Proof. by destruct rc. Qed.

Lemma quad_at_zip {A B C} (f : A → B → C) rc p q :
  quad_at rc (quad_zip f p q) = f (quad_at rc p) (quad_at rc q).
Proof. by destruct rc. Qed.

Lemma quad_at_pure {A} rc (a : A) : quad_at rc (quad_pure a) = a.
Proof. by destruct rc. Qed.

Lemma quad_ext {A} (p q : Quad A) :
  (∀ rc, quad_at rc p = quad_at rc q) → p = q.
Proof.
  intros E. destruct p, q.
  pose proof (E UPPER_LEFT). pose proof (E UPPER_RIGHT).
  pose proof (E LOWER_LEFT). pose proof (E LOWER_RIGHT).
  simpl in *. congruence.
Qed.

Lemma elem_of_quad_list {A} (x : A) (q : Quad A) :
  x ∈ quad_list q ↔ ∃ rc, quad_at rc q = x.
Proof.
  unfold quad_list. rewrite !elem_of_cons, elem_of_nil. split.
  - intros [->|[->|[->|[->|[]]]]];
      [by exists UPPER_LEFT|by exists UPPER_RIGHT|by exists LOWER_LEFT|by exists LOWER_RIGHT].
  - intros [[] <-]; simpl; auto.
Qed.

Lemma quad_list_map {A B} (f : A → B) (q : Quad A) :
  quad_list (quad_map f q) = f <$> quad_list q.
Proof. done. Qed.

Lemma quad_mapM_Done {A B} (f : A → outcome B) (q : Quad A) (r : Quad B) :
  quad_mapM f q = Done r ↔ ∀ rc, f (quad_at rc q) = Done (quad_at rc r).
Proof.
  destruct q as [a b c d], r as [a' b' c' d']. unfold quad_mapM. simpl. split.
  - intros E rc.
    destruct (f a) eqn:Ea; try done. destruct (f b) eqn:Eb; try done.
    destruct (f c) eqn:Ec; try done. destruct (f d) eqn:Ed; try done.
    simpl in E. injection E as -> -> -> ->. by destruct rc.
  - intros E.
    pose proof (E UPPER_LEFT) as E1. pose proof (E UPPER_RIGHT) as E2.
    pose proof (E LOWER_LEFT) as E3. pose proof (E LOWER_RIGHT) as E4.
    simpl in *. by rewrite E1, E2, E3, E4.
Qed.

Lemma quad_mapM_ext {A B} (f g : A → outcome B) (q : Quad A) :
  (∀ rc, f (quad_at rc q) = g (quad_at rc q)) → quad_mapM f q = quad_mapM g q.
Proof.
  intros E. destruct q as [a b c d]. unfold quad_mapM.
  pose proof (E UPPER_LEFT) as E1. pose proof (E UPPER_RIGHT) as E2.
  pose proof (E LOWER_LEFT) as E3. pose proof (E LOWER_RIGHT) as E4.
  simpl in *. by rewrite E1, E2, E3, E4.
Qed.

Lemma elem_of_concat {A} (x : A) (ls : list (list A)) :
  x ∈ concat ls ↔ ∃ l, x ∈ l ∧ l ∈ ls.
Proof.
  rewrite list_elem_of_In, in_concat. split.
  - intros (l & Hl & Hx). exists l. by rewrite !list_elem_of_In.
  - intros (l & Hx & Hl). exists l. by rewrite <-!list_elem_of_In.
Qed.

Lemma forallb_false {A} (f : A → bool) (l : list A) :
  forallb f l = false ↔ ∃ x, In x l ∧ f x = false.
Proof.
  induction l as [|a l IH]; simpl.
  - split; [done|]. by intros (? & [] & _).
  - rewrite andb_false_iff, IH. split.
    + intros [Hf|(x & Hin & Hf)]; eauto.
    + intros (x & [->|Hin] & Hf); eauto.
Qed.

Lemma quad_mapM_ok {A B} (f : A → outcome B) (P : RegionCode → B → Prop) (q : Quad A) :
  (∀ rc, outcome_ok (P rc) (f (quad_at rc q))) →
  outcome_ok (λ r, ∀ rc, P rc (quad_at rc r)) (quad_mapM f q).
Proof.
  intros Hall. destruct q as [a b c d]. unfold quad_mapM.
  pose proof (Hall UPPER_LEFT) as H1. pose proof (Hall UPPER_RIGHT) as H2.
  pose proof (Hall LOWER_LEFT) as H3. pose proof (Hall LOWER_RIGHT) as H4.
  simpl in *.
  destruct (f a); simpl; [|done..]. destruct (f b); simpl; [|done..].
  destruct (f c); simpl; [|done..]. destruct (f d); simpl; [|done..].
  by intros [].
Qed.

Lemma quad_mapM_total {A B} (f : A → outcome B) (q : Quad A) :
  (∀ rc, ∃ b, f (quad_at rc q) = Done b) → ∃ r, quad_mapM f q = Done r.
Proof.
  intros Hf.
  destruct (Hf UPPER_LEFT) as [a Ha], (Hf UPPER_RIGHT) as [b Hb],
           (Hf LOWER_LEFT) as [c Hc], (Hf LOWER_RIGHT) as [d Hd].
  unfold quad_mapM. simpl in *. rewrite Ha, Hb, Hc, Hd. simpl. eauto.
Qed.

Lemma quad_mapM_OutOfFuel {A B} (f : A → outcome B) (q : Quad A) rc :
  f (quad_at rc q) = OutOfFuel → (∀ rc', f (quad_at rc' q) ≠ NullDeref) →
  quad_mapM f q = OutOfFuel.
Proof.
  intros Hrc Hok.
  pose proof (Hok UPPER_LEFT) as H1. pose proof (Hok UPPER_RIGHT) as H2.
  pose proof (Hok LOWER_LEFT) as H3. pose proof (Hok LOWER_RIGHT) as H4.
  unfold quad_mapM. destruct rc; simpl in *;
    destruct (f (q_ul q)); try done; simpl;
    destruct (f (q_ur q)); try done; simpl;
    destruct (f (q_ll q)); try done; simpl;
    destruct (f (q_lr q)); try done.
Qed.

Lemma outcome_ok_bind {A B} (P : A → Prop) (Q : B → Prop) (o : outcome A)
    (k : A → outcome B) :
  outcome_ok P o → (∀ a, P a → outcome_ok Q (k a)) → outcome_ok Q (o ≫= k).
Proof. destruct o; simpl; auto. Qed.

Lemma outcome_ok_impl {A} (P Q : A → Prop) (o : outcome A) :
  (∀ a, P a → Q a) → outcome_ok P o → outcome_ok Q o.
Proof. destruct o; simpl; auto. Qed.

Section tree_facts.
Context {Value NodeCompare : Type} `{Countable Value}.
Context {Predicate : SearchPredicate Value NodeCompare}.

Local Abbreviation SetValue := (gset Value).
Local Abbreviation Node := (@Node Value NodeCompare _ _).

Implicit Types (n child : Node) (val v : Value) (compare r : NodeCompare).
Implicit Types (rc : RegionCode) (regions : Quad (option Node)).

(** ** Induction over the node graph *)

Lemma Node_slots_ind (P : Node → Prop) :
  (∀ c regions d,
     Forall (λ region, from_option P True region) (quad_list regions) →
     P (mkNode c regions d)) →
  ∀ n, P n.
Proof.
  intros step. fix rec 1. intros [c [ul ur ll lr] d]. apply step.
  unfold quad_list. simpl.
  repeat apply Forall_cons_2; try apply Forall_nil_2.
  - destruct ul; simpl; [apply rec | exact I].
  - destruct ur; simpl; [apply rec | exact I].
  - destruct ll; simpl; [apply rec | exact I].
  - destruct lr; simpl; [apply rec | exact I].
Qed.

Lemma Node_ind (P : Node → Prop) :
  (∀ n, (∀ rc child, quad_at rc (m_mapRegions n) = Some child → P child) → P n) →
  ∀ n, P n.
Proof.
  intros step. apply Node_slots_ind. intros c regions d IH. apply step.
  simpl. intros rc child E. rewrite Forall_forall in IH.
  specialize (IH (Some child)). apply IH. apply elem_of_quad_list. eauto.
Qed.

(** ** Children *)

Lemma hasChildren_true n :
  hasChildren n = true ↔ ∃ rc child, quad_at rc (m_mapRegions n) = Some child.
Proof.
  unfold hasChildren. rewrite existsb_exists. split.
  - intros (region & Hin & Hsome). apply list_elem_of_In, elem_of_quad_list in Hin.
    destruct Hin as [rc <-]. apply bool_decide_eq_true in Hsome as [child E]. eauto.
  - intros (rc & child & E). exists (Some child). split.
    + apply list_elem_of_In, elem_of_quad_list. eauto.
    + by apply bool_decide_eq_true.
Qed.

Lemma hasChildren_false n :
  hasChildren n = false ↔ ∀ rc, quad_at rc (m_mapRegions n) = None.
Proof.
  rewrite <-not_true_iff_false, hasChildren_true. split.
  - intros Hno rc. destruct (quad_at rc (m_mapRegions n)) eqn:E; [|done].
    exfalso. eauto.
  - intros Hall (rc & child & E). by rewrite Hall in E.
Qed.

Lemma hasChildren_false_pure n :
  hasChildren n = false ↔ m_mapRegions n = quad_pure None.
Proof.
  rewrite hasChildren_false. split.
  - intros E. apply quad_ext. intros rc. by rewrite quad_at_pure.
  - intros -> rc. by rewrite quad_at_pure.
Qed.

(** The union loop over the four slots, by slot. *)
Lemma elem_of_slot_union (f : Node → SetValue) regions v :
  v ∈ foldl (λ (acc : SetValue) (region : option Node),
               match region with
               | Some child => acc ∪ f child
               | None => acc
               end) ∅ (quad_list regions)
  ↔ ∃ rc child, quad_at rc regions = Some child ∧ v ∈ f child.
Proof.
  destruct regions as [ul ur ll lr]. simpl. split.
  - intros Hv.
    destruct lr as [c4|]; [apply elem_of_union in Hv as [Hv|Hv]|];
      [|by exists LOWER_RIGHT, c4|].
    all: destruct ll as [c3|]; [apply elem_of_union in Hv as [Hv|Hv]|];
      [|by exists LOWER_LEFT, c3|].
    all: destruct ur as [c2|]; [apply elem_of_union in Hv as [Hv|Hv]|];
      [|by exists UPPER_RIGHT, c2|].
    all: destruct ul as [c1|]; [apply elem_of_union in Hv as [Hv|Hv]|];
      [|by exists UPPER_LEFT, c1|].
    all: set_solver.
  - intros (rc & child & E & Hv).
    destruct rc; simpl in E; subst;
      repeat match goal with o : option _ |- _ => destruct o end; set_solver.
Qed.

Lemma getAllChildValues_eq n :
  getAllChildValues n =
  (if hasChildren n then
     foldl (λ (acc : SetValue) (region : option Node),
              match region with
              | Some child => acc ∪ getAllChildValues child
              | None => acc
              end) ∅ (quad_list (m_mapRegions n))
   else ∅) ∪ m_data n.
Proof. by destruct n. Qed.

Lemma getNearbyValues_eq n r :
  getNearbyValues n r =
  let nearbyVals :=
    if hasChildren n then
      foldl (λ (acc : SetValue) (region : option Node),
               match region with
               | Some child => acc ∪ getNearbyValues child r
               | None => acc
               end) ∅ (quad_list (m_mapRegions n))
    else ∅ in
  if overlaps (m_compare n) r then nearbyVals ∪ m_data n else nearbyVals.
Proof. by destruct n. Qed.

Lemma elem_of_guarded_slot_union (f : Node → SetValue) n v :
  v ∈ (if hasChildren n then
         foldl (λ (acc : SetValue) (region : option Node),
                  match region with
                  | Some child => acc ∪ f child
                  | None => acc
                  end) ∅ (quad_list (m_mapRegions n))
       else ∅)
  ↔ ∃ rc child, quad_at rc (m_mapRegions n) = Some child ∧ v ∈ f child.
Proof.
  destruct (hasChildren n) eqn:Hc.
  - apply elem_of_slot_union.
  - rewrite elem_of_empty. rewrite hasChildren_false in Hc. split; [done|].
    intros (rc & child & E & _). by rewrite Hc in E.
Qed.

Lemma elem_of_getAllChildValues n v :
  v ∈ getAllChildValues n ↔
  v ∈ m_data n ∨
  ∃ rc child, quad_at rc (m_mapRegions n) = Some child ∧ v ∈ getAllChildValues child.
Proof.
  rewrite getAllChildValues_eq, elem_of_union, elem_of_guarded_slot_union. tauto.
Qed.

Lemma elem_of_getNearbyValues n r v :
  v ∈ getNearbyValues n r ↔
  (overlaps (m_compare n) r = true ∧ v ∈ m_data n) ∨
  ∃ rc child, quad_at rc (m_mapRegions n) = Some child ∧ v ∈ getNearbyValues child r.
Proof.
  rewrite getNearbyValues_eq. cbv zeta. destruct (overlaps (m_compare n) r).
  - rewrite elem_of_union, elem_of_guarded_slot_union. intuition congruence.
  - rewrite elem_of_guarded_slot_union. intuition congruence.
Qed.

(** ** The node graph *)

Lemma nodes_eq n :
  nodes n = n :: concat (quad_list (quad_map (λ region : option Node,
                                      match region with
                                      | Some child => nodes child
                                      | None => []
                                      end) (m_mapRegions n))).
Proof. by destruct n. Qed.

Lemma elem_of_nodes n m :
  m ∈ nodes n ↔
  m = n ∨ ∃ rc child, quad_at rc (m_mapRegions n) = Some child ∧ m ∈ nodes child.
Proof.
  rewrite nodes_eq, elem_of_cons, elem_of_concat. apply or_iff_compat_l. split.
  - intros (l & Hm & Hl). apply elem_of_quad_list in Hl as [rc Hl].
    rewrite quad_at_map in Hl. destruct (quad_at rc (m_mapRegions n)) eqn:E.
    + subst l. eauto.
    + subst l. by apply elem_of_nil in Hm.
  - intros (rc & child & E & Hm). exists (nodes child). split; [done|].
    apply elem_of_quad_list. exists rc. by rewrite quad_at_map, E.
Qed.

Lemma nodes_self n : n ∈ nodes n.
Proof. apply elem_of_nodes. by left. Qed.

Lemma elem_of_getNearbyValues_nodes n r v :
  v ∈ getNearbyValues n r ↔
  ∃ m, m ∈ nodes n ∧ overlaps (m_compare m) r = true ∧ v ∈ m_data m.
Proof.
  induction n as [n IH] using Node_ind.
  rewrite elem_of_getNearbyValues. split.
  - intros [[Ho Hv]|(rc & child & E & Hv)].
    + exists n. auto using nodes_self.
    + apply (IH rc child E) in Hv as (m & Hm & Ho & Hv).
      exists m. split; [|done]. apply elem_of_nodes. eauto 6.
  - intros (m & Hm & Ho & Hv). apply elem_of_nodes in Hm as [->|(rc & child & E & Hm)].
    + by left.
    + right. exists rc, child. split; [done|]. apply (IH rc child E). eauto.
Qed.

Lemma elem_of_getAllChildValues_nodes n v :
  v ∈ getAllChildValues n ↔ ∃ m, m ∈ nodes n ∧ v ∈ m_data m.
Proof.
  induction n as [n IH] using Node_ind.
  rewrite elem_of_getAllChildValues. split.
  - intros [Hv|(rc & child & E & Hv)].
    + exists n. auto using nodes_self.
    + apply (IH rc child E) in Hv as (m & Hm & Hv).
      exists m. split; [|done]. apply elem_of_nodes. eauto 6.
  - intros (m & Hm & Hv). apply elem_of_nodes in Hm as [->|(rc & child & E & Hm)].
    + by left.
    + right. exists rc, child. split; [done|]. apply (IH rc child E). eauto.
Qed.

Lemma getNearbyValues_subseteq n r : getNearbyValues n r ⊆ getAllChildValues n.
Proof.
  intros v. rewrite elem_of_getNearbyValues_nodes, elem_of_getAllChildValues_nodes.
  intros (m & ? & _ & ?). eauto.
Qed.

(** C1.  A query returns exactly the union of the local value sets of the
    nodes of the tree whose search space overlaps the test region; on a
    freshly constructed (empty) tree it returns the empty set. *)
Theorem getNearbyValues_union_of_overlapping_nodes n r :
  getNearbyValues n r
  = ⋃ (m_data <$> filter (λ m, overlaps (m_compare m) r = true) (nodes n))
  ∧ tree_getNearbyValues newTree r = ∅.
Proof.
  split.
  2:{ unfold tree_getNearbyValues. cbn. destruct (overlaps nilCompare r); set_solver. }
  apply set_eq. intros v.
  rewrite elem_of_getNearbyValues_nodes, elem_of_union_list. split.
  - intros (m & Hm & Ho & Hv). exists (m_data m). split; [|done].
    apply list_elem_of_fmap. exists m. split; [done|].
    by apply list_elem_of_filter.
  - intros (X & HX & Hv). apply list_elem_of_fmap in HX as (m & -> & Hm).
    apply list_elem_of_filter in Hm as [Ho Hm]. eauto.
Qed.

(** ** Insertion *)

Lemma add_eq val n :
  add val n =
  if hasChildren n then
    let regions :=
      quad_map (λ region : option Node,
                  match region with
                  | Some child =>
                      if satisfies (m_compare child) val
                      then Some (add val child) else Some child
                  | None => None
                  end) (m_mapRegions n) in
    let wasAdded := existsb (accepts val) (quad_list (m_mapRegions n)) in
    if wasAdded then mkNode (m_compare n) regions (m_data n)
    else mkNode (m_compare n) regions ({[val]} ∪ m_data n)
  else mkNode (m_compare n) (m_mapRegions n) ({[val]} ∪ m_data n).
Proof. by destruct n. Qed.

Lemma wasAdded_true val n :
  existsb (accepts val) (quad_list (m_mapRegions n)) = true ↔
  ∃ rc child, quad_at rc (m_mapRegions n) = Some child ∧
              satisfies (m_compare child) val = true.
Proof.
  rewrite existsb_exists. split.
  - intros (region & Hin & Ha). apply list_elem_of_In, elem_of_quad_list in Hin as [rc <-].
    destruct (quad_at rc (m_mapRegions n)) as [child|] eqn:E; [|done]. eauto.
  - intros (rc & child & E & Hs). exists (Some child). split; [|done].
    apply list_elem_of_In, elem_of_quad_list. eauto.
Qed.

Lemma wasAdded_false val n :
  existsb (accepts val) (quad_list (m_mapRegions n)) = false ↔
  ∀ rc child, quad_at rc (m_mapRegions n) = Some child →
              satisfies (m_compare child) val = false.
Proof.
  rewrite <-not_true_iff_false, wasAdded_true. split.
  - intros Hno rc child E. apply not_true_iff_false. intros Hs. apply Hno. eauto.
  - intros Hall (rc & child & E & Hs). rewrite (Hall _ _ E) in Hs. done.
Qed.

Lemma wasAdded_leaf val n :
  hasChildren n = false → existsb (accepts val) (quad_list (m_mapRegions n)) = false.
Proof.
  rewrite hasChildren_false, wasAdded_false. intros Hn rc child E.
  by rewrite Hn in E.
Qed.

Lemma add_compare val n : m_compare (add val n) = m_compare n.
Proof.
  rewrite add_eq. destruct (hasChildren n); [|done]. cbv zeta.
  by destruct (existsb _ _).
Qed.

Lemma add_regions val n rc :
  quad_at rc (m_mapRegions (add val n)) =
  match quad_at rc (m_mapRegions n) with
  | Some child => Some (if satisfies (m_compare child) val then add val child else child)
  | None => None
  end.
Proof.
  rewrite add_eq. destruct (hasChildren n) eqn:Hc.
  - cbv zeta. destruct (existsb _ _); simpl; rewrite quad_at_map;
      destruct (quad_at rc (m_mapRegions n)) as [child|]; try done;
      by destruct (satisfies _ _).
  - simpl. rewrite hasChildren_false in Hc. by rewrite Hc.
Qed.

Lemma add_data val n :
  m_data (add val n) =
  if existsb (accepts val) (quad_list (m_mapRegions n))
  then m_data n else {[val]} ∪ m_data n.
Proof.
  rewrite add_eq. destruct (hasChildren n) eqn:Hc.
  - cbv zeta. by destruct (existsb _ _).
  - by rewrite wasAdded_leaf.
Qed.

Lemma add_hasChildren val n : hasChildren (add val n) = hasChildren n.
Proof.
  apply eq_true_iff_eq. rewrite !hasChildren_true. split.
  - intros (rc & child & E). rewrite add_regions in E.
    destruct (quad_at rc (m_mapRegions n)) eqn:E'; [|done]. eauto.
  - intros (rc & child & E). exists rc. rewrite add_regions, E. eauto.
Qed.

Lemma Node_eq n n' :
  m_compare n = m_compare n' →
  (∀ rc, quad_at rc (m_mapRegions n) = quad_at rc (m_mapRegions n')) →
  m_data n = m_data n' →
  n = n'.
Proof.
  destruct n, n'. simpl. intros -> Hr ->. f_equal. by apply quad_ext.
Qed.

(** C2.  [add] leaves the search space alone; every child whose search
    space satisfies the value receives it through its own [add] and the
    other children are untouched.  When the search space of some child
    satisfies the value the local set is left as it is; when no child's
    does, the value enters the local set; and on a node without children
    the value always enters the local set and nothing else changes. *)
Theorem add_distributes_or_orphans val n :
  m_compare (add val n) = m_compare n
  ∧ (∀ rc,
       quad_at rc (m_mapRegions (add val n)) =
       match quad_at rc (m_mapRegions n) with
       | Some child =>
           Some (if satisfies (m_compare child) val then add val child else child)
       | None => None
       end)
  ∧ ((∃ rc child, quad_at rc (m_mapRegions n) = Some child
                  ∧ satisfies (m_compare child) val = true) →
     m_data (add val n) = m_data n)
  ∧ ((∀ rc child, quad_at rc (m_mapRegions n) = Some child →
                  satisfies (m_compare child) val = false) →
     m_data (add val n) = {[val]} ∪ m_data n)
  ∧ ((∀ rc, quad_at rc (m_mapRegions n) = None) →
     add val n = mkNode (m_compare n) (m_mapRegions n) ({[val]} ∪ m_data n)).
Proof.
  split; [apply add_compare|]. split; [apply add_regions|]. split; [|split].
  - intros Hsome. apply wasAdded_true in Hsome. by rewrite add_data, Hsome.
  - intros Hnone. apply wasAdded_false in Hnone. by rewrite add_data, Hnone.
  - intros Hleaf. apply hasChildren_false in Hleaf. by rewrite add_eq, Hleaf.
Qed.

Lemma getAllChildValues_add val n :
  getAllChildValues (add val n) = {[val]} ∪ getAllChildValues n.
Proof.
  induction n as [n IH] using Node_ind.
  apply set_eq. intros v. rewrite elem_of_union, elem_of_singleton.
  rewrite !elem_of_getAllChildValues, add_data. split.
  - intros [Hv|(rc & child & E & Hv)].
    + destruct (existsb _ _); set_solver.
    + rewrite add_regions in E.
      destruct (quad_at rc (m_mapRegions n)) as [c|] eqn:E'; [|done].
      injection E as <-. destruct (satisfies (m_compare c) val).
      * rewrite (IH rc c E') in Hv. set_solver.
      * eauto 7.
  - intros [->|[Hv|(rc & child & E & Hv)]].
    + destruct (existsb _ _) eqn:Hw; [|set_solver].
      apply wasAdded_true in Hw as (rc & child & E & Hs). right.
      exists rc, (add val child). rewrite add_regions, E, Hs. split; [done|].
      rewrite (IH rc child E). set_solver.
    + left. destruct (existsb _ _); set_solver.
    + right. exists rc. rewrite add_regions, E.
      destruct (satisfies (m_compare child) val); [|eauto].
      eexists. split; [done|]. rewrite (IH rc child E). set_solver.
Qed.

(** ** Removal *)

Lemma remove_eq val n :
  remove val n =
  mkNode (m_compare n)
    (if hasChildren n then
       quad_map (λ region : option Node,
                   match region with
                   | Some child => Some (remove val child)
                   | None => None
                   end) (m_mapRegions n)
     else m_mapRegions n)
    (m_data n ∖ {[val]}).
Proof. by destruct n. Qed.

Lemma remove_regions val n rc :
  quad_at rc (m_mapRegions (remove val n)) = remove val <$> quad_at rc (m_mapRegions n).
Proof.
  rewrite remove_eq. simpl. destruct (hasChildren n) eqn:Hc.
  - rewrite quad_at_map. by destruct (quad_at rc (m_mapRegions n)).
  - rewrite hasChildren_false in Hc. by rewrite Hc.
Qed.

Lemma remove_compare val n : m_compare (remove val n) = m_compare n.
Proof. by rewrite remove_eq. Qed.

Lemma remove_data val n : m_data (remove val n) = m_data n ∖ {[val]}.
Proof. by rewrite remove_eq. Qed.

Lemma getAllChildValues_remove val n :
  getAllChildValues (remove val n) = getAllChildValues n ∖ {[val]}.
Proof.
  induction n as [n IH] using Node_ind.
  apply set_eq. intros v. rewrite elem_of_difference, elem_of_singleton.
  rewrite !elem_of_getAllChildValues, remove_data. split.
  - intros [Hv|(rc & child & E & Hv)]; [set_solver|].
    rewrite remove_regions in E.
    destruct (quad_at rc (m_mapRegions n)) as [c|] eqn:E'; [|done].
    injection E as <-. rewrite (IH rc c E') in Hv. set_solver.
  - intros [[Hv|(rc & child & E & Hv)] Hne]; [set_solver|].
    right. exists rc, (remove val child). rewrite remove_regions, E. split; [done|].
    rewrite (IH rc child E). set_solver.
Qed.

Lemma remove_absent val n : val ∉ getAllChildValues n → remove val n = n.
Proof.
  induction n as [n IH] using Node_ind. intros Hv.
  apply Node_eq.
  - apply remove_compare.
  - intros rc. rewrite remove_regions.
    destruct (quad_at rc (m_mapRegions n)) as [c|] eqn:E; [|done]. simpl.
    rewrite (IH rc c E); [done|]. intros Hc. apply Hv.
    apply elem_of_getAllChildValues. eauto.
  - rewrite remove_data. apply set_eq. intros v.
    rewrite elem_of_difference, elem_of_singleton. split; [tauto|].
    intros Hd. split; [done|]. intros ->. apply Hv.
    apply elem_of_getAllChildValues. auto.
Qed.

(** C5.  [remove] erases the value from the local set and recurses into
    every child without any test; a value the tree does not hold leaves the
    tree as it was; afterwards no query returns the value. *)
Theorem remove_erases_everywhere val n :
  m_compare (remove val n) = m_compare n
  ∧ (∀ rc, quad_at rc (m_mapRegions (remove val n))
           = remove val <$> quad_at rc (m_mapRegions n))
  ∧ m_data (remove val n) = m_data n ∖ {[val]}
  ∧ (val ∉ getAllChildValues n → remove val n = n)
  ∧ (∀ r, val ∉ getNearbyValues (remove val n) r).
Proof.
  split; [apply remove_compare|]. split; [apply remove_regions|].
  split; [apply remove_data|]. split; [apply remove_absent|].
  intros r Hin. apply getNearbyValues_subseteq in Hin.
  rewrite getAllChildValues_remove in Hin. set_solver.
Qed.

(** ** Clearing *)

Lemma clear_eq n : clear n = mkNode (m_compare n) (quad_pure None) ∅.
Proof.
  destruct n as [c regions d]. simpl.
  destruct (hasChildren (mkNode c regions d)) eqn:Hc.
  - unfold deleteChildren, set_regions, set_data. simpl. f_equal.
    apply quad_ext. intros rc. rewrite !quad_at_map, quad_at_pure.
    by destruct (quad_at rc regions).
  - unfold set_data. simpl. f_equal. by apply hasChildren_false_pure in Hc.
Qed.

(** C8.  After [clear] the node is an empty LEAF, and neither the cleared
    tree nor a freshly constructed one returns anything to any query. *)
Theorem clear_yields_empty_leaf n r :
  m_mapRegions (clear n) = quad_pure None
  ∧ m_data (clear n) = ∅
  ∧ nodes (clear n) = [clear n]
  ∧ getNearbyValues (clear n) r = ∅
  ∧ getNearbyValues newNode r = ∅.
Proof.
  rewrite clear_eq. cbn. repeat split; destruct (overlaps _ r); set_solver.
Qed.

(** ** Copying *)

Lemma copyNode_id n : copyNode n = n.
Proof.
  induction n as [n IH] using Node_ind. destruct n as [c regions d].
  simpl in *. f_equal. apply quad_ext. intros rc. rewrite quad_at_map.
  destruct (quad_at rc regions) as [child|] eqn:E; [|done].
  by rewrite (IH rc child E).
Qed.

(** ** Shapes *)

Lemma isLeaf_true n : isLeaf n = true ↔ ∀ rc, quad_at rc (m_mapRegions n) = None.
Proof.
  unfold isLeaf. rewrite forallb_forall. split.
  - intros Hall rc. specialize (Hall (quad_at rc (m_mapRegions n))).
    eapply bool_decide_eq_true_1, Hall, list_elem_of_In, elem_of_quad_list. eauto.
  - intros Hall region Hin. apply list_elem_of_In, elem_of_quad_list in Hin as [rc <-].
    by apply bool_decide_eq_true.
Qed.

Lemma isBranch_true n :
  isBranch n = true ↔ ∀ rc, is_Some (quad_at rc (m_mapRegions n)).
Proof.
  unfold isBranch. rewrite forallb_forall. split.
  - intros Hall rc. specialize (Hall (quad_at rc (m_mapRegions n))).
    eapply bool_decide_eq_true_1, Hall, list_elem_of_In, elem_of_quad_list. eauto.
  - intros Hall region Hin. apply list_elem_of_In, elem_of_quad_list in Hin as [rc <-].
    by apply bool_decide_eq_true.
Qed.

Lemma isLeaf_hasChildren n : isLeaf n = true ↔ hasChildren n = false.
Proof. by rewrite isLeaf_true, hasChildren_false. Qed.

Lemma isBranch_hasChildren n : isBranch n = true → hasChildren n = true.
Proof.
  rewrite isBranch_true, hasChildren_true. intros Hb.
  destruct (Hb UPPER_LEFT) as [child E]. eauto.
Qed.

Lemma leafOrBranchEverywhere_eq n :
  leafOrBranchEverywhere n =
  (isLeaf n || isBranch n) &&
  forallb (λ region : option Node,
             match region with
             | Some child => leafOrBranchEverywhere child
             | None => true
             end) (quad_list (m_mapRegions n)).
Proof. by destruct n. Qed.

Lemma leafOrBranchEverywhere_true n :
  leafOrBranchEverywhere n = true ↔
  (isLeaf n = true ∨ isBranch n = true) ∧
  ∀ rc child, quad_at rc (m_mapRegions n) = Some child →
              leafOrBranchEverywhere child = true.
Proof.
  rewrite leafOrBranchEverywhere_eq, andb_true_iff, orb_true_iff, forallb_forall.
  apply and_iff_compat_l. split.
  - intros Hall rc child E. apply (Hall (Some child)).
    apply list_elem_of_In, elem_of_quad_list. eauto.
  - intros Hall region Hin. apply list_elem_of_In, elem_of_quad_list in Hin as [rc <-].
    destruct (quad_at rc (m_mapRegions n)) eqn:E; eauto.
Qed.

(** The invariant says what it should: every node of the graph has no child
    or four. *)
Lemma leafOrBranchEverywhere_nodes n :
  leafOrBranchEverywhere n = true ↔
  ∀ m, m ∈ nodes n → isLeaf m = true ∨ isBranch m = true.
Proof.
  induction n as [n IH] using Node_ind.
  rewrite leafOrBranchEverywhere_true. split.
  - intros [Hn Hkids] m Hm. apply elem_of_nodes in Hm as [->|(rc & child & E & Hm)]; [done|].
    eapply IH; eauto.
  - intros Hall. split; [apply Hall, nodes_self|].
    intros rc child E. apply (IH rc child E). intros m Hm. apply Hall.
    apply elem_of_nodes. eauto 6.
Qed.

(** ** The re-insertion loop of [rebalance] *)

Local Abbreviation addList l n := (foldl (λ acc thisVal, add thisVal acc) n l).

Lemma wasAdded_add v w n :
  existsb (accepts v) (quad_list (m_mapRegions (add w n)))
  = existsb (accepts v) (quad_list (m_mapRegions n)).
Proof.
  apply eq_true_iff_eq. rewrite !wasAdded_true. split.
  - intros (rc & child & E & Hs). rewrite add_regions in E.
    destruct (quad_at rc (m_mapRegions n)) as [c|] eqn:E'; [|done].
    injection E as <-. exists rc, c. split; [done|].
    destruct (satisfies (m_compare c) w); [by rewrite add_compare in Hs|done].
  - intros (rc & child & E & Hs). exists rc. rewrite add_regions, E.
    eexists. split; [done|].
    destruct (satisfies (m_compare child) w); [by rewrite add_compare|done].
Qed.

Lemma addList_compare (l : list Value) n : m_compare (addList l n) = m_compare n.
Proof.
  revert n. induction l as [|v l IH]; intros n; [done|].
  simpl. by rewrite IH, add_compare.
Qed.

Lemma addList_regions (l : list Value) n rc :
  quad_at rc (m_mapRegions (addList l n)) =
  (λ child, addList (filter (λ v, satisfies (m_compare child) v = true) l) child)
    <$> quad_at rc (m_mapRegions n).
Proof.
  revert n. induction l as [|v l IH]; intros n.
  - simpl. by destruct (quad_at rc (m_mapRegions n)).
  - simpl. rewrite IH, add_regions.
    destruct (quad_at rc (m_mapRegions n)) as [child|]; [|done]. simpl. f_equal.
    destruct (satisfies (m_compare child) v) eqn:Hs.
    + rewrite add_compare, filter_cons_True by (cbv beta; congruence). done.
    + rewrite filter_cons_False by (cbv beta; congruence). done.
Qed.

Lemma addList_data (l : list Value) n :
  m_data (addList l n) =
  m_data n ∪
  list_to_set (filter (λ v, existsb (accepts v) (quad_list (m_mapRegions n)) = false) l).
Proof.
  revert n. induction l as [|v l IH]; intros n.
  - simpl. set_solver.
  - simpl. rewrite IH, add_data.
    assert (filter (λ v0, existsb (accepts v0) (quad_list (m_mapRegions (add v n))) = false) l
            = filter (λ v0, existsb (accepts v0) (quad_list (m_mapRegions n)) = false) l)
      as ->.
    { apply list_filter_iff. intros x. by rewrite wasAdded_add. }
    destruct (existsb (accepts v) (quad_list (m_mapRegions n))) eqn:Hw.
    + rewrite filter_cons_False by (apply not_false_iff_true; exact Hw). done.
    + rewrite filter_cons_True by exact Hw. set_solver.
Qed.

Lemma addList_values (l : list Value) n :
  getAllChildValues (addList l n) = list_to_set l ∪ getAllChildValues n.
Proof.
  revert n. induction l as [|v l IH]; intros n.
  - simpl. set_solver.
  - simpl. rewrite IH, getAllChildValues_add. set_solver.
Qed.

Lemma addList_fixed (l : list Value) n :
  (∀ v, v ∈ l → add v n = n) → addList l n = n.
Proof.
  induction l as [|v l IH]; intros Hfix; [done|].
  simpl. rewrite Hfix by left. apply IH. intros w Hw. apply Hfix. by right.
Qed.

Lemma addAll_compare (vals : SetValue) n : m_compare (addAll vals n) = m_compare n.
Proof. apply addList_compare. Qed.

Lemma addAll_values (vals : SetValue) n :
  getAllChildValues (addAll vals n) = vals ∪ getAllChildValues n.
Proof. unfold addAll. by rewrite addList_values, list_to_set_elements_L. Qed.

Lemma addAll_data (vals : SetValue) n :
  m_data (addAll vals n) =
  m_data n ∪
  filter (λ v, existsb (accepts v) (quad_list (m_mapRegions n)) = false) vals.
Proof.
  unfold addAll. rewrite addList_data. apply set_eq. intros v.
  rewrite !elem_of_union, elem_of_list_to_set, list_elem_of_filter, elem_of_filter,
    elem_of_elements.
  done.
Qed.

(** A child of the node after the loop: it kept its search space and
    gained exactly the values that search space satisfies. *)
Lemma addAll_child (vals : SetValue) n rc child :
  quad_at rc (m_mapRegions n) = Some child →
  ∃ child',
    quad_at rc (m_mapRegions (addAll vals n)) = Some child' ∧
    m_compare child' = m_compare child ∧
    m_mapRegions child' =
      m_mapRegions (addList (filter (λ v, satisfies (m_compare child) v = true)
                                    (elements vals)) child) ∧
    getAllChildValues child' =
      filter (λ v, satisfies (m_compare child) v = true) vals ∪ getAllChildValues child.
Proof.
  intros E. unfold addAll. rewrite addList_regions, E. simpl.
  eexists. split; [done|]. split; [apply addList_compare|]. split; [done|].
  rewrite addList_values. apply set_eq. intros v.
  rewrite !elem_of_union, elem_of_list_to_set, list_elem_of_filter, elem_of_filter,
    elem_of_elements.
  done.
Qed.

Lemma addAll_no_child (vals : SetValue) n rc :
  quad_at rc (m_mapRegions n) = None →
  quad_at rc (m_mapRegions (addAll vals n)) = None.
Proof. intros E. unfold addAll. by rewrite addList_regions, E. Qed.

(** ** The order of the re-insertion loop

    [std::set] is visited in increasing order and [elements] in an order of
    its own; the loop gives the same node for every order. *)

Lemma add_comm v w n : add v (add w n) = add w (add v n).
Proof.
  induction n as [n IH] using Node_ind. apply Node_eq.
  - by rewrite !add_compare.
  - intros rc. rewrite !(add_regions _ (add _ n)), !add_regions.
    destruct (quad_at rc (m_mapRegions n)) as [c|] eqn:E; [|done]. f_equal.
    destruct (satisfies (m_compare c) v) eqn:Hv, (satisfies (m_compare c) w) eqn:Hw;
      rewrite ?add_compare, ?Hv, ?Hw; try done.
    by apply (IH rc).
  - rewrite !(add_data _ (add _ n)), !wasAdded_add, !add_data.
    destruct (existsb (accepts v) _), (existsb (accepts w) _); set_solver.
Qed.

Lemma addList_permutation (l l' : list Value) n :
  l ≡ₚ l' →
  foldl (λ acc thisVal, add thisVal acc) n l = foldl (λ acc thisVal, add thisVal acc) n l'.
Proof.
  intros Hperm. revert n.
  induction Hperm as [|x l l' _ IH|x y l|l1 l2 l3 _ IH1 _ IH2]; intros n; simpl.
  - done.
  - apply IH.
  - by rewrite add_comm.
  - by rewrite IH1.
Qed.

(** ** One pass of [rebalance] *)

Lemma rebalance_eq fuel n :
  rebalance (S fuel) n =
  let setAllData := survivors n in
  let n := set_data ∅ n in
  if hasChildren n then
    if decide (size setAllData ≤ g_minDataSize) then
      Done (set_data setAllData (deleteChildren n))
    else
      quads ← childCompares n;
      let mapQuads := buildQuadrantsFromData (m_compare n) setAllData quads in
      let n := writeCompares mapQuads n in
      if shouldSubdivide setAllData mapQuads then
        rebalanceChildren (rebalance fuel) (addAll setAllData n)
      else
        Done (set_data setAllData (deleteChildren n))
  else
    if decide (size setAllData ≤ g_minDataSize) then
      Done (set_data setAllData n)
    else
      let mapQuads :=
        buildQuadrantsFromData (m_compare n) setAllData (quad_pure nilCompare) in
      if shouldSubdivide setAllData mapQuads then
        rebalanceChildren (rebalance fuel)
          (addAll setAllData (buildChildren mapQuads n))
      else
        Done (set_data setAllData n).
Proof. done. Qed.

Lemma deleteChildren_regions n : m_mapRegions (deleteChildren n) = quad_pure None.
Proof.
  apply quad_ext. intros rc. unfold deleteChildren. simpl.
  rewrite quad_at_map, quad_at_pure. by destruct (quad_at rc (m_mapRegions n)).
Qed.

Lemma childCompares_branch n :
  isBranch n = true → childCompares n = Done (slotCompares n).
Proof.
  rewrite isBranch_true. intros Hb. apply quad_mapM_Done. intros rc.
  unfold slotCompares. rewrite quad_at_map. by destruct (Hb rc) as [child ->].
Qed.

Lemma childCompares_Done n quads :
  childCompares n = Done quads → isBranch n = true.
Proof.
  intros Hq. apply isBranch_true. intros rc.
  unfold childCompares in Hq. rewrite quad_mapM_Done in Hq. specialize (Hq rc).
  by destruct (quad_at rc (m_mapRegions n)).
Qed.

Lemma childCompares_not_branch n :
  hasChildren n = true → isBranch n = false → childCompares n = NullDeref.
Proof.
  intros Hc Hb. destruct (childCompares n) as [quads| |] eqn:Hq; [| |done].
  - apply childCompares_Done in Hq. congruence.
  - exfalso. unfold childCompares, quad_mapM in Hq.
    destruct (m_mapRegions n) as [[?|] [?|] [?|] [?|]]; discriminate.
Qed.

Lemma writeCompares_branch quads n :
  isBranch n = true → writeCompares quads n = buildChildren quads n.
Proof.
  rewrite isBranch_true. intros Hb. unfold writeCompares, buildChildren. f_equal.
  apply quad_ext. intros rc. rewrite !quad_at_zip. by destruct (Hb rc) as [child ->].
Qed.

Lemma slotCompares_leaf n :
  hasChildren n = false → slotCompares n = quad_pure nilCompare.
Proof.
  rewrite hasChildren_false. intros Hl. apply quad_ext. intros rc.
  unfold slotCompares. by rewrite quad_at_map, quad_at_pure, Hl.
Qed.

Lemma settledLeaf_from_branch n n0 :
  m_compare n0 = m_compare n →
  set_data (survivors n) (deleteChildren n0) = settledLeaf n.
Proof.
  intros Hc. unfold set_data, settledLeaf. rewrite deleteChildren_regions.
  by rewrite <-Hc.
Qed.

Lemma rebalance_S fuel n :
  size (survivors n) ≤ g_minDataSize ∨ isLeaf n = true ∨ isBranch n = true →
  rebalance (S fuel) n =
  if decide (size (survivors n) ≤ g_minDataSize) then Done (settledLeaf n)
  else if shouldSubdivide (survivors n) (candidateQuads n)
       then rebalanceChildren (rebalance fuel) (subdivided n)
       else Done (settledLeaf n).
Proof.
  intros Hshape. rewrite rebalance_eq. cbv zeta.
  change (hasChildren (set_data ∅ n)) with (hasChildren n).
  destruct (hasChildren n) eqn:Hc.
  - destruct (decide (size (survivors n) ≤ g_minDataSize)) as [Hsz|Hsz].
    { f_equal. by apply settledLeaf_from_branch. }
    destruct Hshape as [?|[Hl|Hb]]; [done| |].
    { apply isLeaf_hasChildren in Hl. congruence. }
    assert (isBranch (set_data ∅ n) = true) as Hb' by done.
    rewrite (childCompares_branch _ Hb'). simpl.
    change (slotCompares (set_data ∅ n)) with (slotCompares n).
    fold (candidateQuads n).
    rewrite (writeCompares_branch _ _ Hb').
    destruct (shouldSubdivide (survivors n) (candidateQuads n)); [done|].
    f_equal. by apply settledLeaf_from_branch.
  - assert (set_data (survivors n) (set_data ∅ n) = settledLeaf n) as ->.
    { unfold set_data, settledLeaf. simpl. f_equal.
      by apply hasChildren_false_pure. }
    destruct (decide (size (survivors n) ≤ g_minDataSize)) as [Hsz|Hsz]; [done|].
    unfold subdivided, candidateQuads. rewrite (slotCompares_leaf _ Hc). done.
Qed.

Lemma rebalance_Done_shape fuel n n' :
  rebalance (S fuel) n = Done n' →
  size (survivors n) ≤ g_minDataSize ∨ isLeaf n = true ∨ isBranch n = true.
Proof.
  rewrite rebalance_eq. cbv zeta.
  change (hasChildren (set_data ∅ n)) with (hasChildren n).
  destruct (decide (size (survivors n) ≤ g_minDataSize)) as [Hsz|Hsz]; [by left|].
  intros Hr. right. destruct (hasChildren n) eqn:Hc.
  - right.
    destruct (childCompares (set_data ∅ n)) as [quads| |] eqn:Hq; [|done..].
    by apply childCompares_Done in Hq.
  - left. by apply isLeaf_hasChildren.
Qed.

(** A node with one, two or three children and more data than the threshold
    makes [rebalance] read the search space of a null child. *)
Lemma rebalance_partial_node fuel n :
  hasChildren n = true → isBranch n = false →
  g_minDataSize < size (survivors n) →
  rebalance (S fuel) n = NullDeref.
Proof.
  intros Hc Hb Hsz. rewrite rebalance_eq. cbv zeta.
  change (hasChildren (set_data ∅ n)) with (hasChildren n). rewrite Hc.
  rewrite decide_False by lia.
  by rewrite (childCompares_not_branch (set_data ∅ n)).
Qed.

Lemma shouldSubdivide_false (vals : SetValue) (quads : Quad NodeCompare) :
  shouldSubdivide vals quads = false ↔
  ∀ v rc, v ∈ vals → satisfies (quad_at rc quads) v = true.
Proof.
  unfold shouldSubdivide. rewrite negb_false_iff, forallb_forall. split.
  - intros Hall v rc Hv.
    assert (In v (elements vals)) as Hin by by apply list_elem_of_In, elem_of_elements.
    specialize (Hall v Hin). rewrite forallb_forall in Hall.
    apply Hall, list_elem_of_In, elem_of_quad_list. eauto.
  - intros Hall v Hin. apply list_elem_of_In, elem_of_elements in Hin.
    apply forallb_forall. intros quad Hq.
    apply list_elem_of_In, elem_of_quad_list in Hq as [rc <-]. auto.
Qed.

Lemma shouldSubdivide_true (vals : SetValue) (quads : Quad NodeCompare) :
  shouldSubdivide vals quads = true ↔
  ∃ v rc, v ∈ vals ∧ satisfies (quad_at rc quads) v = false.
Proof.
  unfold shouldSubdivide. rewrite negb_true_iff, forallb_false. split.
  - intros (v & Hin & Hf). apply forallb_false in Hf as (quad & Hq & Hf).
    apply list_elem_of_In, elem_of_elements in Hin.
    apply list_elem_of_In, elem_of_quad_list in Hq as [rc <-]. eauto.
  - intros (v & rc & Hv & Hf). exists v. split.
    + by apply list_elem_of_In, elem_of_elements.
    + apply forallb_false. exists (quad_at rc quads). split; [|done].
      apply list_elem_of_In, elem_of_quad_list. eauto.
Qed.

Lemma rebalanceChildren_Done (f : Node → outcome Node) n n' :
  rebalanceChildren f n = Done n' ↔
  m_compare n' = m_compare n ∧ m_data n' = m_data n ∧
  ∀ rc, match quad_at rc (m_mapRegions n) with
        | Some child => ∃ child', f child = Done child' ∧
                                  quad_at rc (m_mapRegions n') = Some child'
        | None => quad_at rc (m_mapRegions n') = None
        end.
Proof.
  unfold rebalanceChildren. split.
  - destruct (quad_mapM _ _) as [regions| |] eqn:Hq; [|done..].
    simpl. intros [= <-]. simpl. split; [done|]. split; [done|].
    rewrite quad_mapM_Done in Hq. intros rc. specialize (Hq rc).
    destruct (quad_at rc (m_mapRegions n)) as [child|].
    + destruct (f child) as [child'| |]; [|done..]. simpl in Hq.
      injection Hq as Hq. eauto.
    + by injection Hq.
  - intros (Hc & Hd & Hr).
    assert (quad_mapM (λ region : option Node,
                         match region with
                         | Some child => Some <$> f child
                         | None => Done None
                         end) (m_mapRegions n) = Done (m_mapRegions n')) as ->.
    { apply quad_mapM_Done. intros rc. specialize (Hr rc).
      destruct (quad_at rc (m_mapRegions n)) as [child|].
      - destruct Hr as (child' & -> & ->). done.
      - by rewrite Hr. }
    simpl. unfold mret, outcome_ret. f_equal. destruct n'. simpl in *. by subst.
Qed.

(** ** The subdivided node *)

Lemma buildChildren_regions quads n rc :
  quad_at rc (m_mapRegions (buildChildren quads n)) =
  Some (setCompare (quad_at rc quads) (default newNode (quad_at rc (m_mapRegions n)))).
Proof.
  unfold buildChildren. simpl. rewrite quad_at_zip.
  by destruct (quad_at rc (m_mapRegions n)).
Qed.

Lemma getAllChildValues_setCompare compare n :
  getAllChildValues (setCompare compare n) = getAllChildValues n.
Proof. by rewrite !getAllChildValues_eq. Qed.

Lemma subdivided_compare n : m_compare (subdivided n) = m_compare n.
Proof. unfold subdivided. by rewrite addAll_compare. Qed.

Lemma subdivided_child n rc :
  ∃ child,
    quad_at rc (m_mapRegions (subdivided n)) = Some child ∧
    m_compare child = quad_at rc (candidateQuads n) ∧
    getAllChildValues child =
      filter (λ v, satisfies (quad_at rc (candidateQuads n)) v = true) (survivors n)
      ∪ from_option getAllChildValues ∅ (quad_at rc (m_mapRegions n)).
Proof.
  unfold subdivided.
  destruct (addAll_child (survivors n)
              (buildChildren (candidateQuads n) (set_data ∅ n)) rc _
              (buildChildren_regions _ _ rc)) as (child & E & Hc & _ & Hv).
  exists child. split; [done|]. split; [done|].
  rewrite Hv, getAllChildValues_setCompare.
  change (m_compare (setCompare ?q _)) with q.
  change (m_mapRegions (set_data ∅ n)) with (m_mapRegions n).
  destruct (quad_at rc (m_mapRegions n)); cbn [from_option default]; [done|].
  rewrite (getAllChildValues_eq newNode). cbn. set_solver.
Qed.

Lemma subdivided_isBranch n : isBranch (subdivided n) = true.
Proof.
  apply isBranch_true. intros rc. destruct (subdivided_child n rc) as (child & -> & _).
  done.
Qed.

Lemma accepted_buildChildren quads n v :
  existsb (accepts v) (quad_list (m_mapRegions (buildChildren quads n)))
  = existsb (λ quad, satisfies quad v) (quad_list quads).
Proof.
  unfold buildChildren. destruct quads, (m_mapRegions n) as [[?|] [?|] [?|] [?|]]; done.
Qed.

Lemma subdivided_data n :
  m_data (subdivided n) = orphans (survivors n) (candidateQuads n).
Proof.
  unfold subdivided, orphans. rewrite addAll_data.
  apply set_eq. intros v.
  rewrite elem_of_union, !elem_of_filter, accepted_buildChildren.
  change (m_data (buildChildren _ (set_data ∅ n))) with (∅ : SetValue).
  set_solver.
Qed.

(** ** What a pass keeps *)

Lemma getAllChildValues_settledLeaf n : getAllChildValues (settledLeaf n) = survivors n.
Proof. rewrite getAllChildValues_eq. cbn. set_solver. Qed.

Lemma elem_of_survivors n v :
  v ∈ survivors n ↔ satisfies (m_compare n) v = true ∧ v ∈ getAllChildValues n.
Proof. unfold survivors. by rewrite elem_of_filter. Qed.

Lemma rebalance_Done_cases fuel n n' :
  rebalance (S fuel) n = Done n' →
  (n' = settledLeaf n ∧
   (size (survivors n) ≤ g_minDataSize ∨
    shouldSubdivide (survivors n) (candidateQuads n) = false))
  ∨ (g_minDataSize < size (survivors n) ∧
     shouldSubdivide (survivors n) (candidateQuads n) = true ∧
     rebalanceChildren (rebalance fuel) (subdivided n) = Done n').
Proof.
  intros Hr. pose proof (rebalance_Done_shape _ _ _ Hr) as Hshape.
  rewrite (rebalance_S _ _ Hshape) in Hr.
  destruct (decide (size (survivors n) ≤ g_minDataSize)) as [Hsz|Hsz].
  { left. injection Hr as <-. auto. }
  destruct (shouldSubdivide (survivors n) (candidateQuads n)) eqn:Hsub.
  - right. split; [lia|]. done.
  - left. injection Hr as <-. auto.
Qed.

(** The subdivided outcome, slot by slot. *)
Lemma rebalance_subdivided_inv (f : Node → outcome Node) n n' :
  rebalanceChildren f (subdivided n) = Done n' →
  m_compare n' = m_compare n
  ∧ m_data n' = orphans (survivors n) (candidateQuads n)
  ∧ ∀ rc, ∃ child child',
      quad_at rc (m_mapRegions (subdivided n)) = Some child
      ∧ quad_at rc (m_mapRegions n') = Some child'
      ∧ f child = Done child'
      ∧ m_compare child = quad_at rc (candidateQuads n)
      ∧ getAllChildValues child =
          filter (λ v, satisfies (quad_at rc (candidateQuads n)) v = true) (survivors n)
          ∪ from_option getAllChildValues ∅ (quad_at rc (m_mapRegions n)).
Proof.
  intros Hr. apply rebalanceChildren_Done in Hr as (Hc & Hd & Hr).
  split; [by rewrite Hc, subdivided_compare|].
  split; [by rewrite Hd, subdivided_data|].
  intros rc. specialize (Hr rc).
  destruct (subdivided_child n rc) as (child & E & Hcc & Hv). rewrite E in Hr.
  destruct Hr as (child' & Hreb & E'). eauto 8.
Qed.

Lemma rebalance_compare fuel n n' :
  rebalance fuel n = Done n' → m_compare n' = m_compare n.
Proof.
  destruct fuel as [|fuel]; [done|]. intros Hr.
  apply rebalance_Done_cases in Hr as [[-> _]|(_ & _ & Hr)]; [done|].
  by apply rebalance_subdivided_inv in Hr as (? & _).
Qed.

(** Once a pass returns, more fuel returns the same node. *)
Lemma rebalance_more_fuel fuel n n' :
  rebalance fuel n = Done n' → rebalance (S fuel) n = Done n'.
Proof.
  revert n n'. induction fuel as [|fuel IH]; intros n n' Hr; [done|].
  pose proof (rebalance_Done_shape _ _ _ Hr) as Hshape.
  rewrite (rebalance_S _ _ Hshape) in Hr. rewrite (rebalance_S _ _ Hshape).
  destruct (decide _); [done|]. destruct (shouldSubdivide _ _); [|done].
  apply rebalanceChildren_Done in Hr as (Hc & Hd & Hkids).
  apply rebalanceChildren_Done. split; [done|]. split; [done|].
  intros rc. specialize (Hkids rc).
  destruct (quad_at rc (m_mapRegions (subdivided n))) as [child|]; [|done].
  destruct Hkids as (child' & Hreb & E). eauto.
Qed.

Lemma child_values_subseteq n rc :
  from_option getAllChildValues ∅ (quad_at rc (m_mapRegions n)) ⊆ getAllChildValues n.
Proof.
  intros v Hv. destruct (quad_at rc (m_mapRegions n)) as [child|] eqn:E; [|set_solver].
  apply elem_of_getAllChildValues. eauto.
Qed.

(** A pass invents no value. *)
Lemma rebalance_values_subseteq fuel n n' :
  rebalance fuel n = Done n' → getAllChildValues n' ⊆ getAllChildValues n.
Proof.
  revert n n'. induction fuel as [|fuel IH]; intros n n' Hr; [done|].
  apply rebalance_Done_cases in Hr as [[-> _]|(_ & _ & Hr)].
  { rewrite getAllChildValues_settledLeaf. intros v Hv.
    by apply elem_of_survivors in Hv as [_ ?]. }
  apply rebalance_subdivided_inv in Hr as (Hc & Hd & Hr).
  intros v Hv. apply elem_of_getAllChildValues in Hv as [Hv|(rc & c' & E & Hv)].
  - rewrite Hd in Hv. unfold orphans in Hv. apply elem_of_filter in Hv as [_ Hv].
    by apply elem_of_survivors in Hv as [_ ?].
  - destruct (Hr rc) as (child & child' & _ & E' & Hreb & _ & Hvals).
    rewrite E in E'. injection E' as <-.
    apply (IH _ _ Hreb) in Hv. rewrite Hvals in Hv.
    apply elem_of_union in Hv as [Hv|Hv].
    + apply elem_of_filter in Hv as [_ Hv]. by apply elem_of_survivors in Hv as [_ ?].
    + by apply (child_values_subseteq n rc).
Qed.

Lemma existsb_quad_true (quads : Quad NodeCompare) v :
  existsb (λ quad, satisfies quad v) (quad_list quads) = true ↔
  ∃ rc, satisfies (quad_at rc quads) v = true.
Proof.
  rewrite existsb_exists. split.
  - intros (quad & Hin & Hs). apply list_elem_of_In, elem_of_quad_list in Hin as [rc <-].
    eauto.
  - intros (rc & Hs). exists (quad_at rc quads). split; [|done].
    apply list_elem_of_In, elem_of_quad_list. eauto.
Qed.

(** A pass keeps every value that satisfies the node's search space. *)
Lemma rebalance_values_supseteq fuel n n' :
  rebalance fuel n = Done n' → survivors n ⊆ getAllChildValues n'.
Proof.
  revert n n'. induction fuel as [|fuel IH]; intros n n' Hr; [done|].
  apply rebalance_Done_cases in Hr as [[-> _]|(_ & _ & Hr)].
  { by rewrite getAllChildValues_settledLeaf. }
  apply rebalance_subdivided_inv in Hr as (Hc & Hd & Hr).
  intros v Hv. apply elem_of_getAllChildValues.
  destruct (existsb (λ quad, satisfies quad v) (quad_list (candidateQuads n))) eqn:Hacc.
  - right. apply existsb_quad_true in Hacc as [rc Hs].
    destruct (Hr rc) as (child & child' & _ & E' & Hreb & Hcc & Hvals).
    exists rc, child'. split; [done|]. apply (IH _ _ Hreb).
    apply elem_of_survivors. rewrite Hcc, Hvals. split; [done|].
    apply elem_of_union. left. by apply elem_of_filter.
  - left. rewrite Hd. unfold orphans. by apply elem_of_filter.
Qed.

Lemma rebalance_survivors fuel n n' :
  rebalance fuel n = Done n' → survivors n' = survivors n.
Proof.
  intros Hr. apply set_eq. intros v. rewrite !elem_of_survivors.
  rewrite (rebalance_compare _ _ _ Hr). split.
  - intros [Hs Hv]. split; [done|]. by apply (rebalance_values_subseteq _ _ _ Hr).
  - intros [Hs Hv]. split; [done|]. apply (rebalance_values_supseteq _ _ _ Hr).
    by apply elem_of_survivors.
Qed.

(** With quadrants inside their parent, a pass keeps nothing else. *)
Lemma rebalance_values_exact fuel n n' :
  quadrantsWithinParent →
  rebalance fuel n = Done n' → getAllChildValues n' = survivors n.
Proof.
  intros Hwithin. revert n n'. induction fuel as [|fuel IH]; intros n n' Hr; [done|].
  apply set_eq. intros v. split; [|apply (rebalance_values_supseteq _ _ _ Hr)].
  apply rebalance_Done_cases in Hr as [[-> _]|(_ & _ & Hr)].
  { by rewrite getAllChildValues_settledLeaf. }
  apply rebalance_subdivided_inv in Hr as (Hc & Hd & Hr).
  intros Hv. apply elem_of_getAllChildValues in Hv as [Hv|(rc & c' & E & Hv)].
  - rewrite Hd in Hv. unfold orphans in Hv. by apply elem_of_filter in Hv as [_ Hv].
  - destruct (Hr rc) as (child & child' & _ & E' & Hreb & Hcc & Hvals).
    rewrite E in E'. injection E' as <-.
    rewrite (IH _ _ Hreb) in Hv. apply elem_of_survivors in Hv as [Hs Hv].
    rewrite Hvals in Hv. apply elem_of_union in Hv as [Hv|Hv].
    + by apply elem_of_filter in Hv as [_ Hv].
    + apply elem_of_survivors. split; [|by apply (child_values_subseteq n rc)].
      rewrite Hcc in Hs. by apply Hwithin in Hs.
Qed.

Lemma getAllChildValues_buildRootRegion n :
  getAllChildValues (buildRootRegion n) = getAllChildValues n.
Proof. apply getAllChildValues_setCompare. Qed.

Lemma survivors_buildRootRegion n :
  survivors (buildRootRegion n) =
  filter (λ v, satisfies (buildRegionFromData (getAllChildValues n)) v = true)
         (getAllChildValues n).
Proof. unfold survivors. by rewrite getAllChildValues_buildRootRegion. Qed.

Lemma tree_rebalance_Done fuel t t' :
  tree_rebalance fuel t = Done t' ↔
  rebalance fuel (buildRootRegion (m_tree t)) = Done (m_tree t').
Proof.
  unfold tree_rebalance. destruct (rebalance _ _) as [n'| |]; simpl; [|done..].
  destruct t'. simpl. split; congruence.
Qed.


(** ** LEAF or BRANCH, everywhere and always *)

Lemma newNode_leafOrBranch : leafOrBranchEverywhere newNode = true.
Proof. done. Qed.

Lemma isLeaf_regions n n' :
  (∀ rc, is_Some (quad_at rc (m_mapRegions n')) ↔ is_Some (quad_at rc (m_mapRegions n))) →
  (isLeaf n = true ∨ isBranch n = true) → isLeaf n' = true ∨ isBranch n' = true.
Proof.
  intros Hsame. rewrite !isLeaf_true, !isBranch_true. intros [Hl|Hb].
  - left. intros rc. specialize (Hl rc). specialize (Hsame rc). rewrite Hl in Hsame.
    destruct (quad_at rc (m_mapRegions n')); [|done].
    by destruct (proj1 Hsame (mk_is_Some _ _ eq_refl)).
  - right. intros rc. by apply Hsame.
Qed.

Lemma add_leafOrBranch val n :
  leafOrBranchEverywhere n = true → leafOrBranchEverywhere (add val n) = true.
Proof.
  induction n as [n IH] using Node_ind.
  rewrite !leafOrBranchEverywhere_true. intros [Hn Hkids]. split.
  - revert Hn. apply isLeaf_regions. intros rc. rewrite add_regions.
    by destruct (quad_at rc (m_mapRegions n)).
  - intros rc child E. rewrite add_regions in E.
    destruct (quad_at rc (m_mapRegions n)) as [c|] eqn:E'; [|done].
    injection E as <-. destruct (satisfies (m_compare c) val); eauto.
Qed.

Lemma remove_leafOrBranch val n :
  leafOrBranchEverywhere n = true → leafOrBranchEverywhere (remove val n) = true.
Proof.
  induction n as [n IH] using Node_ind.
  rewrite !leafOrBranchEverywhere_true. intros [Hn Hkids]. split.
  - revert Hn. apply isLeaf_regions. intros rc. rewrite remove_regions.
    by destruct (quad_at rc (m_mapRegions n)).
  - intros rc child E. rewrite remove_regions in E.
    destruct (quad_at rc (m_mapRegions n)) as [c|] eqn:E'; [|done].
    injection E as <-. eauto.
Qed.

Lemma clear_leafOrBranch n : leafOrBranchEverywhere (clear n) = true.
Proof. by rewrite clear_eq. Qed.

Lemma setCompare_leafOrBranch compare n :
  leafOrBranchEverywhere (setCompare compare n) = leafOrBranchEverywhere n.
Proof. by rewrite !leafOrBranchEverywhere_eq. Qed.

Lemma addList_leafOrBranch (l : list Value) n :
  leafOrBranchEverywhere n = true →
  leafOrBranchEverywhere (foldl (λ acc thisVal, add thisVal acc) n l) = true.
Proof.
  revert n. induction l as [|v l IH]; intros n Hn; [done|].
  simpl. by apply IH, add_leafOrBranch.
Qed.

Lemma settledLeaf_leafOrBranch n : leafOrBranchEverywhere (settledLeaf n) = true.
Proof. done. Qed.

Lemma subdivided_leafOrBranch n :
  leafOrBranchEverywhere n = true → leafOrBranchEverywhere (subdivided n) = true.
Proof.
  intros Hn. apply addList_leafOrBranch, leafOrBranchEverywhere_true. split.
  - right. apply isBranch_true. intros rc. by rewrite buildChildren_regions.
  - intros rc child E. rewrite buildChildren_regions in E. injection E as <-.
    rewrite setCompare_leafOrBranch.
    change (m_mapRegions (set_data ∅ n)) with (m_mapRegions n).
    destruct (quad_at rc (m_mapRegions n)) as [c|] eqn:E; [|done].
    apply leafOrBranchEverywhere_true in Hn as [_ Hkids]. eauto.
Qed.

Lemma rebalanceChildren_leafOrBranch (f : Node → outcome Node) n :
  isBranch n = true →
  (∀ rc child, quad_at rc (m_mapRegions n) = Some child →
               outcome_ok (λ child', leafOrBranchEverywhere child' = true) (f child)) →
  outcome_ok (λ n', leafOrBranchEverywhere n' = true) (rebalanceChildren f n).
Proof.
  intros Hb Hkids. unfold rebalanceChildren.
  eapply outcome_ok_bind.
  - apply (quad_mapM_ok _ (λ _ region',
             ∃ child', region' = Some child' ∧ leafOrBranchEverywhere child' = true)).
    intros rc. destruct (proj1 (isBranch_true n) Hb rc) as [child E]. rewrite E.
    specialize (Hkids rc child E). destruct (f child); simpl in *; eauto.
  - intros regions Hregions.
    change (leafOrBranchEverywhere (set_regions regions n) = true).
    apply leafOrBranchEverywhere_true. split.
    + right. apply isBranch_true. intros rc. simpl.
      by destruct (Hregions rc) as (child' & -> & _).
    + simpl. intros rc child E. destruct (Hregions rc) as (child' & E' & Hc).
      congruence.
Qed.

Lemma rebalance_leafOrBranch fuel n :
  leafOrBranchEverywhere n = true →
  outcome_ok (λ n', leafOrBranchEverywhere n' = true) (rebalance fuel n).
Proof.
  revert n. induction fuel as [|fuel IH]; intros n Hn; [done|].
  pose proof Hn as Hn'. apply leafOrBranchEverywhere_true in Hn' as [Hshape _].
  rewrite (rebalance_S _ _ (or_intror Hshape)).
  destruct (decide _); [done|]. destruct (shouldSubdivide _ _); [|done].
  apply rebalanceChildren_leafOrBranch; [apply subdivided_isBranch|].
  intros rc child E. apply IH.
  pose proof (subdivided_leafOrBranch n Hn) as Hsub.
  apply leafOrBranchEverywhere_true in Hsub as [_ Hkids]. eauto.
Qed.

Lemma perform_leafOrBranch fuel op t :
  leafOrBranchEverywhere (m_tree t) = true →
  outcome_ok (λ t', leafOrBranchEverywhere (m_tree t') = true) (perform fuel op t).
Proof.
  intros Ht. destruct op; simpl.
  - by apply add_leafOrBranch.
  - by apply remove_leafOrBranch.
  - apply clear_leafOrBranch.
  - unfold tree_rebalance.
    pose proof (rebalance_leafOrBranch fuel (buildRootRegion (m_tree t))) as Hr.
    unfold buildRootRegion in Hr at 1. rewrite setCompare_leafOrBranch in Hr.
    specialize (Hr Ht). by destruct (rebalance _ _).
  - by rewrite copyNode_id.
Qed.

(** C7.  Starting from a freshly constructed tree, no program of public
    operations makes [rebalance] dereference a null child, and whenever the
    program returns, every node of the resulting graph has either no child
    or all four. *)
Theorem nodes_have_zero_or_four_children fuel ops :
  outcome_ok (λ t, ∀ m, m ∈ nodes (m_tree t) → isLeaf m = true ∨ isBranch m = true)
             (performAll fuel ops newTree).
Proof.
  apply (outcome_ok_impl (λ t, leafOrBranchEverywhere (m_tree t) = true)).
  { intros t. by rewrite leafOrBranchEverywhere_nodes. }
  assert (leafOrBranchEverywhere (m_tree newTree) = true) as Hnew by done.
  revert Hnew. generalize newTree. induction ops as [|op ops IH]; intros t Ht; [done|].
  simpl. eapply outcome_ok_bind; [by apply perform_leafOrBranch|]. apply IH.
Qed.

(** ** A second pass *)

Lemma setCompare_same n : setCompare (m_compare n) n = n.
Proof. by destruct n. Qed.

Lemma accepted_by_compares regions (quads : Quad NodeCompare) v :
  (∀ rc, m_compare <$> quad_at rc regions = Some (quad_at rc quads)) →
  existsb (accepts v) (quad_list regions)
  = existsb (λ quad, satisfies quad v) (quad_list quads).
Proof.
  intros Hq. destruct regions as [a b c d], quads as [qa qb qc qd].
  pose proof (Hq UPPER_LEFT) as H1. pose proof (Hq UPPER_RIGHT) as H2.
  pose proof (Hq LOWER_LEFT) as H3. pose proof (Hq LOWER_RIGHT) as H4.
  destruct a, b, c, d; simpl in *; try done.
  injection H1 as <-. injection H2 as <-. injection H3 as <-. injection H4 as <-.
  done.
Qed.

(** When the quadrants do not depend on the former contents of the slots,
    the result of a pass is a fixed point of the pass, and re-inserting any
    of its values changes nothing. *)
Lemma rebalance_fixed fuel n n' :
  quadrantsIgnoreSlots →
  rebalance fuel n = Done n' →
  rebalance fuel n' = Done n' ∧ ∀ v, v ∈ survivors n' → add v n' = n'.
Proof.
  intros Hig. revert n n'. induction fuel as [|fuel IH]; intros n n' Hr; [done|].
  pose proof (rebalance_survivors _ _ _ Hr) as HV.
  pose proof (rebalance_compare _ _ _ Hr) as HC.
  assert (candidateQuads n' = candidateQuads n) as HQ.
  { unfold candidateQuads. rewrite HV, HC. apply Hig. }
  destruct (rebalance_Done_cases _ _ _ Hr) as [[-> Hcond]|(Hsz & Hsub & Hch)].
  - assert (settledLeaf (settledLeaf n) = settledLeaf n) as Hll.
    { unfold settledLeaf at 1. by rewrite HV. }
    split.
    + rewrite rebalance_S by (right; left; done). rewrite HV, HQ, Hll.
      destruct (decide _); [done|]. destruct Hcond as [?| ->]; done.
    + intros v Hv. rewrite HV in Hv. rewrite add_eq.
      change (hasChildren (settledLeaf n)) with false. cbv iota.
      unfold settledLeaf. simpl. f_equal. set_solver.
  - apply rebalance_subdivided_inv in Hch as (Hc & Hd & Hkids).
    assert (∀ rc, ∃ child',
              quad_at rc (m_mapRegions n') = Some child'
              ∧ m_compare child' = quad_at rc (candidateQuads n)
              ∧ rebalance fuel child' = Done child'
              ∧ ∀ v, v ∈ survivors n →
                     satisfies (quad_at rc (candidateQuads n)) v = true →
                     add v child' = child') as Hkid.
    { intros rc. destruct (Hkids rc) as (child & child' & _ & E' & Hreb & Hcc & Hvals).
      exists child'. destruct (IH _ _ Hreb) as [Hfix Hadd].
      split; [done|]. split; [by rewrite (rebalance_compare _ _ _ Hreb)|].
      split; [done|]. intros v Hv Hs. apply Hadd.
      rewrite (rebalance_survivors _ _ _ Hreb). apply elem_of_survivors.
      rewrite Hcc, Hvals. split; [done|]. apply elem_of_union. left.
      by apply elem_of_filter. }
    assert (isBranch n' = true) as Hb.
    { apply isBranch_true. intros rc. by destruct (Hkid rc) as (child' & -> & _). }
    assert (∀ v, existsb (accepts v) (quad_list (m_mapRegions n'))
                 = existsb (λ quad, satisfies quad v) (quad_list (candidateQuads n)))
      as Hacc.
    { intros v. apply accepted_by_compares. intros rc.
      destruct (Hkid rc) as (child' & -> & <- & _). done. }
    assert (∀ v, v ∈ survivors n → add v n' = n') as Hadd.
    { intros v Hv. apply Node_eq.
      - apply add_compare.
      - intros rc. rewrite add_regions.
        destruct (Hkid rc) as (child' & E & Hcc & _ & Hfix). rewrite E. f_equal.
        destruct (satisfies (m_compare child') v) eqn:Hs; [|done].
        apply Hfix; [done|]. by rewrite <-Hcc.
      - rewrite add_data, Hacc. destruct (existsb _ _) eqn:Hex; [done|].
        rewrite Hd. unfold orphans. apply set_eq. intros w.
        rewrite elem_of_union, elem_of_singleton, elem_of_filter. split; [|tauto].
        intros [->|?]; tauto. }
    split; [|intros v Hv; rewrite HV in Hv; auto].
    rewrite rebalance_S by (right; right; done).
    rewrite HV, HQ, decide_False, Hsub by (unfold g_minDataSize in *; lia).
    assert (subdivided n' = n') as ->.
    { unfold subdivided. rewrite HV, HQ. apply Node_eq.
      - by rewrite addAll_compare.
      - intros rc. unfold addAll. rewrite addList_regions, buildChildren_regions.
        change (m_mapRegions (set_data ∅ n')) with (m_mapRegions n').
        destruct (Hkid rc) as (child' & E & Hcc & _ & Hfix). rewrite E.
        cbn [default fmap option_fmap option_map]. f_equal.
        rewrite <-Hcc, setCompare_same.
        apply addList_fixed. intros v Hv.
        apply list_elem_of_filter in Hv as [Hs Hv]. apply elem_of_elements in Hv.
        apply Hfix; [done|]. by rewrite <-Hcc.
      - rewrite addAll_data, Hd. unfold orphans. apply set_eq. intros v.
        rewrite elem_of_union, !elem_of_filter, accepted_buildChildren.
        change (m_data (buildChildren _ (set_data ∅ n'))) with (∅ : SetValue).
        set_solver. }
    apply rebalanceChildren_Done. split; [done|]. split; [done|].
    intros rc. destruct (Hkid rc) as (child' & E & _ & Hfix & _). rewrite E.
    eauto.
Qed.

(** C6, as the code has it.  Let the quadrants written by the predicate not
    depend on the former contents of the slots, and let every value of the
    tree satisfy the root search space built from the values.  Then after a
    facade [rebalance] that returns, a second one returns the very same
    tree, so every query has the same result after both. *)
Theorem rebalance_twice_same_queries fuel t t1 :
  quadrantsIgnoreSlots →
  (∀ v, v ∈ getAllChildValues (m_tree t) →
        satisfies (buildRegionFromData (getAllChildValues (m_tree t))) v = true) →
  tree_rebalance fuel t = Done t1 →
  tree_rebalance fuel t1 = Done t1
  ∧ ∀ t2 r, tree_rebalance fuel t1 = Done t2 →
            tree_getNearbyValues t2 r = tree_getNearbyValues t1 r.
Proof.
  intros Hig Hsat Hr.
  assert (tree_rebalance fuel t1 = Done t1) as Hfix.
  { apply tree_rebalance_Done in Hr. apply tree_rebalance_Done.
    assert (getAllChildValues (m_tree t1) = getAllChildValues (m_tree t)) as Hvals.
    { apply set_eq. intros v. split.
      - intros Hv. apply (rebalance_values_subseteq _ _ _ Hr) in Hv.
        by rewrite getAllChildValues_buildRootRegion in Hv.
      - intros Hv. apply (rebalance_values_supseteq _ _ _ Hr).
        rewrite survivors_buildRootRegion. apply elem_of_filter. auto. }
    assert (buildRootRegion (m_tree t1) = m_tree t1) as ->.
    { unfold buildRootRegion. rewrite Hvals.
      rewrite <-(setCompare_same (m_tree t1)) at 2.
      by rewrite (rebalance_compare _ _ _ Hr). }
    by apply (rebalance_fixed fuel _ _ Hig Hr). }
  split; [done|]. intros t2 r Ht2. congruence.
Qed.

(** ** Reuse after [clear] *)

Lemma addList_leaf (l : list Value) compare (d : SetValue) :
  foldl (λ acc thisVal, add thisVal acc) (mkNode compare (quad_pure None) d) l
  = mkNode compare (quad_pure None) (list_to_set l ∪ d).
Proof.
  revert d. induction l as [|v l IH]; intros d.
  - simpl. f_equal. set_solver.
  - cbn [foldl]. rewrite add_eq.
    change (hasChildren (mkNode compare (quad_pure None) d)) with false.
    cbv iota. cbn [m_compare m_mapRegions m_data]. rewrite IH. f_equal. set_solver.
Qed.

Lemma addValues_tree (l : list Value) t :
  m_tree (addValues l t) = foldl (λ acc thisVal, add thisVal acc) (m_tree t) l.
Proof.
  revert t. induction l as [|v l IH]; intros t; [done|]. simpl. by rewrite IH.
Qed.

Lemma addValues_leaf (l : list Value) t :
  m_mapRegions (m_tree t) = quad_pure None →
  m_tree (addValues l t) =
  mkNode (m_compare (m_tree t)) (quad_pure None) (list_to_set l ∪ m_data (m_tree t)).
Proof.
  intros Hl. rewrite addValues_tree. destruct t as [[c regions d]]. simpl in *.
  subst regions. apply addList_leaf.
Qed.

Lemma getNearbyValues_leaf compare (d : SetValue) r :
  getNearbyValues (mkNode compare (quad_pure None) d) r
  = if overlaps compare r then d else ∅.
Proof. cbn. destruct (overlaps compare r); set_solver. Qed.

Lemma clear_then_add (l : list Value) t r fuel :
  m_compare (m_tree (tree_clear t)) = m_compare (m_tree t)
  ∧ tree_getNearbyValues (addValues l (tree_clear t)) r
    = (if overlaps (m_compare (m_tree t)) r then list_to_set l else ∅)
  ∧ tree_getNearbyValues (addValues l newTree) r
    = (if overlaps nilCompare r then list_to_set l else ∅)
  ∧ tree_rebalance fuel (addValues l (tree_clear t))
    = tree_rebalance fuel (addValues l newTree).
Proof.
  assert (m_tree (addValues l (tree_clear t))
          = mkNode (m_compare (m_tree t)) (quad_pure None) (list_to_set l)) as Hc.
  { rewrite addValues_leaf; simpl; rewrite clear_eq; [|done]. simpl. f_equal. set_solver. }
  assert (m_tree (addValues l newTree)
          = mkNode nilCompare (quad_pure None) (list_to_set l)) as Hn.
  { rewrite addValues_leaf; [|done]. simpl. f_equal. set_solver. }
  split; [by simpl; rewrite clear_eq|].
  unfold tree_getNearbyValues, tree_rebalance. rewrite Hc, Hn.
  rewrite !getNearbyValues_leaf. done.
Qed.

(** * More on the operations *)

(** ** Everything a tree holds *)

(** [getAllChildValues] gathers the local values of every node of the
    graph.  A query returns some of them: all of them when every node's
    search space overlaps the test region, none when none does. *)
Theorem getAllChildValues_gathers_every_node n r :
  getAllChildValues n = ⋃ (m_data <$> nodes n)
  ∧ getNearbyValues n r ⊆ getAllChildValues n
  ∧ ((∀ m, m ∈ nodes n → overlaps (m_compare m) r = true) →
     getNearbyValues n r = getAllChildValues n)
  ∧ ((∀ m, m ∈ nodes n → overlaps (m_compare m) r = false) →
     getNearbyValues n r = ∅).
Proof.
  split; [|split; [apply getNearbyValues_subseteq|split]].
  - apply set_eq. intros v.
    rewrite elem_of_getAllChildValues_nodes, elem_of_union_list. split.
    + intros (m & Hm & Hv). exists (m_data m). split; [|done].
      apply list_elem_of_fmap. eauto.
    + intros (X & HX & Hv). apply list_elem_of_fmap in HX as (m & -> & Hm). eauto.
  - intros Hall. apply set_eq. intros v.
    rewrite elem_of_getNearbyValues_nodes, elem_of_getAllChildValues_nodes.
    split; [intros (m & ? & _ & ?); eauto|intros (m & ? & ?); eauto].
  - intros Hnone. apply set_eq. intros v.
    rewrite elem_of_getNearbyValues_nodes, elem_of_empty. split; [|done].
    intros (m & Hm & Ho & _). rewrite (Hnone m Hm) in Ho. done.
Qed.

(** ** Insertion as a set operation *)

Lemma add_idemp v n : add v (add v n) = add v n.
Proof.
  induction n as [n IH] using Node_ind. apply Node_eq.
  - by rewrite !add_compare.
  - intros rc. rewrite !add_regions.
    destruct (quad_at rc (m_mapRegions n)) as [child|] eqn:E; [|done]. f_equal.
    destruct (satisfies (m_compare child) v) eqn:Hs.
    + by rewrite add_compare, Hs, (IH rc child E).
    + by rewrite Hs.
  - rewrite (add_data v (add v n)), wasAdded_add, add_data.
    destruct (existsb _ _); [done|]. set_solver.
Qed.

Lemma addList_push (l : list Value) v n : add v (addList l n) = addList l (add v n).
Proof.
  revert n. induction l as [|w l IH]; intros n; [done|].
  cbn [foldl]. by rewrite IH, add_comm.
Qed.

Lemma addList_absorb (l : list Value) v n : v ∈ l → add v (addList l n) = addList l n.
Proof.
  revert n. induction l as [|w l IH]; intros n Hv; [by apply elem_of_nil in Hv|].
  cbn [foldl]. destruct (decide (v = w)) as [->|Hne].
  - by rewrite addList_push, add_idemp.
  - apply IH. set_solver.
Qed.

Lemma addList_remove_dups (l : list Value) n : addList (remove_dups l) n = addList l n.
Proof.
  revert n. induction l as [|w l IH]; intros n; [done|].
  cbn [remove_dups]. destruct (decide_rel elem_of w l) as [Hin|Hnin].
  - rewrite IH. cbn [foldl]. by rewrite <-addList_push, addList_absorb.
  - cbn [foldl]. apply IH.
Qed.

Lemma addList_addAll (l : list Value) n : addList l n = addAll (list_to_set l) n.
Proof.
  rewrite <-addList_remove_dups. unfold addAll. apply addList_permutation.
  apply NoDup_Permutation; [apply NoDup_remove_dups|apply NoDup_elements|].
  intros v. by rewrite elem_of_remove_dups, elem_of_elements, elem_of_list_to_set.
Qed.

(** Inserting is inserting into a set: the order of the insertions and
    their repetition do not show in the tree, which after any run of [add]
    calls is the tree the re-insertion loop of [rebalance] builds from the
    set of the values. *)
Theorem add_as_set_insertion :
  (∀ v w n, add v (add w n) = add w (add v n))
  ∧ (∀ v n, add v (add v n) = add v n)
  ∧ (∀ (l : list Value) t,
       m_tree (addValues l t) = addAll (list_to_set l) (m_tree t))
  ∧ (∀ (l l' : list Value) t,
       (list_to_set l : SetValue) = list_to_set l' → addValues l t = addValues l' t).
Proof.
  split; [apply add_comm|]. split; [apply add_idemp|].
  assert (∀ (l : list Value) t, m_tree (addValues l t) = addAll (list_to_set l) (m_tree t))
    as Hset.
  { intros l t. by rewrite addValues_tree, addList_addAll. }
  split; [done|]. intros l l' t Heq.
  pose proof (Hset l t) as H1. pose proof (Hset l' t) as H2.
  rewrite <-Heq, <-H1 in H2.
  destruct (addValues l t), (addValues l' t). simpl in *. congruence.
Qed.

(** ** Removal against insertion *)

Lemma remove_hasChildren val n : hasChildren (remove val n) = hasChildren n.
Proof.
  destruct (hasChildren n) eqn:Hc.
  - apply hasChildren_true in Hc as (rc & child & E). apply hasChildren_true.
    exists rc. rewrite remove_regions, E. eauto.
  - apply hasChildren_false. intros rc. rewrite remove_regions.
    by rewrite (proj1 (hasChildren_false n) Hc rc).
Qed.

Lemma wasAdded_remove v w n :
  existsb (accepts v) (quad_list (m_mapRegions (remove w n)))
  = existsb (accepts v) (quad_list (m_mapRegions n)).
Proof.
  apply eq_true_iff_eq. rewrite !wasAdded_true. split.
  - intros (rc & child & E & Hs). rewrite remove_regions in E.
    destruct (quad_at rc (m_mapRegions n)) as [c|] eqn:E'; [|done].
    injection E as <-. rewrite remove_compare in Hs. eauto.
  - intros (rc & child & E & Hs). exists rc, (remove w child).
    rewrite remove_regions, E, remove_compare. done.
Qed.

Lemma remove_add v n : remove v (add v n) = remove v n.
Proof.
  induction n as [n IH] using Node_ind. apply Node_eq.
  - by rewrite !remove_compare, add_compare.
  - intros rc. rewrite !remove_regions, add_regions.
    destruct (quad_at rc (m_mapRegions n)) as [child|] eqn:E; [|done].
    cbn. f_equal. destruct (satisfies (m_compare child) v); [|done].
    by apply (IH rc child E).
  - rewrite !remove_data, add_data. destruct (existsb _ _); [done|]. set_solver.
Qed.

Lemma remove_comm v w n : remove v (remove w n) = remove w (remove v n).
Proof.
  induction n as [n IH] using Node_ind. apply Node_eq.
  - by rewrite !remove_compare.
  - intros rc. rewrite !remove_regions.
    destruct (quad_at rc (m_mapRegions n)) as [child|] eqn:E; [|done].
    cbn. f_equal. by apply (IH rc child E).
  - rewrite !remove_data. set_solver.
Qed.

Lemma add_remove_ne v w n : v ≠ w → add v (remove w n) = remove w (add v n).
Proof.
  intros Hne. induction n as [n IH] using Node_ind. apply Node_eq.
  - by rewrite add_compare, !remove_compare, add_compare.
  - intros rc. rewrite add_regions, !remove_regions, add_regions.
    destruct (quad_at rc (m_mapRegions n)) as [child|] eqn:E; [|done].
    cbn. f_equal. rewrite remove_compare.
    destruct (satisfies (m_compare child) v); [|done]. by apply (IH rc child E).
  - rewrite add_data, wasAdded_remove, !remove_data, add_data.
    destruct (existsb _ _); [done|]. set_solver.
Qed.

(** Removing a value undoes its insertion: [remove] after [add] of the same
    value is [remove] alone, and gives back the tree itself when the tree
    did not hold the value.  Removals commute with each other and with the
    insertion of another value, and a second removal changes nothing. *)
Theorem remove_undoes_add v w n :
  remove v (add v n) = remove v n
  ∧ (v ∉ getAllChildValues n → remove v (add v n) = n)
  ∧ remove v (remove v n) = remove v n
  ∧ remove v (remove w n) = remove w (remove v n)
  ∧ (v ≠ w → add v (remove w n) = remove w (add v n)).
Proof.
  split; [apply remove_add|]. split.
  { intros Hv. rewrite remove_add. by apply remove_absent. }
  split.
  { apply remove_absent. rewrite getAllChildValues_remove. set_solver. }
  split; [apply remove_comm|apply add_remove_ne].
Qed.

(** ** Queries across insertion and removal *)

Lemma getNearbyValues_remove v n r :
  getNearbyValues (remove v n) r = getNearbyValues n r ∖ {[v]}.
Proof.
  induction n as [n IH] using Node_ind. apply set_eq. intros w.
  rewrite elem_of_difference, !elem_of_getNearbyValues, remove_compare, remove_data.
  split.
  - intros [[Ho Hw]|(rc & child & E & Hw)].
    + set_solver.
    + rewrite remove_regions in E.
      destruct (quad_at rc (m_mapRegions n)) as [c|] eqn:E'; [|done].
      injection E as <-. rewrite (IH rc c E') in Hw.
      apply elem_of_difference in Hw as [Hw ?]. split; [|done]. eauto 6.
  - intros [[[Ho Hw]|(rc & child & E & Hw)] Hne].
    + left. set_solver.
    + right. exists rc, (remove v child). rewrite remove_regions, E.
      split; [done|]. rewrite (IH rc child E). set_solver.
Qed.

Lemma getNearbyValues_add_lower v n r :
  getNearbyValues n r ⊆ getNearbyValues (add v n) r.
Proof.
  induction n as [n IH] using Node_ind. intros w.
  rewrite !elem_of_getNearbyValues, add_compare, add_data.
  intros [[Ho Hw]|(rc & child & E & Hw)].
  - left. split; [done|]. destruct (existsb _ _); set_solver.
  - right. exists rc. rewrite add_regions, E. eexists. split; [done|].
    destruct (satisfies (m_compare child) v); [|done]. by apply (IH rc child E).
Qed.

Lemma getNearbyValues_add_upper v n r :
  getNearbyValues (add v n) r ⊆ {[v]} ∪ getNearbyValues n r.
Proof.
  induction n as [n IH] using Node_ind. intros w.
  rewrite elem_of_union, !elem_of_getNearbyValues, add_compare, add_data.
  intros [[Ho Hw]|(rc & child & E & Hw)].
  - destruct (existsb _ _); [by right; left|].
    apply elem_of_union in Hw as [Hw|Hw]; [left; set_solver|by right; left].
  - rewrite add_regions in E.
    destruct (quad_at rc (m_mapRegions n)) as [c|] eqn:E'; [|done].
    injection E as <-. destruct (satisfies (m_compare c) v).
    + apply (IH rc c E') in Hw. apply elem_of_union in Hw as [Hw|Hw]; [by left|].
      right. right. eauto.
    + right. right. eauto.
Qed.

(** A removal takes the removed value, and nothing else, out of the result
    of every query.  An insertion takes nothing out of the result of any
    query and brings in at most the inserted value. *)
Theorem queries_across_add_and_remove v n r :
  getNearbyValues (remove v n) r = getNearbyValues n r ∖ {[v]}
  ∧ getNearbyValues n r ⊆ getNearbyValues (add v n) r
  ∧ getNearbyValues (add v n) r ⊆ {[v]} ∪ getNearbyValues n r.
Proof.
  split; [apply getNearbyValues_remove|].
  split; [apply getNearbyValues_add_lower|apply getNearbyValues_add_upper].
Qed.

(** ** Only [rebalance] restructures *)

Lemma skeleton_eq n :
  skeleton n = mkNode (m_compare n)
                 (quad_map (λ region : option Node,
                              match region with
                              | Some child => Some (skeleton child)
                              | None => None
                              end) (m_mapRegions n)) ∅.
Proof. by destruct n. Qed.

Lemma skeleton_ext n n' :
  m_compare n = m_compare n' →
  (∀ rc, skeleton <$> quad_at rc (m_mapRegions n)
         = skeleton <$> quad_at rc (m_mapRegions n')) →
  skeleton n = skeleton n'.
Proof.
  intros Hc Hr. rewrite (skeleton_eq n), (skeleton_eq n'), Hc. f_equal.
  apply quad_ext. intros rc. rewrite !quad_at_map. specialize (Hr rc).
  destruct (quad_at rc (m_mapRegions n)), (quad_at rc (m_mapRegions n')); done.
Qed.

Lemma skeleton_add v n : skeleton (add v n) = skeleton n.
Proof.
  induction n as [n IH] using Node_ind. apply skeleton_ext; [apply add_compare|].
  intros rc. rewrite add_regions.
  destruct (quad_at rc (m_mapRegions n)) as [child|] eqn:E; [|done]. cbn. f_equal.
  destruct (satisfies (m_compare child) v); [|done]. by apply (IH rc child E).
Qed.

Lemma skeleton_remove v n : skeleton (remove v n) = skeleton n.
Proof.
  induction n as [n IH] using Node_ind. apply skeleton_ext; [apply remove_compare|].
  intros rc. rewrite remove_regions.
  destruct (quad_at rc (m_mapRegions n)) as [child|] eqn:E; [|done]. cbn. f_equal.
  by apply (IH rc child E).
Qed.

Lemma skeleton_nodes n : nodes (skeleton n) = skeleton <$> nodes n.
Proof.
  induction n as [n IH] using Node_ind.
  rewrite (nodes_eq n), (nodes_eq (skeleton n)), fmap_cons. f_equal.
  rewrite (skeleton_eq n) at 1. cbn [m_mapRegions].
  destruct n as [c [ul ur ll lr] d]. cbn in *.
  rewrite !fmap_app, !app_nil_r.
  pose proof (IH UPPER_LEFT) as H1. pose proof (IH UPPER_RIGHT) as H2.
  pose proof (IH LOWER_LEFT) as H3. pose proof (IH LOWER_RIGHT) as H4.
  cbn in *.
  destruct ul, ur, ll, lr; cbn;
    rewrite ?(H1 _ eq_refl), ?(H2 _ eq_refl), ?(H3 _ eq_refl), ?(H4 _ eq_refl); done.
Qed.

(** [add] and [remove] create no node, delete none and change no search
    space: the graph stripped of its data is the same before and after, and
    so is the list of the search spaces a query tests. *)
Theorem add_and_remove_keep_the_graph v n :
  skeleton (add v n) = skeleton n
  ∧ skeleton (remove v n) = skeleton n
  ∧ m_compare <$> nodes (add v n) = m_compare <$> nodes n
  ∧ m_compare <$> nodes (remove v n) = m_compare <$> nodes n.
Proof.
  assert (∀ n, m_compare <$> nodes n = m_compare <$> nodes (skeleton n)) as Hsk.
  { intros n0. rewrite skeleton_nodes, <-list_fmap_compose. apply list_fmap_ext.
    intros _ m _. by destruct m. }
  split; [apply skeleton_add|]. split; [apply skeleton_remove|]. split.
  - by rewrite (Hsk (add v n)), skeleton_add, <-Hsk.
  - by rewrite (Hsk (remove v n)), skeleton_remove, <-Hsk.
Qed.

Lemma perform_flat fuel op (t : SearchTree2D) :
  isRebalance op = false →
  m_mapRegions (m_tree t) = quad_pure None →
  ∃ t', perform fuel op t = Done t'
        ∧ m_compare (m_tree t') = m_compare (m_tree t)
        ∧ m_mapRegions (m_tree t') = quad_pure None.
Proof.
  intros Hop Hleaf. destruct op; try done; cbn [perform]; eexists; (split; [done|]).
  - cbn. rewrite add_compare. split; [done|].
    apply quad_ext. intros rc. by rewrite add_regions, Hleaf, !quad_at_pure.
  - cbn. rewrite remove_compare. split; [done|].
    apply quad_ext. intros rc. by rewrite remove_regions, Hleaf, !quad_at_pure.
  - cbn. by rewrite clear_eq.
  - cbn. by rewrite copyNode_id.
Qed.

(** Until the first [rebalance] a tree is one LEAF under [nilCompare]: a
    program of the other public operations always returns, leaves the root
    without children and with the search space of the constructor, and a
    query then returns every value of the tree or none, as [nilCompare]
    overlaps the test region or not. *)
Theorem tree_is_flat_until_rebalanced fuel (ops : list operation) :
  existsb isRebalance ops = false →
  ∃ t : SearchTree2D,
    performAll fuel ops newTree = Done t
    ∧ m_compare (m_tree t) = nilCompare
    ∧ nodes (m_tree t) = [m_tree t]
    ∧ ∀ r, tree_getNearbyValues t r
           = if overlaps nilCompare r then getAllChildValues (m_tree t) else ∅.
Proof.
  intros Hops.
  assert (∃ t : SearchTree2D, performAll fuel ops newTree = Done t
                              ∧ m_compare (m_tree t) = nilCompare
                              ∧ m_mapRegions (m_tree t) = quad_pure None)
    as (t & Hrun & Hc & Hleaf).
  { assert (m_compare (m_tree newTree) = nilCompare) as Hc by done.
    assert (m_mapRegions (m_tree newTree) = quad_pure None) as Hleaf by done.
    revert Hc Hleaf. generalize newTree.
    induction ops as [|op ops IH]; intros t Hc Hleaf; [by exists t|].
    cbn [existsb] in Hops. apply orb_false_iff in Hops as [Hop Hops].
    destruct (perform_flat fuel op t Hop Hleaf) as (t1 & Hstep & Hc1 & Hleaf1).
    destruct (IH Hops t1) as (t' & Hrun & ?); [congruence|done|].
    exists t'. split; [|done]. cbn [performAll]. by rewrite Hstep. }
  exists t. split; [done|]. split; [done|].
  destruct t as [[c regions d]]. cbn in *. subst. split; [done|].
  intros r. unfold tree_getNearbyValues. cbn.
  destruct (overlaps nilCompare r); set_solver.
Qed.

(** ** What a pass establishes *)

Lemma rebalance_settled fuel n n' :
  rebalance fuel n = Done n' → ∀ m, m ∈ nodes n' → settled m.
Proof.
  revert n n'. induction fuel as [|fuel IH]; intros n n' Hr m Hm; [done|].
  pose proof (rebalance_values_supseteq _ _ _ Hr) as Hsup.
  apply rebalance_Done_cases in Hr as [[-> _]|(Hsz & Hsub & Hr)].
  { cbn in Hm. apply list_elem_of_singleton in Hm as ->. split; [|by left].
    intros v Hv. cbn in Hv. by apply elem_of_survivors in Hv as [? _]. }
  apply rebalance_subdivided_inv in Hr as (Hc & Hd & Hkids).
  apply elem_of_nodes in Hm as [->|(rc & child' & E & Hm)].
  2:{ destruct (Hkids rc) as (child & c' & _ & E' & Hreb & _).
      rewrite E in E'. injection E' as <-. by apply (IH _ _ Hreb). }
  assert (∀ v, existsb (accepts v) (quad_list (m_mapRegions n'))
               = existsb (λ quad, satisfies quad v) (quad_list (candidateQuads n)))
    as Hacc.
  { intros v. apply accepted_by_compares. intros rc.
    destruct (Hkids rc) as (child & child' & _ & -> & Hreb & Hcc & _).
    cbn. by rewrite (rebalance_compare _ _ _ Hreb), Hcc. }
  split.
  { intros v Hv. rewrite Hd in Hv. apply elem_of_filter in Hv as [_ Hv].
    rewrite Hc. by apply elem_of_survivors in Hv as [? _]. }
  right. split.
  { apply isBranch_true. intros rc.
    by destruct (Hkids rc) as (child & child' & _ & -> & _). }
  split.
  { apply subseteq_size in Hsup. lia. }
  split.
  { intros v Hv. rewrite Hd in Hv. apply elem_of_filter in Hv as [Hv _].
    by rewrite Hacc. }
  apply shouldSubdivide_true in Hsub as (v & rc & Hv & Hs).
  destruct (Hkids rc) as (child & child' & _ & E' & Hreb & Hcc & _).
  exists v, rc, child'. split; [by apply Hsup|]. split; [done|].
  by rewrite (rebalance_compare _ _ _ Hreb), Hcc.
Qed.

(** A rebalance pass that returns has kept the node's search space, and at
    every node of the graph it returns the local values satisfy the node's
    search space; a node with children has all four, holds more values than
    the threshold below it, keeps locally only values that none of its
    children's search spaces satisfies, and has a value that one of them
    rejects. *)
Theorem rebalance_settles_every_node fuel n n' :
  rebalance fuel n = Done n' →
  m_compare n' = m_compare n ∧ ∀ m, m ∈ nodes n' → settled m.
Proof.
  intros Hr. split; [by apply (rebalance_compare fuel)|by apply (rebalance_settled fuel n)].
Qed.

(** When a test region that satisfies a value overlaps every search space
    that satisfies it, the tree a facade [rebalance] returns answers a query
    with every value it holds that the test region satisfies: every node's
    local values satisfy the node's search space.  The root search space is
    the one built from the values held before, and when it satisfies them
    all, none of those is missed. *)
Theorem rebalanced_tree_finds_its_values fuel (t t' : SearchTree2D) :
  overlapsWhereSatisfied →
  tree_rebalance fuel t = Done t' →
  let prior := getAllChildValues (m_tree t) in
  m_compare (m_tree t') = buildRegionFromData prior
  ∧ valuesInPlace (m_tree t')
  ∧ (∀ r v, v ∈ getAllChildValues (m_tree t') → satisfies r v = true →
            v ∈ tree_getNearbyValues t' r)
  ∧ ((∀ v, v ∈ prior → satisfies (buildRegionFromData prior) v = true) →
     ∀ r v, v ∈ prior → satisfies r v = true → v ∈ tree_getNearbyValues t' r).
Proof.
  intros Hov Hr prior. apply tree_rebalance_Done in Hr.
  assert (∀ r v, v ∈ getAllChildValues (m_tree t') → satisfies r v = true →
                 v ∈ tree_getNearbyValues t' r) as Hfind.
  { intros r v Hv Hs. apply elem_of_getAllChildValues_nodes in Hv as (m & Hm & Hv).
    apply elem_of_getNearbyValues_nodes. exists m. split; [done|]. split; [|done].
    destruct (rebalance_settled _ _ _ Hr m Hm) as [Hsat _].
    apply (Hov _ _ v); auto. }
  split; [by rewrite (rebalance_compare _ _ _ Hr)|]. split.
  { intros m v Hm Hv. destruct (rebalance_settled _ _ _ Hr m Hm) as [Hsat _]. auto. }
  split; [done|].
  intros Hcover r v Hv Hs. apply Hfind; [|done].
  apply (rebalance_values_supseteq _ _ _ Hr).
  rewrite survivors_buildRootRegion. apply elem_of_filter. auto.
Qed.

(** ** Termination *)

Lemma rebalance_fuel_le fuel fuel' n n' :
  fuel ≤ fuel' → rebalance fuel n = Done n' → rebalance fuel' n = Done n'.
Proof.
  induction 1 as [|fuel' _ IH]; [done|]. intros Hr. by apply rebalance_more_fuel, IH.
Qed.

Lemma rebalanceChildren_total (f : Node → outcome Node) n :
  (∀ rc child, quad_at rc (m_mapRegions n) = Some child → ∃ child', f child = Done child') →
  ∃ n', rebalanceChildren f n = Done n'.
Proof.
  intros Hf. unfold rebalanceChildren.
  destruct (quad_mapM_total
              (λ region : option Node,
                 match region with
                 | Some child => Some <$> f child
                 | None => Done None
                 end) (m_mapRegions n)) as [regions' ->].
  - intros rc. destruct (quad_at rc (m_mapRegions n)) as [child|] eqn:E; [|eauto].
    destruct (Hf rc child E) as [child' ->]. cbn. eauto.
  - cbn. eauto.
Qed.

Lemma rebalance_returns (measure : NodeCompare → nat) fuel n :
  quadrantsShrink measure →
  measure (m_compare n) < fuel → leafOrBranchEverywhere n = true →
  ∃ n', rebalance fuel n = Done n'.
Proof.
  intros Hshrink. revert n. induction fuel as [|fuel IH]; intros n Hm Hn; [lia|].
  pose proof Hn as Hn'. apply leafOrBranchEverywhere_true in Hn' as [Hshape _].
  rewrite rebalance_S by auto.
  destruct (decide _) as [|Hsz]; [eauto|].
  destruct (shouldSubdivide _ _); [|eauto].
  apply rebalanceChildren_total. intros rc child E.
  destruct (subdivided_child n rc) as (child0 & E0 & Hcc & _).
  rewrite E in E0. injection E0 as <-.
  apply IH.
  - rewrite Hcc. unfold candidateQuads.
    assert (measure (quad_at rc (buildQuadrantsFromData (m_compare n) (survivors n)
                                   (slotCompares n))) < measure (m_compare n)); [|lia].
    apply Hshrink; [lia|]. intros v Hv. by apply elem_of_survivors in Hv as [? _].
  - pose proof (subdivided_leafOrBranch n Hn) as Hs.
    apply leafOrBranchEverywhere_true in Hs as [_ Hkids]. eauto.
Qed.


Lemma perform_fuel_le fuel fuel' op (t t' : SearchTree2D) :
  fuel ≤ fuel' → perform fuel op t = Done t' → perform fuel' op t = Done t'.
Proof.
  intros Hle. destruct op; try done. cbn [perform].
  rewrite !tree_rebalance_Done. by apply rebalance_fuel_le.
Qed.

Lemma performAll_fuel_le fuel fuel' ops (t t' : SearchTree2D) :
  fuel ≤ fuel' → performAll fuel ops t = Done t' → performAll fuel' ops t = Done t'.
Proof.
  intros Hle. revert t. induction ops as [|op ops IH]; intros t; [done|].
  cbn [performAll]. destruct (perform fuel op t) as [t1| |] eqn:Hstep; [|done..].
  rewrite (perform_fuel_le _ _ _ _ _ Hle Hstep). cbn. apply IH.
Qed.

(** When the quadrants of a search space holding more values than the
    threshold are smaller than it in some measure, [rebalance] returns: a
    pass on a node needs no more fuel than the measure of the node's search
    space, and every program of public operations run on a freshly
    constructed tree returns a tree. *)
Theorem rebalance_returns_when_quadrants_shrink (measure : NodeCompare → nat) :
  quadrantsShrink measure →
  (∀ n, leafOrBranchEverywhere n = true →
        ∃ n', rebalance (S (measure (m_compare n))) n = Done n')
  ∧ (∀ ops : list operation, ∃ fuel (t : SearchTree2D),
       performAll fuel ops newTree = Done t).
Proof.
  intros Hshrink. split.
  { intros n Hn. apply (rebalance_returns measure); [done|lia|done]. }
  intros ops.
  assert (leafOrBranchEverywhere (m_tree newTree) = true) as Hnew by done.
  revert Hnew. generalize newTree.
  induction ops as [|op ops IH]; intros t Ht; [by exists 0, t|].
  assert (∃ fuel1 t1, perform fuel1 op t = Done t1) as (fuel1 & t1 & Hstep).
  { destruct op; try (by exists 0; eexists).
    destruct (rebalance_returns measure
                (S (measure (m_compare (buildRootRegion (m_tree t)))))
                (buildRootRegion (m_tree t)) Hshrink) as [n' Hn']; [lia| |].
    - unfold buildRootRegion. by rewrite setCompare_leafOrBranch.
    - eexists _, (mkTree n'). cbn [perform]. by apply tree_rebalance_Done. }
  pose proof (perform_leafOrBranch fuel1 op t Ht) as Hok. rewrite Hstep in Hok.
  destruct (IH t1 Hok) as (fuel2 & t2 & Hrun).
  exists (fuel1 `max` fuel2), t2. cbn [performAll].
  rewrite (perform_fuel_le fuel1 _ _ _ _ (Nat.le_max_l _ _) Hstep). cbn.
  by apply (performAll_fuel_le fuel2); [apply Nat.le_max_r|].
Qed.

(** ** Values in place *)

Lemma valuesInPlace_eq n :
  valuesInPlace n ↔
  (∀ v, v ∈ m_data n → satisfies (m_compare n) v = true)
  ∧ ∀ rc child, quad_at rc (m_mapRegions n) = Some child → valuesInPlace child.
Proof.
  unfold valuesInPlace. split.
  - intros Hn. split.
    + intros v. apply Hn, nodes_self.
    + intros rc child E m v Hm. apply Hn, elem_of_nodes. eauto.
  - intros [Hroot Hkids] m v Hm.
    apply elem_of_nodes in Hm as [->|(rc & child & E & Hm)]; [apply Hroot|].
    by apply (Hkids rc child E).
Qed.

Lemma valuesInPlace_add v n :
  valuesInPlace n → satisfies (m_compare n) v = true → valuesInPlace (add v n).
Proof.
  induction n as [n IH] using Node_ind. intros Hn Hs.
  apply valuesInPlace_eq in Hn as [Hroot Hkids]. apply valuesInPlace_eq. split.
  - intros w. rewrite add_compare, add_data.
    destruct (existsb _ _); [apply Hroot|].
    intros [->%elem_of_singleton|Hw]%elem_of_union; [done|by apply Hroot].
  - intros rc child. rewrite add_regions.
    destruct (quad_at rc (m_mapRegions n)) as [c|] eqn:E; [|done].
    intros [= <-]. destruct (satisfies (m_compare c) v) eqn:Hc; eauto.
Qed.

Lemma valuesInPlace_remove v n : valuesInPlace n → valuesInPlace (remove v n).
Proof.
  induction n as [n IH] using Node_ind. intros Hn.
  apply valuesInPlace_eq in Hn as [Hroot Hkids]. apply valuesInPlace_eq. split.
  - intros w. rewrite remove_compare, remove_data.
    intros [Hw _]%elem_of_difference. by apply Hroot.
  - intros rc child. rewrite remove_regions.
    destruct (quad_at rc (m_mapRegions n)) as [c|] eqn:E; [|done].
    intros [= <-]. eauto.
Qed.

(** A tree in which every node's local values satisfy the node's search
    space stays so under [remove], and under [add] of a value that the root
    search space satisfies.  When a test region that satisfies a value
    overlaps every search space that satisfies it, a query on such a tree
    returns every value of the tree that the test region satisfies. *)
Theorem values_in_place_are_found v n :
  valuesInPlace n →
  (satisfies (m_compare n) v = true → valuesInPlace (add v n))
  ∧ valuesInPlace (remove v n)
  ∧ (overlapsWhereSatisfied →
     ∀ r w, w ∈ getAllChildValues n → satisfies r w = true → w ∈ getNearbyValues n r).
Proof.
  intros Hn. split; [by apply valuesInPlace_add|]. split; [by apply valuesInPlace_remove|].
  intros Hov r w Hw Hs. apply elem_of_getAllChildValues_nodes in Hw as (m & Hm & Hw).
  apply elem_of_getNearbyValues_nodes. exists m. split; [done|]. split; [|done].
  apply (Hov _ _ w); [|done]. by apply (Hn m).
Qed.

(** ** A pass that never returns *)

Lemma rebalance_not_NullDeref fuel n :
  leafOrBranchEverywhere n = true → rebalance fuel n ≠ NullDeref.
Proof.
  intros Hn Hr. pose proof (rebalance_leafOrBranch fuel n Hn) as Hok.
  by rewrite Hr in Hok.
Qed.

Lemma survivors_leaf c (V : SetValue) :
  (∀ v, v ∈ V → satisfies c v = true) →
  survivors (mkNode c (quad_pure None) V) = V.
Proof.
  intros Hall. unfold survivors. rewrite getAllChildValues_eq. cbn.
  apply set_eq. intros v. rewrite elem_of_filter. set_solver.
Qed.

Lemma subdivided_leaf_child c (V : SetValue) rc :
  let n := mkNode c (quad_pure None) V in
  quad_at rc (m_mapRegions (subdivided n))
  = Some (mkNode (quad_at rc (candidateQuads n)) (quad_pure None)
            (filter (λ v, satisfies (quad_at rc (candidateQuads n)) v = true)
                    (survivors n))).
Proof.
  intros n. unfold subdivided, addAll.
  rewrite addList_regions, buildChildren_regions. cbn [m_mapRegions set_data n].
  rewrite quad_at_pure. cbn [default fmap option_fmap option_map]. f_equal.
  unfold setCompare, newNode. cbn [m_compare m_mapRegions m_data].
  rewrite addList_leaf. f_equal. apply set_eq. intros v.
  rewrite elem_of_union, elem_of_list_to_set, list_elem_of_filter, elem_of_elements,
    elem_of_filter. set_solver.
Qed.

(** A quadrant that is the search space it divides makes [rebalance] run
    forever: on a LEAF whose values all satisfy its search space, are more
    than the threshold and are told apart by the quadrants, the pass creates
    in that quadrant a child equal to the LEAF itself and rebalances it in
    turn; no amount of fuel lets it return. *)
Theorem rebalance_runs_forever c (V : SetValue) rc fuel :
  (∀ v, v ∈ V → satisfies c v = true) →
  g_minDataSize < size V →
  quad_at rc (buildQuadrantsFromData c V (quad_pure nilCompare)) = c →
  shouldSubdivide V (buildQuadrantsFromData c V (quad_pure nilCompare)) = true →
  rebalance fuel (mkNode c (quad_pure None) V) = OutOfFuel.
Proof.
  intros Hall Hsz Hq Hsub. set (n := mkNode c (quad_pure None) V).
  assert (survivors n = V) as HV by by apply survivors_leaf.
  assert (candidateQuads n = buildQuadrantsFromData c V (quad_pure nilCompare)) as HQ.
  { unfold candidateQuads. rewrite HV. done. }
  assert (leafOrBranchEverywhere n = true) as Hn by done.
  induction fuel as [|fuel IH]; [done|].
  rewrite rebalance_S by (right; left; done).
  rewrite HV, HQ, decide_False, Hsub by lia.
  unfold rebalanceChildren.
  rewrite (quad_mapM_OutOfFuel _ _ rc); [done| |].
  - pose proof (subdivided_leaf_child c V rc) as E. cbv zeta in E. fold n in E.
    rewrite E, HQ, Hq, HV.
    assert (filter (λ v, satisfies c v = true) V = V) as ->.
    { apply set_eq. intros v. rewrite elem_of_filter. set_solver. }
    fold n. by rewrite IH.
  - intros rc'. pose proof (subdivided_leafOrBranch n Hn) as Hs.
    apply leafOrBranchEverywhere_true in Hs as [_ Hkids].
    destruct (quad_at rc' (m_mapRegions (subdivided n))) as [child|] eqn:E; [|done].
    pose proof (rebalance_not_NullDeref fuel child (Hkids rc' child E)).
    by destruct (rebalance fuel child).
Qed.

(** ** A pass forgets how the tree was built *)

Lemma survivors_settledLeaf n : survivors (settledLeaf n) = survivors n.
Proof.
  unfold survivors at 1. rewrite getAllChildValues_settledLeaf. cbn.
  apply set_eq. intros v. rewrite elem_of_filter, elem_of_survivors. tauto.
Qed.

Lemma rebalanceChildren_ext (f : Node → outcome Node) n n' :
  m_compare n = m_compare n' → m_data n = m_data n' →
  (∀ rc, match quad_at rc (m_mapRegions n), quad_at rc (m_mapRegions n') with
         | Some child, Some child' => f child = f child'
         | None, None => True
         | _, _ => False
         end) →
  rebalanceChildren f n = rebalanceChildren f n'.
Proof.
  intros Hc Hd Hr. unfold rebalanceChildren.
  assert (quad_mapM (λ region : option Node,
                       match region with
                       | Some child => Some <$> f child
                       | None => Done None
                       end) (m_mapRegions n)
          = quad_mapM (λ region : option Node,
                         match region with
                         | Some child => Some <$> f child
                         | None => Done None
                         end) (m_mapRegions n')) as ->.
  { pose proof (Hr UPPER_LEFT) as H1. pose proof (Hr UPPER_RIGHT) as H2.
    pose proof (Hr LOWER_LEFT) as H3. pose proof (Hr LOWER_RIGHT) as H4.
    unfold quad_mapM. cbn in H1, H2, H3, H4.
    destruct (q_ul (m_mapRegions n)), (q_ul (m_mapRegions n')); try done.
    all: destruct (q_ur (m_mapRegions n)), (q_ur (m_mapRegions n')); try done.
    all: destruct (q_ll (m_mapRegions n)), (q_ll (m_mapRegions n')); try done.
    all: destruct (q_lr (m_mapRegions n)), (q_lr (m_mapRegions n')); try done.
    all: by rewrite ?H1, ?H2, ?H3, ?H4. }
  destruct (quad_mapM _ _); [|done..]. cbn. unfold mret, outcome_ret, set_regions.
  by rewrite Hc, Hd.
Qed.

Lemma rebalance_from_scratch fuel n :
  quadrantsIgnoreSlots → quadrantsWithinParent →
  leafOrBranchEverywhere n = true →
  rebalance fuel n = rebalance fuel (settledLeaf n).
Proof.
  intros Hig Hwithin. revert n. induction fuel as [|fuel IH]; intros n Hn; [done|].
  pose proof Hn as Hn'. apply leafOrBranchEverywhere_true in Hn' as [Hshape _].
  rewrite (rebalance_S fuel n) by auto.
  rewrite (rebalance_S fuel (settledLeaf n)) by (right; left; done).
  rewrite survivors_settledLeaf.
  assert (candidateQuads (settledLeaf n) = candidateQuads n) as HQ.
  { unfold candidateQuads. rewrite survivors_settledLeaf. apply Hig. }
  rewrite HQ.
  assert (settledLeaf (settledLeaf n) = settledLeaf n) as Hll.
  { unfold settledLeaf at 1. by rewrite survivors_settledLeaf. }
  rewrite Hll. destruct (decide _); [done|].
  destruct (shouldSubdivide _ _); [|done].
  apply rebalanceChildren_ext.
  - by rewrite !subdivided_compare.
  - by rewrite !subdivided_data, survivors_settledLeaf, HQ.
  - intros rc.
    destruct (subdivided_child n rc) as (child & E & Hcc & Hvals).
    destruct (subdivided_child (settledLeaf n) rc) as (child' & E' & Hcc' & Hvals').
    rewrite E, E'.
    pose proof (subdivided_leafOrBranch n Hn) as Hs.
    apply leafOrBranchEverywhere_true in Hs as [_ Hkids].
    pose proof (subdivided_leafOrBranch (settledLeaf n) eq_refl) as Hs'.
    apply leafOrBranchEverywhere_true in Hs' as [_ Hkids'].
    rewrite (IH child) by eauto. rewrite (IH child') by eauto. f_equal.
    unfold settledLeaf. rewrite Hcc, Hcc', HQ. f_equal.
    apply set_eq. intros v. rewrite !elem_of_survivors, Hcc, Hcc', Hvals, Hvals', HQ.
    rewrite survivors_settledLeaf. cbn [m_mapRegions settledLeaf].
    rewrite quad_at_pure. cbn [from_option].
    rewrite !elem_of_union, !elem_of_filter, elem_of_empty.
    split; [|tauto]. intros [Hs [[? ?]|Hv]]; [tauto|].
    split; [done|]. left. split; [done|].
    apply elem_of_survivors. split.
    + eapply Hwithin. exact Hs.
    + by apply (child_values_subseteq n rc).
Qed.

(** When the quadrants lie within the search space they divide and do not
    depend on the former contents of the slots, [rebalance] forgets how the
    tree was built: a pass on a node does what it does on a LEAF holding the
    values that survive, and the facade [rebalance] of a tree does what it
    does on a freshly constructed tree given the same values. *)
Theorem rebalance_forgets_history fuel (t : SearchTree2D) :
  quadrantsIgnoreSlots → quadrantsWithinParent →
  leafOrBranchEverywhere (m_tree t) = true →
  (∀ n, leafOrBranchEverywhere n = true →
        rebalance fuel n = rebalance fuel (settledLeaf n))
  ∧ tree_rebalance fuel t
    = tree_rebalance fuel (addValues (elements (getAllChildValues (m_tree t))) newTree).
Proof.
  intros Hig Hwithin Ht. split; [intros n; by apply rebalance_from_scratch|].
  unfold tree_rebalance. f_equal.
  rewrite (addValues_leaf _ newTree) by done. cbn [m_tree newTree newNode m_compare m_data].
  rewrite list_to_set_elements_L, (right_id_L ∅ (∪)).
  set (V := getAllChildValues (m_tree t)).
  rewrite (rebalance_from_scratch fuel (buildRootRegion (m_tree t))); [|done..|].
  2:{ unfold buildRootRegion. by rewrite setCompare_leafOrBranch. }
  rewrite (rebalance_from_scratch fuel (buildRootRegion (mkNode _ _ V))); [|done..].
  f_equal. unfold settledLeaf. rewrite !survivors_buildRootRegion.
  unfold buildRootRegion. cbn [m_compare setCompare].
  assert (getAllChildValues (mkNode nilCompare (quad_pure None) V) = V) as ->.
  { rewrite getAllChildValues_eq. cbn. set_solver. }
  done.
Qed.

End tree_facts.

(** * The node graph in memory: simulation and frames *)

Section memory_facts.
Context {Value NodeCompare : Type} `{Countable Value}.
Context {Predicate : SearchPredicate Value NodeCompare}.

Local Abbreviation SetValue := (gset Value).
Local Abbreviation Node := (@Node Value NodeCompare _ _).
Local Abbreviation Cell := (@Cell Value NodeCompare _ _).
Local Abbreviation heap := (gmap loc Cell).
Local Abbreviation mutation := (@mutation Value).
Local Abbreviation SearchTree2D := (@SearchTree2D Value NodeCompare _ _).

Implicit Types (T child : Node) (l : loc) (F : gset loc) (h : heap).
Implicit Types (regions : list (option Node)) (ptrs : list (option loc)).
Implicit Types (Fs : list (gset loc)).

Lemma Node_eta (n : Node) : n = mkNode (m_compare n) (m_mapRegions n) (m_data n).
Proof. by destruct n. Qed.

(** ** Representation *)

Lemma repr_eq T l F h :
  repr T l F h ↔
  ∃ (ptrs : Quad (option loc)) (Fs : Quad (gset loc)),
    (h !! l = Some (mkCell (m_compare T) ptrs (m_data T)))
    ∧ F = {[l]} ∪ ⋃ (quad_list Fs)
    ∧ (l ∉ ⋃ (quad_list Fs))
    ∧ disjointList (quad_list Fs)
    ∧ Forall3 (λ region p Fc, slotRepr repr region p Fc h)
              (quad_list (m_mapRegions T)) (quad_list ptrs) (quad_list Fs).
Proof.
  destruct T as [c regs d]. cbn [repr m_compare m_mapRegions m_data]. split.
  - intros (ptrs & Fs & Hl & HF & Hnl & Hd & H1 & H2 & H3 & H4).
    exists ptrs, Fs. do 4 (split; [done|]).
    repeat (apply Forall3_cons; [done|]). apply Forall3_nil.
  - intros (ptrs & Fs & Hl & HF & Hnl & Hd & Hall).
    exists ptrs, Fs. do 4 (split; [done|]). unfold quad_list in Hall.
    repeat match goal with
           | Hf : Forall3 _ (_ :: _) _ _ |- _ => inversion Hf; clear Hf; subst
           end.
    done.
Qed.

Lemma slotRepr_impl (R R' : Node → loc → gset loc → heap → Prop)
    (region : option Node) (p : option loc) F h h' :
  (∀ child q, region = Some child → R child q F h → R' child q F h') →
  slotRepr R region p F h → slotRepr R' region p F h'.
Proof. destruct region, p; simpl; eauto. Qed.

Lemma elem_of_footprints Fs x : x ∈ ⋃ Fs ↔ ∃ Fc, Fc ∈ Fs ∧ x ∈ Fc.
Proof. apply elem_of_union_list. Qed.

Lemma child_in_slots (T : Node) child :
  Some child ∈ quad_list (m_mapRegions T) ↔
  ∃ rc, quad_at rc (m_mapRegions T) = Some child.
Proof. apply elem_of_quad_list. Qed.

(** The footprint lies in the store. *)
Lemma slots_dom regions ptrs Fs h :
  Forall3 (λ region p Fc, slotRepr repr region p Fc h) regions ptrs Fs →
  (∀ child, Some child ∈ regions → ∀ l F, repr child l F h → F ⊆ dom h) →
  ⋃ Fs ⊆ dom h.
Proof.
  induction 1 as [|region p Fc regions ptrs Fs Hslot Hall IH]; intros Hkids.
  - set_solver.
  - simpl. apply union_subseteq. split.
    + destruct region as [child|], p as [p|]; simpl in Hslot; try done.
      * eapply Hkids; [left|done].
      * set_solver.
    + apply IH. intros child Hin. apply Hkids. by right.
Qed.

Lemma repr_dom T l F h : repr T l F h → F ⊆ dom h.
Proof.
  revert l F. induction T as [T IH] using Node_ind. intros l F.
  rewrite repr_eq. intros (ptrs & Fs & Hl & -> & Hnl & Hd & Hall).
  apply union_subseteq. split.
  - apply singleton_subseteq_l, elem_of_dom. eauto.
  - eapply slots_dom; [done|]. intros child Hin.
    apply child_in_slots in Hin as [rc E]. eauto.
Qed.

Lemma slots_frame regions ptrs Fs h h' :
  Forall3 (λ region p Fc, slotRepr repr region p Fc h) regions ptrs Fs →
  (∀ child, Some child ∈ regions → ∀ l F,
     repr child l F h → (∀ x, x ∈ F → h' !! x = h !! x) → repr child l F h') →
  (∀ x, x ∈ ⋃ Fs → h' !! x = h !! x) →
  Forall3 (λ region p Fc, slotRepr repr region p Fc h') regions ptrs Fs.
Proof.
  induction 1 as [|region p Fc regions ptrs Fs Hslot Hall IH]; intros Hkids Hsame.
  - constructor.
  - constructor.
    + destruct region as [child|], p as [p|]; simpl in *; try done.
      apply Hkids; [left|done|]. intros x Hx. apply Hsame. set_solver.
    + apply IH.
      * intros child Hin. apply Hkids. by right.
      * intros x Hx. apply Hsame. set_solver.
Qed.

(** A representation depends on the cells of its footprint only. *)
Lemma repr_frame T l F h h' :
  repr T l F h → (∀ x, x ∈ F → h' !! x = h !! x) → repr T l F h'.
Proof.
  revert l F. induction T as [T IH] using Node_ind. intros l F.
  rewrite !repr_eq. intros (ptrs & Fs & Hl & -> & Hnl & Hd & Hall) Hsame.
  exists ptrs, Fs. split; [rewrite Hsame; [done|set_solver]|]. do 3 (split; [done|]).
  eapply slots_frame; [done| |].
  - intros child Hin. apply child_in_slots in Hin as [rc E]. eauto.
  - intros x Hx. apply Hsame. set_solver.
Qed.

(** ** Frames *)

Lemma frame_refl h F : frame h h F F.
Proof. split; auto. Qed.

Lemma frame_trans h1 h2 h3 F1 F2 F3 :
  frame h1 h2 F1 F2 → frame h2 h3 F2 F3 → frame h1 h3 F1 F3.
Proof.
  intros [Hs1 Hn1] [Hs2 Hn2]. split.
  - intros x Hx HF. rewrite <-(Hs1 x Hx HF). apply Hs2.
    + apply elem_of_dom. rewrite (Hs1 x Hx HF). by apply elem_of_dom.
    + intros HF2. destruct (Hn1 x HF2); done.
  - intros x Hx. destruct (Hn2 x Hx) as [HF2|Hd2]; [by apply Hn1|].
    destruct (decide (x ∈ F1)) as [|HF1]; [by left|]. right. intros Hd1.
    apply Hd2, elem_of_dom. rewrite (Hs1 x Hd1 HF1). by apply elem_of_dom.
Qed.

Lemma frame_extend h h' G F F' : frame h h' F F' → frame h h' (G ∪ F) (G ∪ F').
Proof.
  intros [Hs Hn]. split.
  - intros x Hx HF. apply Hs; [done|]. set_solver.
  - intros x [Hx|Hx]%elem_of_union; [set_solver|].
    destruct (Hn x Hx); [set_solver|by right].
Qed.

Lemma frame_shrink h h' F F' F'' : frame h h' F F' → F'' ⊆ F' → frame h h' F F''.
Proof. intros [Hs Hn] Hsub. split; [done|]. intros x Hx. apply Hn. set_solver. Qed.

Lemma frame_grow h h' F G F' : frame h h' F F' → F ⊆ G → frame h h' G F'.
Proof.
  intros [Hs Hn] Hsub. split.
  - intros x Hx HG. apply Hs; [done|]. set_solver.
  - intros x Hx. destruct (Hn x Hx); [left; set_solver|by right].
Qed.

Lemma frame_alter h h' F F' (f : Cell → Cell) l :
  frame h h' F F' → l ∈ F → frame h (alter f l h') F F'.
Proof.
  intros [Hs Hn] Hl. split; [|done]. intros x Hx HF.
  rewrite lookup_alter_ne by (intros ->; done). by apply Hs.
Qed.

Lemma frame_insert_fresh h h' F F' (c : Cell) p :
  frame h h' F F' → p ∉ dom h' → frame h (<[p:=c]> h') F ({[p]} ∪ F').
Proof.
  intros [Hs Hn] Hp. split.
  - intros x Hx HF. rewrite lookup_insert_ne; [by apply Hs|].
    intros ->. apply Hp, elem_of_dom. rewrite (Hs x Hx HF). by apply elem_of_dom.
  - intros x Hx. apply elem_of_union in Hx as [Hx|Hx]; [|by apply Hn].
    apply elem_of_singleton in Hx. subst x.
    destruct (decide (p ∈ F)) as [|HF]; [by left|]. right. intros Hx.
    apply Hp, elem_of_dom. rewrite (Hs p Hx HF). by apply elem_of_dom.
Qed.

Lemma frame_delete h h' F F' p :
  frame h h' F F' → p ∈ F → frame h (delete p h') F F'.
Proof.
  intros [Hs Hn] Hp. split; [|done]. intros x Hx HF.
  rewrite lookup_delete_ne by (intros ->; done). by apply Hs.
Qed.

(** A tree next to the one being worked on is left alone. *)
Lemma repr_framed T l G h h' F F' :
  repr T l G h → frame h h' F F' → G ## F → repr T l G h' ∧ G ## F'.
Proof.
  intros HT [Hs Hn] Hdisj. pose proof (repr_dom _ _ _ _ HT) as Hdom. split.
  - apply (repr_frame _ _ _ _ _ HT). intros x Hx. apply Hs; set_solver.
  - intros x HG HF'. destruct (Hn x HF'); set_solver.
Qed.

(** ** Weights *)

Lemma weight_eq T :
  weight T = S (sum_list (from_option weight 0 <$> quad_list (m_mapRegions T))).
Proof.
  destruct T as [c [ul ur ll lr] d]. unfold weight. cbn [nodes length]. f_equal.
  cbn [m_mapRegions quad_map quad_list q_ul q_ur q_ll q_lr concat fmap list_fmap sum_list
       sum_list_with].
  rewrite !length_app. destruct ul, ur, ll, lr; simpl; lia.
Qed.

Lemma weight_pos T : 0 < weight T.
Proof. rewrite weight_eq. lia. Qed.

Lemma weight_child T child :
  Some child ∈ quad_list (m_mapRegions T) → weight child < weight T.
Proof.
  intros Hin. rewrite (weight_eq T).
  assert (weight child ≤ sum_list (from_option weight 0 <$> quad_list (m_mapRegions T)));
    [|lia].
  revert Hin. generalize (quad_list (m_mapRegions T)). intros regions.
  induction regions as [|region regions IH]; intros Hin.
  - by apply elem_of_nil in Hin.
  - rewrite fmap_cons.
    change (sum_list (?a :: ?k)) with (a + sum_list k).
    apply elem_of_cons in Hin as [<-|Hin]; [cbn [from_option]; lia|].
    specialize (IH Hin). lia.
Qed.

Lemma slots_weight regions ptrs Fs h :
  Forall3 (λ region p Fc, slotRepr repr region p Fc h) regions ptrs Fs →
  disjointList Fs →
  (∀ child, Some child ∈ regions → ∀ l F, repr child l F h → weight child ≤ size F) →
  sum_list (from_option weight 0 <$> regions) ≤ size (⋃ Fs).
Proof.
  induction 1 as [|region p Fc regions ptrs Fs Hslot Hall IH]; intros Hdisj Hkids.
  - simpl. lia.
  - destruct Hdisj as [Hd Hdisj]. rewrite fmap_cons.
    change (sum_list (?a :: ?k)) with (a + sum_list k).
    change (⋃ (Fc :: Fs)) with (Fc ∪ ⋃ Fs). rewrite size_union by done.
    assert (from_option weight 0 region ≤ size Fc).
    { destruct region as [child|], p as [p|]; cbn [slotRepr from_option] in *; try done.
      - eapply Hkids; [left|done].
      - lia. }
    assert (sum_list (from_option weight 0 <$> regions) ≤ size (⋃ Fs)); [|lia].
    apply IH; [done|]. intros child Hin. apply Hkids. by right.
Qed.

Lemma repr_weight T l F h : repr T l F h → weight T ≤ size F.
Proof.
  revert l F. induction T as [T IH] using Node_ind. intros l F.
  rewrite repr_eq. intros (ptrs & Fs & Hl & -> & Hnl & Hd & Hall).
  rewrite weight_eq, size_union, size_singleton by set_solver.
  apply le_n_S. eapply slots_weight; [done..|].
  intros child Hin. apply child_in_slots in Hin as [rc E]. eauto.
Qed.

(** The size of the store is fuel enough for any walk over a graph in it. *)
Lemma repr_fuel T l F h : repr T l F h → weight T ≤ size h.
Proof.
  intros HT. etrans; [by eapply repr_weight|].
  rewrite <-size_dom. apply subseteq_size. by eapply repr_dom.
Qed.

(** ** Walks that only read *)

Lemma slots_hasChildren (R : Node → loc → gset loc → heap → Prop) regions ptrs Fs h :
  Forall3 (λ region p Fc, slotRepr R region p Fc h) regions ptrs Fs →
  existsb (λ region : option loc, bool_decide (is_Some region)) ptrs
  = existsb (λ region : option Node, bool_decide (is_Some region)) regions.
Proof.
  induction 1 as [|region p Fc regions ptrs Fs Hslot Hall IH]; [done|].
  simpl. rewrite IH. by destruct region, p.
Qed.

Lemma repr_hasChildren T h (ptrs : Quad (option loc)) (Fs : Quad (gset loc))
    (c : NodeCompare) (d : SetValue) :
  Forall3 (λ region p Fc, slotRepr repr region p Fc h)
          (quad_list (m_mapRegions T)) (quad_list ptrs) (quad_list Fs) →
  c_hasChildren (mkCell c ptrs d) = hasChildren T.
Proof. apply slots_hasChildren. Qed.

Lemma slot_union_list (f : Node → SetValue) regions (acc : SetValue) :
  foldl (λ (acc : SetValue) (region : option Node),
           match region with
           | Some child => acc ∪ f child
           | None => acc
           end) acc regions
  = acc ∪ ⋃ (from_option f ∅ <$> regions).
Proof.
  revert acc. induction regions as [|region regions IH]; intros acc; simpl.
  - set_solver.
  - rewrite IH. destruct region; simpl; set_solver.
Qed.

Lemma gatherChildren_sim (f : loc → option SetValue) (g : Node → SetValue)
    regions ptrs Fs h :
  Forall3 (λ region p Fc, slotRepr repr region p Fc h) regions ptrs Fs →
  (∀ child p Fc, Some child ∈ regions → repr child p Fc h → f p = Some (g child)) →
  gatherChildren f ptrs = Some (⋃ (from_option g ∅ <$> regions)).
Proof.
  induction 1 as [|region p Fc regions ptrs Fs Hslot Hall IH]; intros Hkids; [done|].
  simpl. rewrite IH by (intros child q Fq Hin; apply Hkids; by right). simpl.
  destruct region as [child|], p as [p|]; simpl in Hslot; try done.
  rewrite (Hkids child p Fc) by (done || left). done.
Qed.

Lemma h_getAllChildValues_sim fuel T l F h :
  weight T ≤ fuel → repr T l F h →
  h_getAllChildValues fuel h l = Some (getAllChildValues T).
Proof.
  revert fuel l F. induction T as [T IH] using Node_ind. intros fuel l F Hfuel.
  rewrite repr_eq. intros (ptrs & Fs & Hl & -> & Hnl & Hd & Hall).
  destruct fuel as [|fuel]; [pose proof (weight_pos T); lia|].
  cbn [h_getAllChildValues]. rewrite Hl. cbn [mbind option_bind].
  rewrite (repr_hasChildren T h ptrs Fs) by done.
  rewrite getAllChildValues_eq. destruct (hasChildren T).
  - cbn [c_regions c_data].
    rewrite (gatherChildren_sim _ getAllChildValues _ _ _ _ Hall).
    + cbn [mbind option_bind]. f_equal. rewrite slot_union_list. set_solver.
    + intros child p Fc Hin Hc. pose proof (weight_child _ _ Hin).
      apply child_in_slots in Hin as [rc E]. eapply IH; [done| |done]. lia.
  - cbn. f_equal.
Qed.

Lemma h_getNearbyValues_sim fuel T l F h r :
  weight T ≤ fuel → repr T l F h →
  h_getNearbyValues fuel h l r = Some (getNearbyValues T r).
Proof.
  revert fuel l F. induction T as [T IH] using Node_ind. intros fuel l F Hfuel.
  rewrite repr_eq. intros (ptrs & Fs & Hl & -> & Hnl & Hd & Hall).
  destruct fuel as [|fuel]; [pose proof (weight_pos T); lia|].
  cbn [h_getNearbyValues]. rewrite Hl. cbn [mbind option_bind].
  rewrite (repr_hasChildren T h ptrs Fs) by done.
  rewrite getNearbyValues_eq. cbv zeta. destruct (hasChildren T).
  - cbn [c_regions c_data c_compare].
    rewrite (gatherChildren_sim _ (λ child, getNearbyValues child r) _ _ _ _ Hall).
    + cbn [mbind option_bind]. f_equal. rewrite slot_union_list.
      destruct (overlaps _ _); set_solver.
    + intros child p Fc Hin Hc. pose proof (weight_child _ _ Hin).
      apply child_in_slots in Hin as [rc E]. eapply IH; [done| |done]. lia.
  - cbn. done.
Qed.

Lemma h_tree_getNearbyValues_sim T l F h r :
  repr T l F h → h_tree_getNearbyValues h l r = Some (getNearbyValues T r).
Proof.
  intros HT. eapply h_getNearbyValues_sim; [|done]. by eapply repr_fuel.
Qed.

(** ** Child slots under frames *)

Lemma slots_dom' regions ptrs Fs h :
  Forall3 (λ region p Fc, slotRepr repr region p Fc h) regions ptrs Fs →
  ⋃ Fs ⊆ dom h.
Proof. intros Hall. eapply slots_dom; [done|]. intros. by eapply repr_dom. Qed.

Lemma slots_frame' regions ptrs Fs h h' :
  Forall3 (λ region p Fc, slotRepr repr region p Fc h) regions ptrs Fs →
  (∀ x, x ∈ ⋃ Fs → h' !! x = h !! x) →
  Forall3 (λ region p Fc, slotRepr repr region p Fc h') regions ptrs Fs.
Proof.
  intros Hall. eapply slots_frame; [done|]. intros. by eapply repr_frame.
Qed.

Lemma slots_framed regions ptrs Fs h h' G G' :
  Forall3 (λ region p Fc, slotRepr repr region p Fc h) regions ptrs Fs →
  frame h h' G G' → ⋃ Fs ## G →
  Forall3 (λ region p Fc, slotRepr repr region p Fc h') regions ptrs Fs ∧ ⋃ Fs ## G'.
Proof.
  intros Hall [Hs Hn] Hdisj. pose proof (slots_dom' _ _ _ _ Hall) as Hdom. split.
  - apply (slots_frame' _ _ _ _ _ Hall). intros x Hx. apply Hs; set_solver.
  - intros x HFs HG'. destruct (Hn x HG'); set_solver.
Qed.

Lemma quad_of_list {A} (l : list A) : length l = 4 → ∃ q : Quad A, quad_list q = l.
Proof.
  destruct l as [|a [|b [|c [|d [|]]]]]; try done. intros _.
  by exists (mkQuad a b c d).
Qed.

Lemma repr_lookup T l F h :
  repr T l F h →
  ∃ slots : Quad (option loc),
    h !! l = Some (mkCell (m_compare T) slots (m_data T)) ∧ l ∈ F.
Proof.
  rewrite repr_eq. intros (slots & Fs & Hl & -> & _). exists slots. split; [done|].
  set_solver.
Qed.

(** Assembling a node from its cell and its children. *)
Lemma repr_node (c : NodeCompare) (regions : Quad (option Node)) (d : SetValue)
    l (ptrs : Quad (option loc)) Fs h :
  h !! l = Some (mkCell c ptrs d) →
  l ∉ ⋃ Fs → disjointList Fs →
  Forall3 (λ region p Fc, slotRepr repr region p Fc h)
          (quad_list regions) (quad_list ptrs) Fs →
  repr (mkNode c regions d) l ({[l]} ∪ ⋃ Fs) h.
Proof.
  intros Hl Hnl Hd Hall.
  destruct (quad_of_list Fs) as [q <-].
  { by rewrite <-(Forall3_length_lr _ _ _ _ Hall). }
  apply repr_eq. exists ptrs, q. done.
Qed.

(** ** Loops over the children *)

Lemma forChildren_sim (body : loc → heap → option heap) (Φ : Node → Node → Prop)
    regions regions' ptrs Fs h :
  Forall3 (λ region p Fc, slotRepr repr region p Fc h) regions ptrs Fs →
  disjointList Fs →
  Forall2 (option_Forall2 Φ) regions regions' →
  (∀ child child' p Fc h0,
     Some child ∈ regions → Φ child child' → repr child p Fc h0 →
     ∃ h1 Fc', body p h0 = Some h1 ∧ repr child' p Fc' h1 ∧ frame h0 h1 Fc Fc') →
  ∃ h' Fs',
    forChildren body ptrs h = Some h'
    ∧ Forall3 (λ region p Fc, slotRepr repr region p Fc h') regions' ptrs Fs'
    ∧ disjointList Fs'
    ∧ frame h h' (⋃ Fs) (⋃ Fs').
Proof.
  revert regions' ptrs Fs h.
  induction regions as [|region regions IH]; intros regions' ptrs Fs h Hall Hdisj Hrel Hbody.
  - inversion Hall; subst.
    apply Forall2_nil_inv_l in Hrel as ->. exists h, []. split; [done|].
    split; [constructor|]. split; [done|]. apply frame_refl.
  - apply Forall3_cons_inv_l in Hall as (p & ptrs' & Fc & Fs' & -> & -> & Hslot & Hall).
    rename ptrs' into ptrs. rename Fs' into Fs.
    apply Forall2_cons_inv_l in Hrel as (region' & regions'' & Hhead & Hrel & ->).
    destruct Hdisj as [Hd Hdisj].
    pose proof (slots_dom' _ _ _ _ Hall) as Hdom.
    destruct Hhead as [child child' HΦ|].
    + destruct p as [p|]; [|done]. cbn [slotRepr] in Hslot.
      destruct (Hbody child child' p Fc h) as (h1 & Fc1 & Hrun & Hc1 & Hf1);
        [left|done..|].
      destruct (slots_framed _ _ _ _ _ _ _ Hall Hf1) as [Hall1 Hd1]; [set_solver|].
      destruct (IH regions'' ptrs Fs h1 Hall1 Hdisj Hrel)
        as (h' & Fs' & Hloop & Hall' & Hdisj' & Hf').
      { intros c c' q Fq h0 Hin. apply Hbody. by right. }
      exists h', (Fc1 :: Fs'). split; [by cbn [forChildren]; rewrite Hrun|].
      destruct (repr_framed _ _ _ _ _ _ _ Hc1 Hf') as [Hc' Hd']; [set_solver|].
      split; [by constructor|]. split; [done|].
      change (⋃ (Fc :: Fs)) with (Fc ∪ ⋃ Fs).
      change (⋃ (Fc1 :: Fs')) with (Fc1 ∪ ⋃ Fs').
      apply (frame_trans h h1 h' _ (Fc1 ∪ ⋃ Fs) _).
      * rewrite (union_comm_L Fc), (union_comm_L Fc1). apply frame_extend, Hf1.
      * apply frame_extend, Hf'.
    + destruct p as [p|]; [done|]. cbn [slotRepr] in Hslot. subst Fc.
      destruct (IH regions'' ptrs Fs h Hall Hdisj Hrel)
        as (h' & Fs' & Hloop & Hall' & Hdisj' & Hf').
      { intros c c' q Fq h0 Hin. apply Hbody. by right. }
      exists h', (∅ :: Fs'). split; [done|]. split; [by constructor|].
      split; [split; [set_solver|done]|].
      change (⋃ (∅ :: Fs)) with (∅ ∪ ⋃ Fs).
      change (⋃ (∅ :: Fs')) with (∅ ∪ ⋃ Fs').
      by rewrite !(union_empty_l_L (C := gset loc)).
Qed.

(** ** Updating a node in place *)

Lemma node_after_loop (c : NodeCompare) (d : SetValue) (regions' : Quad (option Node))
    l (slots : Quad (option loc)) (Fs : Quad (gset loc)) Fs' h h1 :
  h !! l = Some (mkCell c slots d) →
  l ∉ ⋃ (quad_list Fs) →
  frame h h1 (⋃ (quad_list Fs)) (⋃ Fs') →
  Forall3 (λ region p Fc, slotRepr repr region p Fc h1)
          (quad_list regions') (quad_list slots) Fs' →
  disjointList Fs' →
  repr (mkNode c regions' d) l ({[l]} ∪ ⋃ Fs') h1
  ∧ frame h h1 ({[l]} ∪ ⋃ (quad_list Fs)) ({[l]} ∪ ⋃ Fs')
  ∧ l ∉ ⋃ Fs'.
Proof.
  intros Hl Hnl Hf Hall Hdisj.
  assert (l ∈ dom h) as Hdom by (apply elem_of_dom; eauto).
  assert (l ∉ ⋃ Fs') as Hnl'.
  { intros Hin. destruct Hf as [_ Hn]. destruct (Hn l Hin); done. }
  split; [|split; [by apply frame_extend|done]].
  apply (repr_node c regions' d l slots Fs' h1); try done.
  destruct Hf as [Hs _]. by rewrite Hs.
Qed.

Lemma repr_alter T l F h (f : Cell → Cell) (c' : NodeCompare) (d' : SetValue) :
  repr T l F h →
  (∀ slots, f (mkCell (m_compare T) slots (m_data T)) = mkCell c' slots d') →
  repr (mkNode c' (m_mapRegions T) d') l F (alter f l h)
  ∧ frame h (alter f l h) F F.
Proof.
  intros HT Hf. pose proof HT as HT'.
  apply repr_eq in HT' as (slots & Fs & Hl & -> & Hnl & Hd & Hall). split.
  - apply (repr_node c' (m_mapRegions T) d' l slots (quad_list Fs)); try done.
    + by rewrite lookup_alter_eq, Hl; simpl; rewrite Hf.
    + apply (slots_frame' _ _ _ _ _ Hall). intros x Hx.
      apply lookup_alter_ne. by intros ->.
  - apply frame_alter; [apply frame_refl|set_solver].
Qed.

Lemma simulates_alter T (f : Cell → Cell) (c' : NodeCompare) (d' : SetValue) :
  (∀ slots, f (mkCell (m_compare T) slots (m_data T)) = mkCell c' slots d') →
  simulates (λ l h, Some (alter f l h)) T (mkNode c' (m_mapRegions T) d').
Proof.
  intros Hf l F h HT. destruct (repr_alter _ _ _ _ _ _ _ HT Hf). eauto.
Qed.

Lemma simulates_seq (op1 op2 : loc → heap → option heap) T1 T2 T3 :
  simulates op1 T1 T2 → simulates op2 T2 T3 →
  simulates (λ l h, h ← op1 l h; op2 l h) T1 T3.
Proof.
  intros H1 H2 l F h HT. destruct (H1 _ _ _ HT) as (h1 & F1 & -> & HT1 & Hf1).
  destruct (H2 _ _ _ HT1) as (h2 & F2 & Hrun & HT2 & Hf2).
  exists h2, F2. split; [done|]. split; [done|]. by eapply frame_trans.
Qed.

(** ** [remove] *)

Lemma option_map_Forall2 (f : Node → Node) regions :
  Forall2 (option_Forall2 (λ child child', child' = f child)) regions
    ((λ region : option Node,
        match region with
        | Some child => Some (f child)
        | None => None
        end) <$> regions).
Proof.
  induction regions as [|[child|] regions IH]; constructor; try done; by constructor.
Qed.

Lemma h_remove_sim fuel val T :
  weight T ≤ fuel → simulates (h_remove fuel val) T (remove val T).
Proof.
  revert fuel. induction T as [T IH] using Node_ind. intros fuel Hfuel l F h HT.
  destruct fuel as [|fuel]; [pose proof (weight_pos T); lia|].
  pose proof HT as HT'. apply repr_eq in HT' as (slots & Fs & Hl & -> & Hnl & Hd & Hall).
  cbn [h_remove]. rewrite Hl. cbn [mbind option_bind].
  rewrite (repr_hasChildren T h slots Fs) by done. cbn [c_regions].
  assert (∃ h1 Fs',
            (if hasChildren T
             then forChildren (h_remove fuel val) (quad_list slots) h
             else Some h) = Some h1
            ∧ Forall3 (λ region p Fc, slotRepr repr region p Fc h1)
                (quad_list (m_mapRegions (remove val T))) (quad_list slots) Fs'
            ∧ disjointList Fs'
            ∧ frame h h1 (⋃ (quad_list Fs)) (⋃ Fs')) as (h1 & Fs' & -> & Hall' & Hd' & Hf).
  { rewrite remove_eq. cbn [m_mapRegions]. destruct (hasChildren T).
    - rewrite quad_list_map.
      apply (forChildren_sim _ (λ child child', child' = remove val child)
               _ _ _ _ _ Hall Hd).
      + apply option_map_Forall2.
      + intros child child' p Fc h0 Hin -> Hc. pose proof (weight_child _ _ Hin).
        apply child_in_slots in Hin as [rc E]. eapply IH; [done| |done]. lia.
    - exists h, (quad_list Fs). split; [done|]. split; [done|]. split; [done|].
      apply frame_refl. }
  cbn [mbind option_bind].
  destruct (node_after_loop _ _ _ _ _ _ _ _ _ Hl Hnl Hf Hall' Hd') as (HT1 & Hf1 & _).
  destruct (repr_alter _ _ _ _ (λ c, c_setData (c_data c ∖ {[val]}) c)
              (m_compare T) (m_data T ∖ {[val]}) HT1) as [HT2 Hf2]; [done|].
  eexists _, _. split; [done|]. split.
  - rewrite (Node_eta (remove val T)), remove_compare, remove_data. exact HT2.
  - by eapply frame_trans.
Qed.

(** ** [add] *)

Lemma addToChildren_sim (addChild : loc → heap → option heap) val regions ptrs Fs h :
  Forall3 (λ region p Fc, slotRepr repr region p Fc h) regions ptrs Fs →
  disjointList Fs →
  (∀ child p Fc h0,
     Some child ∈ regions → repr child p Fc h0 →
     ∃ h1 Fc', addChild p h0 = Some h1 ∧ repr (add val child) p Fc' h1
               ∧ frame h0 h1 Fc Fc') →
  ∃ h' Fs',
    addToChildren addChild val ptrs h = Some (h', existsb (accepts val) regions)
    ∧ Forall3 (λ region p Fc, slotRepr repr region p Fc h')
        ((λ region : option Node,
            match region with
            | Some child =>
                if satisfies (m_compare child) val
                then Some (add val child) else Some child
            | None => None
            end) <$> regions) ptrs Fs'
    ∧ disjointList Fs'
    ∧ frame h h' (⋃ Fs) (⋃ Fs').
Proof.
  revert ptrs Fs h.
  induction regions as [|region regions IH]; intros ptrs Fs h Hall Hdisj Hbody.
  - inversion Hall; subst. exists h, []. split; [done|].
    split; [constructor|]. split; [done|]. apply frame_refl.
  - apply Forall3_cons_inv_l in Hall as (p & ptrs' & Fc & Fs' & -> & -> & Hslot & Hall).
    rename ptrs' into ptrs. rename Fs' into Fs.
    destruct Hdisj as [Hd Hdisj].
    pose proof (slots_dom' _ _ _ _ Hall) as Hdom.
    assert (∃ h1 Fc1 region',
              match p with
              | Some p =>
                  child ← h !! p;
                  if satisfies (c_compare child) val
                  then h ← addChild p h; Some (h, true)
                  else Some (h, false)
              | None => Some (h, false)
              end = Some (h1, accepts val region)
              ∧ region' = match region with
                          | Some child =>
                              if satisfies (m_compare child) val
                              then Some (add val child) else Some child
                          | None => None
                          end
              ∧ slotRepr repr region' p Fc1 h1
              ∧ frame h h1 Fc Fc1) as (h1 & Fc1 & region' & Hstep & -> & Hslot1 & Hf1).
    { destruct region as [child|], p as [p|]; cbn [slotRepr] in Hslot; try done.
      - destruct (repr_lookup _ _ _ _ Hslot) as (slots & -> & _).
        cbn [mbind option_bind c_compare accepts].
        destruct (satisfies (m_compare child) val) eqn:Hs.
        + destruct (Hbody child p Fc h) as (h1 & Fc1 & -> & Hc1 & Hf1); [left|done|].
          exists h1, Fc1. eexists. split; [done|]. split; [done|]. by split.
        + exists h, Fc. eexists. split; [done|].
          split; [done|]. split; [done|]. apply frame_refl.
      - exists h, Fc. eexists. split; [done|]. split; [done|]. split; [done|].
        apply frame_refl. }
    destruct (slots_framed _ _ _ _ _ _ _ Hall Hf1) as [Hall1 Hd1]; [set_solver|].
    destruct (IH ptrs Fs h1 Hall1 Hdisj) as (h' & Fs' & Hloop & Hall' & Hdisj' & Hf').
    { intros c q Fq h0 Hin. apply Hbody. by right. }
    exists h', (Fc1 :: Fs'). split.
    { cbn [addToChildren]. rewrite Hstep. cbn [mbind option_bind fst snd].
      rewrite Hloop. done. }
    assert (slotRepr repr
              match region with
              | Some child =>
                  if satisfies (m_compare child) val then Some (add val child)
                  else Some child
              | None => None
              end p Fc1 h' ∧ Fc1 ## ⋃ Fs') as [Hslot' Hd'].
    { destruct region as [child|], p as [p|]; cbn [slotRepr] in Hslot; try done.
      - destruct (satisfies (m_compare child) val); cbn [slotRepr] in *;
          apply (repr_framed _ _ _ _ _ _ _ Hslot1 Hf'); set_solver.
      - cbn [slotRepr] in *. subst Fc1. split; [done|]. set_solver. }
    split; [rewrite fmap_cons; by constructor|]. split; [done|].
    change (⋃ (Fc :: Fs)) with (Fc ∪ ⋃ Fs).
    change (⋃ (Fc1 :: Fs')) with (Fc1 ∪ ⋃ Fs').
    apply (frame_trans h h1 h' _ (Fc1 ∪ ⋃ Fs) _).
    + rewrite (union_comm_L Fc), (union_comm_L Fc1). apply frame_extend, Hf1.
    + apply frame_extend, Hf'.
Qed.

Lemma h_add_sim fuel val T :
  weight T ≤ fuel → simulates (h_add fuel val) T (add val T).
Proof.
  revert fuel. induction T as [T IH] using Node_ind. intros fuel Hfuel l F h HT.
  destruct fuel as [|fuel]; [pose proof (weight_pos T); lia|].
  pose proof HT as HT'. apply repr_eq in HT' as (slots & Fs & Hl & -> & Hnl & Hd & Hall).
  cbn [h_add]. rewrite Hl. cbn [mbind option_bind].
  rewrite (repr_hasChildren T h slots Fs) by done. cbn [c_regions].
  rewrite (Node_eta (add val T)), add_compare, add_data.
  destruct (hasChildren T) eqn:Hc.
  - destruct (addToChildren_sim (h_add fuel val) val _ _ _ _ Hall Hd)
      as (h1 & Fs' & -> & Hall' & Hd' & Hf).
    { intros child p Fc h0 Hin Hc0. pose proof (weight_child _ _ Hin).
      apply child_in_slots in Hin as [rc E]. eapply IH; [done| |done]. lia. }
    assert (quad_list (m_mapRegions (add val T))
            = (λ region : option Node,
                 match region with
                 | Some child =>
                     if satisfies (m_compare child) val
                     then Some (add val child) else Some child
                 | None => None
                 end) <$> quad_list (m_mapRegions T)) as Hregions.
    { rewrite <-quad_list_map. f_equal. apply quad_ext. intros rc.
      rewrite add_regions, quad_at_map.
      destruct (quad_at rc (m_mapRegions T)) as [child|]; [|done].
      by destruct (satisfies _ _). }
    rewrite <-Hregions in Hall'.
    destruct (node_after_loop _ _ _ _ _ _ _ _ _ Hl Hnl Hf Hall' Hd') as (HT1 & Hf1 & _).
    destruct (existsb (accepts val) (quad_list (m_mapRegions T))).
    + eauto.
    + destruct (repr_alter _ _ _ _ (λ c, c_setData ({[val]} ∪ c_data c) c)
                  (m_compare T) ({[val]} ∪ m_data T) HT1) as [HT2 Hf2]; [done|].
      eexists _, _. split; [done|]. split; [exact HT2|]. by eapply frame_trans.
  - rewrite wasAdded_leaf by done.
    assert (m_mapRegions (add val T) = m_mapRegions T) as ->.
    { apply quad_ext. intros rc. rewrite add_regions.
      by rewrite (proj1 (hasChildren_false T) Hc rc). }
    destruct (repr_alter _ _ _ _ (λ c, c_setData ({[val]} ∪ c_data c) c)
                (m_compare T) ({[val]} ∪ m_data T) HT) as [HT2 Hf2]; [done|].
    eauto.
Qed.

(** ** [clear] and [deleteChildren] *)

Lemma repr_leaf (c : NodeCompare) (d : SetValue) l h :
  h !! l = Some (mkCell c (quad_pure None) d) →
  repr (mkNode c (quad_pure None) d) l {[l]} h.
Proof.
  intros Hl. apply repr_eq. exists (quad_pure None), (quad_pure ∅).
  split; [done|]. split; [set_solver|]. split; [set_solver|].
  split; [cbn; set_solver|]. repeat constructor.
Qed.

Lemma forChildren_destroy (body : loc → heap → option heap) regions ptrs Fs h :
  Forall3 (λ region p Fc, slotRepr repr region p Fc h) regions ptrs Fs →
  disjointList Fs →
  (∀ child p Fc h0,
     Some child ∈ regions → repr child p Fc h0 →
     ∃ h1, body p h0 = Some h1 ∧ frame h0 h1 Fc ∅) →
  ∃ h', forChildren body ptrs h = Some h' ∧ frame h h' (⋃ Fs) ∅.
Proof.
  revert ptrs Fs h.
  induction regions as [|region regions IH]; intros ptrs Fs h Hall Hdisj Hbody.
  - inversion Hall; subst. exists h. split; [done|]. apply frame_refl.
  - apply Forall3_cons_inv_l in Hall as (p & ptrs' & Fc & Fs' & -> & -> & Hslot & Hall).
    rename ptrs' into ptrs. rename Fs' into Fs.
    destruct Hdisj as [Hd Hdisj].
    assert (∃ h1, match p with
                  | Some p => body p h
                  | None => Some h
                  end = Some h1 ∧ frame h h1 Fc ∅) as (h1 & Hstep & Hf1).
    { destruct region as [child|], p as [p|]; cbn [slotRepr] in Hslot; try done.
      - apply (Hbody child p Fc h); [left|done].
      - exists h. split; [done|]. subst Fc. apply frame_refl. }
    destruct (slots_framed _ _ _ _ _ _ _ Hall Hf1) as [Hall1 _]; [set_solver|].
    destruct (IH ptrs Fs h1 Hall1 Hdisj) as (h' & Hloop & Hf').
    { intros c q Fq h0 Hin. apply Hbody. by right. }
    exists h'. split; [by cbn [forChildren]; rewrite Hstep|].
    change (⋃ (Fc :: Fs)) with (Fc ∪ ⋃ Fs).
    apply (frame_trans h h1 h' _ (⋃ Fs) _).
    + apply (frame_shrink _ _ _ (⋃ Fs ∪ ∅)); [|set_solver].
      rewrite (union_comm_L Fc). apply frame_extend, Hf1.
    + done.
Qed.

Lemma deleteChildren_eq (n : Node) :
  deleteChildren n = mkNode (m_compare n) (quad_pure None) (m_data n).
Proof. unfold deleteChildren, set_regions. f_equal. apply deleteChildren_regions. Qed.

Lemma deleteChildrenWith_sim (clearChild : loc → heap → option heap) T :
  (∀ child, Some child ∈ quad_list (m_mapRegions T) →
            simulates clearChild child (clear child)) →
  simulates (deleteChildrenWith clearChild) T (deleteChildren T).
Proof.
  intros Hclear l F h HT.
  pose proof HT as HT'. apply repr_eq in HT' as (slots & Fs & Hl & -> & Hnl & Hd & Hall).
  unfold deleteChildrenWith. rewrite Hl. cbn [mbind option_bind c_regions].
  destruct (forChildren_destroy (λ p h, h ← clearChild p h; Some (delete p h))
              _ _ _ _ Hall Hd) as (h1 & -> & Hf1).
  { intros child p Fc h0 Hin Hc.
    destruct (Hclear child Hin p Fc h0 Hc) as (h1 & F1 & -> & _ & Hf).
    exists (delete p h1). split; [done|].
    apply (frame_shrink _ _ _ F1); [|set_solver].
    apply frame_delete; [done|]. by destruct (repr_lookup _ _ _ _ Hc) as (? & _ & ?). }
  cbn [mbind option_bind]. eexists _, {[l]}. split; [done|].
  assert (l ∈ dom h) as Hdom by (apply elem_of_dom; eauto).
  split.
  - rewrite deleteChildren_eq. apply repr_leaf.
    rewrite lookup_alter_eq. destruct Hf1 as [Hs _]. rewrite (Hs l Hdom Hnl), Hl.
    cbn. unfold c_setRegions. cbn. f_equal. f_equal.
    apply quad_ext. intros rc. rewrite quad_at_map, quad_at_pure.
    by destruct (quad_at rc slots).
  - apply frame_alter; [|set_solver].
    apply (frame_shrink _ _ _ ({[l]} ∪ ∅)); [|set_solver]. by apply frame_extend.
Qed.

Lemma h_clear_leaf fuel T :
  0 < fuel → hasChildren T = false → simulates (h_clear fuel) T (clear T).
Proof.
  intros Hfuel Hc l F h HT. destruct fuel as [|fuel]; [lia|].
  pose proof HT as HT'. apply repr_eq in HT' as (slots & Fs & Hl & -> & Hnl & Hd & Hall).
  cbn [h_clear]. rewrite Hl. cbn [mbind option_bind].
  rewrite (repr_hasChildren T h slots Fs), Hc by done. cbn [mbind option_bind].
  destruct (repr_alter _ _ _ _ (c_setData ∅) (m_compare T) ∅ HT) as [HT2 Hf2]; [done|].
  eexists _, _. split; [done|]. split; [|done].
  rewrite clear_eq. by rewrite (proj1 (hasChildren_false_pure T) Hc) in HT2.
Qed.

Lemma h_clear_sim fuel T :
  weight T ≤ fuel → simulates (h_clear fuel) T (clear T).
Proof.
  revert fuel. induction T as [T IH] using Node_ind. intros fuel Hfuel.
  destruct (hasChildren T) eqn:Hc.
  2:{ apply h_clear_leaf; [|done]. pose proof (weight_pos T). lia. }
  intros l F h HT.
  destruct fuel as [|fuel]; [pose proof (weight_pos T); lia|].
  pose proof HT as HT'. apply repr_eq in HT' as (slots & Fs & Hl & -> & Hnl & Hd & Hall).
  cbn [h_clear]. rewrite Hl. cbn [mbind option_bind].
  rewrite (repr_hasChildren T h slots Fs), Hc by done. cbn [c_regions].
  assert (0 < fuel) as Hpos.
  { apply hasChildren_true in Hc as (rc & child & E).
    assert (Some child ∈ quad_list (m_mapRegions T)) as Hin
      by (apply child_in_slots; eauto).
    pose proof (weight_child _ _ Hin). pose proof (weight_pos child). lia. }
  destruct (forChildren_sim (h_clear fuel) (λ child child', child' = clear child)
              _ _ _ _ _ Hall Hd (option_map_Forall2 clear _))
    as (h1 & Fs1 & -> & Hall1 & Hd1 & Hf1).
  { intros child child' p Fc h0 Hin -> Hc0. pose proof (weight_child _ _ Hin).
    apply child_in_slots in Hin as [rc E]. eapply IH; [done| |done]. lia. }
  cbn [mbind option_bind].
  rewrite <-quad_list_map in Hall1.
  destruct (node_after_loop _ _ _ _ _ _ _ _ _ Hl Hnl Hf1 Hall1 Hd1) as (HT1 & Hf1' & _).
  match type of HT1 with
  | repr ?T1 _ _ _ =>
      assert (∀ child, Some child ∈ quad_list (m_mapRegions T1) →
                       simulates (h_clear fuel) child (clear child)) as Hk
  end.
  { cbn [m_mapRegions]. intros child Hin. rewrite quad_list_map in Hin.
    apply list_elem_of_fmap in Hin as ([c0|] & Heq & _); [|done].
    injection Heq as ->. apply h_clear_leaf; [done|]. by rewrite clear_eq. }
  destruct (deleteChildrenWith_sim _ _ Hk _ _ _ HT1) as (h2 & F2 & -> & HT2 & Hf2).
  cbn [mbind option_bind].
  destruct (repr_alter _ _ _ _ (c_setData ∅) (m_compare T) ∅ HT2) as [HT3 Hf3]; [done|].
  eexists _, _. split; [done|]. split.
  - rewrite clear_eq. rewrite deleteChildren_regions in HT3. exact HT3.
  - eapply frame_trans; [|exact Hf3]. eapply frame_trans; [exact Hf1'|exact Hf2].
Qed.

(** ** The copy constructor *)

Lemma quad_at_set {A} rc rc' (a : A) (q : Quad A) :
  quad_at rc (quad_set rc' a q) = if decide (rc' = rc) then a else quad_at rc q.
Proof. destruct rc, rc'; done. Qed.

Lemma repr_with_region T this F h rc child dst F1 :
  repr T this F h →
  quad_at rc (m_mapRegions T) = None →
  repr child dst F1 h →
  F1 ## F →
  repr (withRegion rc (Some child) T) this (F ∪ F1)
       (alter (λ c, c_setRegions (quad_set rc (Some dst) (c_regions c)) c) this h).
Proof.
  intros HT Hnone Hc Hdisj.
  apply repr_eq in HT as (slots & Fs & Hl & -> & Hnl & Hd & Hall).
  set (h' := alter _ this h).
  assert (∀ x, x ≠ this → h' !! x = h !! x) as Hsame.
  { intros x Hx. apply lookup_alter_ne. done. }
  assert (this ∉ F1) as Hthis by set_solver.
  assert (repr child dst F1 h') as Hc'.
  { apply (repr_frame _ _ _ _ _ Hc). intros x Hx. apply Hsame. by intros ->. }
  assert (Forall3 (λ region p Fc, slotRepr repr region p Fc h')
            (quad_list (m_mapRegions T)) (quad_list slots) (quad_list Fs)) as Hall'.
  { apply (slots_frame' _ _ _ _ _ Hall). intros x Hx. apply Hsame. by intros ->. }
  apply repr_eq. exists (quad_set rc (Some dst) slots), (quad_set rc F1 Fs).
  split; [by subst h'; rewrite lookup_alter_eq, Hl|].
  destruct T as [c [ul ur ll lr] d], slots as [s1 s2 s3 s4], Fs as [F1' F2' F3' F4'].
  unfold withRegion. cbn [m_mapRegions m_compare m_data] in *.
  unfold quad_list in *. cbn [q_ul q_ur q_ll q_lr] in *.
  apply Forall3_cons_inv_l in Hall' as (? & ? & ? & ? & [= <- <-] & [= <- <-] & H1 & Hall').
  apply Forall3_cons_inv_l in Hall' as (? & ? & ? & ? & [= <- <-] & [= <- <-] & H2 & Hall').
  apply Forall3_cons_inv_l in Hall' as (? & ? & ? & ? & [= <- <-] & [= <- <-] & H3 & Hall').
  apply Forall3_cons_inv_l in Hall' as (? & ? & ? & ? & [= <- <-] & [= <- <-] & H4 & Hall').
  cbn in Hd, Hnl.
  destruct rc; cbn [quad_at quad_set q_ul q_ur q_ll q_lr] in *; subst.
  - destruct s1; [done|]. cbn [slotRepr] in H1. subst.
    split; [set_solver|]. split; [set_solver|]. split; [cbn; set_solver|].
    repeat (constructor; [done|]). constructor.
  - destruct s2; [done|]. cbn [slotRepr] in H2. subst.
    split; [set_solver|]. split; [set_solver|]. split; [cbn; set_solver|].
    repeat (constructor; [done|]). constructor.
  - destruct s3; [done|]. cbn [slotRepr] in H3. subst.
    split; [set_solver|]. split; [set_solver|]. split; [cbn; set_solver|].
    repeat (constructor; [done|]). constructor.
  - destruct s4; [done|]. cbn [slotRepr] in H4. subst.
    split; [set_solver|]. split; [set_solver|]. split; [cbn; set_solver|].
    repeat (constructor; [done|]). constructor.
Qed.

Lemma withRegion_None rc T :
  quad_at rc (m_mapRegions T) = None → withRegion rc None T = T.
Proof.
  intros Hnone. rewrite (Node_eta T) at 2. unfold withRegion. f_equal.
  apply quad_ext. intros rc'. rewrite quad_at_set. case_decide; congruence.
Qed.

Lemma copyChildren_sim (copyChild : loc → heap → option (loc * heap)) this
    (items : list (RegionCode * option loc)) (kids : list (option Node)) T F h :
  NoDup (items.*1) →
  repr T this F h →
  (∀ item, item ∈ items → quad_at item.1 (m_mapRegions T) = None) →
  Forall2 (λ (item : RegionCode * option loc) (region : option Node),
             match region, item.2 with
             | Some child, Some p =>
                 ∃ Fc, repr child p Fc h ∧ Fc ## F ∧ copies copyChild child
             | None, None => True
             | _, _ => False
             end) items kids →
  ∃ h' F',
    copyChildren copyChild this items h = Some h'
    ∧ repr (foldl (λ T (ik : RegionCode * option loc * option Node),
                     withRegion ik.1.1 ik.2 T) T (zip items kids)) this F' h'
    ∧ frame h h' F F'.
Proof.
  revert kids T F h.
  induction items as [|[rc p] items IH]; intros kids T F h Hnodup HT Hnone Hkids.
  - apply Forall2_nil_inv_l in Hkids as ->. exists h, F. split; [done|].
    split; [done|]. apply frame_refl.
  - apply Forall2_cons_inv_l in Hkids as (region & kids' & Hhead & Hkids & ->).
    rewrite fmap_cons in Hnodup. apply NoDup_cons in Hnodup as [Hrc Hnodup].
    cbn [fst snd] in *.
    assert (quad_at rc (m_mapRegions T) = None) as Hslot by (apply (Hnone (rc, p)); left).
    destruct region as [child|], p as [p|]; try done.
    + destruct Hhead as (Fc & Hc & Hdisj & Hcopy).
      destruct (Hcopy p Fc h Hc) as (dst & h1 & F1 & Hrun & Hdst & Hf1).
      destruct (repr_framed _ _ _ _ _ _ _ HT Hf1) as [HT1 HdT]; [set_solver|].
      pose proof (repr_with_region _ _ _ _ rc _ _ _ HT1 Hslot Hdst) as HT2.
      set (h2 := alter (λ c, c_setRegions (quad_set rc (Some dst) (c_regions c)) c)
                       this h1) in *.
      assert (frame h h2 F (F ∪ F1)) as Hf2.
      { apply frame_alter; [|by destruct (repr_lookup _ _ _ _ HT) as (? & _ & ?)].
        rewrite <-(union_empty_r_L F) at 1. by apply frame_extend. }
      destruct (IH kids' (withRegion rc (Some child) T) (F ∪ F1) h2 Hnodup)
        as (h' & F' & Hloop & HT' & Hf').
      * apply HT2. set_solver.
      * intros item Hin. cbn [withRegion m_mapRegions]. rewrite quad_at_set.
        case_decide as Heq; [|apply Hnone; by right].
        exfalso. apply Hrc. subst rc. by apply list_elem_of_fmap_2.
      * eapply Forall2_impl; [exact Hkids|].
        intros [rc' p'] region'. cbn [snd].
        destruct region' as [child'|], p' as [p'|]; try done.
        intros (Fc' & Hc' & Hd' & Hcopy').
        destruct (repr_framed _ _ _ _ _ _ _ Hc' Hf2) as [Hc2 Hd2]; [done|].
        eauto.
      * exists h', F'. split.
        { cbn [copyChildren]. rewrite Hrun. cbn [mbind option_bind]. exact Hloop. }
        split; [exact HT'|]. by eapply frame_trans.
    + destruct (IH kids' T F h Hnodup HT) as (h' & F' & Hloop & HT' & Hf').
      * intros item Hin. apply Hnone. by right.
      * exact Hkids.
      * exists h', F'. split; [done|]. split; [|done].
        cbn [zip zip_with foldl fst snd]. by rewrite withRegion_None.
Qed.

Lemma h_copyNode_sim fuel T : weight T ≤ fuel → copies (h_copyNode fuel) T.
Proof.
  revert fuel. induction T as [T IH] using Node_ind. intros fuel Hfuel src F h HT.
  destruct fuel as [|fuel]; [pose proof (weight_pos T); lia|].
  pose proof HT as HT'. apply repr_eq in HT' as (slots & Fs & Hl & -> & Hnl & Hd & Hall).
  cbn [h_copyNode]. rewrite Hl. cbn [mbind option_bind c_compare c_data c_regions].
  set (this := fresh (dom h)).
  assert (this ∉ dom h) as Hfresh by apply is_fresh.
  set (h0 := <[this := mkCell (m_compare T) (quad_pure None) (m_data T)]> h).
  assert (frame h h0 ∅ {[this]}) as Hf0.
  { rewrite <-(union_empty_r_L {[this]}). apply frame_insert_fresh; [apply frame_refl|done]. }
  assert (repr (mkNode (m_compare T) (quad_pure None) (m_data T)) this {[this]} h0) as H0.
  { apply repr_leaf. subst h0. by rewrite lookup_insert_eq. }
  destruct (copyChildren_sim (h_copyNode fuel) this (quad_items slots)
              (quad_list (m_mapRegions T))
              (mkNode (m_compare T) (quad_pure None) (m_data T)) {[this]} h0)
    as (h' & F' & Hloop & HT1 & Hf1).
  - destruct slots. cbn. repeat (apply NoDup_cons; split; [set_solver|]). apply NoDup_nil_2.
  - exact H0.
  - intros item _. cbn. apply quad_at_pure.
  - pose proof (slots_dom' _ _ _ _ Hall) as Hdom.
    assert (Forall3 (λ region p Fc, slotRepr repr region p Fc h0)
              (quad_list (m_mapRegions T)) (quad_list slots) (quad_list Fs)) as Hall0.
    { apply (slots_framed _ _ _ _ _ _ _ Hall Hf0). set_solver. }
    assert (∀ child, Some child ∈ quad_list (m_mapRegions T) →
                     copies (h_copyNode fuel) child) as Hkids.
    { intros child Hin. pose proof (weight_child _ _ Hin).
      apply child_in_slots in Hin as [rc E]. eapply IH; [done|]. lia. }
    assert (⋃ (quad_list Fs) ## ({[this]} : gset loc)) as Hd0 by set_solver.
    clear -Hall0 Hkids Hd0.
    destruct (m_mapRegions T) as [r1 r2 r3 r4], slots as [s1 s2 s3 s4],
      Fs as [F1 F2 F3 F4].
    unfold quad_list, quad_items in *. cbn [q_ul q_ur q_ll q_lr] in *.
    apply Forall3_cons_inv_l in Hall0 as (? & ? & ? & ? & [= <- <-] & [= <- <-] & H1 & Hall0).
    apply Forall3_cons_inv_l in Hall0 as (? & ? & ? & ? & [= <- <-] & [= <- <-] & H2 & Hall0).
    apply Forall3_cons_inv_l in Hall0 as (? & ? & ? & ? & [= <- <-] & [= <- <-] & H3 & Hall0).
    apply Forall3_cons_inv_l in Hall0 as (? & ? & ? & ? & [= <- <-] & [= <- <-] & H4 & Hall0).
    cbn in Hd0.
    repeat constructor; cbn [snd].
    + destruct r1, s1; cbn [slotRepr] in H1; try done.
      eexists. split; [done|]. split; [set_solver|]. apply Hkids. set_solver.
    + destruct r2, s2; cbn [slotRepr] in H2; try done.
      eexists. split; [done|]. split; [set_solver|]. apply Hkids. set_solver.
    + destruct r3, s3; cbn [slotRepr] in H3; try done.
      eexists. split; [done|]. split; [set_solver|]. apply Hkids. set_solver.
    + destruct r4, s4; cbn [slotRepr] in H4; try done.
      eexists. split; [done|]. split; [set_solver|]. apply Hkids. set_solver.
  - rewrite Hloop. cbn [mbind option_bind]. exists this, h', F'. split; [done|]. split.
    + rewrite (Node_eta T) at 1. destruct (m_mapRegions T), slots. exact HT1.
    + apply (frame_trans _ h0 _ _ {[this]}); [done|].
      eapply frame_grow; [exact Hf1|set_solver].
Qed.

Lemma h_copyTree_sim T : copies h_copyTree T.
Proof.
  intros src F h HT. unfold h_copyTree.
  eapply h_copyNode_sim; [|done]. by eapply repr_fuel.
Qed.

(** ** The steps of [rebalance] *)

Lemma h_deleteChildren_sim T :
  simulates (λ l h, h_deleteChildren (size h) l h) T (deleteChildren T).
Proof.
  intros l F h HT. pose proof (repr_fuel _ _ _ _ HT) as Hfuel.
  apply (deleteChildrenWith_sim (h_clear (size h)) T); [|done].
  intros child Hin. apply h_clear_sim. pose proof (weight_child _ _ Hin). lia.
Qed.

Lemma h_childCompares_sim T l F h :
  repr T l F h → isBranch T = true → h_childCompares l h = Some (slotCompares T).
Proof.
  intros HT Hb. apply repr_eq in HT as (slots & Fs & Hl & -> & Hnl & Hd & Hall).
  unfold h_childCompares. rewrite Hl. cbn [mbind option_bind c_regions].
  rewrite isBranch_true in Hb.
  pose proof (Hb UPPER_LEFT) as [c1 E1]. pose proof (Hb UPPER_RIGHT) as [c2 E2].
  pose proof (Hb LOWER_LEFT) as [c3 E3]. pose proof (Hb LOWER_RIGHT) as [c4 E4].
  unfold slotCompares.
  destruct (m_mapRegions T) as [r1 r2 r3 r4], slots as [s1 s2 s3 s4],
    Fs as [F1 F2 F3 F4].
  unfold quad_list in Hall. cbn [quad_at q_ul q_ur q_ll q_lr quad_map] in *. subst.
  apply Forall3_cons_inv_l in Hall as (? & ? & ? & ? & [= <- <-] & [= <- <-] & H1 & Hall).
  apply Forall3_cons_inv_l in Hall as (? & ? & ? & ? & [= <- <-] & [= <- <-] & H2 & Hall).
  apply Forall3_cons_inv_l in Hall as (? & ? & ? & ? & [= <- <-] & [= <- <-] & H3 & Hall).
  apply Forall3_cons_inv_l in Hall as (? & ? & ? & ? & [= <- <-] & [= <- <-] & H4 & Hall).
  destruct s1 as [p1|], s2 as [p2|], s3 as [p3|], s4 as [p4|]; try done.
  cbn [slotRepr] in *.
  destruct (repr_lookup _ _ _ _ H1) as (? & L1 & _).
  destruct (repr_lookup _ _ _ _ H2) as (? & L2 & _).
  destruct (repr_lookup _ _ _ _ H3) as (? & L3 & _).
  destruct (repr_lookup _ _ _ _ H4) as (? & L4 & _).
  cbv zeta. cbn [mbind option_bind]. rewrite L1. cbn [fmap option_fmap option_map mbind option_bind].
  rewrite L2. cbn [fmap option_fmap option_map mbind option_bind].
  rewrite L3. cbn [fmap option_fmap option_map mbind option_bind].
  rewrite L4. done.
Qed.

Lemma writeThrough_slots regions ptrs Fs (quads : list NodeCompare) h :
  Forall3 (λ region p Fc, slotRepr repr region p Fc h) regions ptrs Fs →
  disjointList Fs →
  Forall3 (λ region p Fc, slotRepr repr region p Fc (writeThrough (zip ptrs quads) h))
          (zip_with (λ (region : option Node) quad,
                       match region with
                       | Some child => Some (setCompare quad child)
                       | None => None
                       end) regions quads) (take (length quads) ptrs)
          (take (length quads) Fs)
  ∧ frame h (writeThrough (zip ptrs quads) h) (⋃ Fs) (⋃ Fs).
Proof.
  revert ptrs Fs quads h.
  induction regions as [|region regions IH]; intros ptrs Fs quads h Hall Hdisj.
  - inversion Hall; subst. cbn. rewrite !take_nil. split; [constructor|apply frame_refl].
  - apply Forall3_cons_inv_l in Hall as (p & ptrs' & Fc & Fs' & -> & -> & Hslot & Hall).
    rename ptrs' into ptrs. rename Fs' into Fs. destruct Hdisj as [Hd Hdisj].
    destruct quads as [|quad quads].
    { cbn. split; [constructor|apply frame_refl]. }
    cbn [zip zip_with length take].
    pose proof (slots_dom' _ _ _ _ Hall) as Hdom.
    destruct region as [child|], p as [p|]; cbn [slotRepr] in Hslot; try done.
    + destruct (repr_alter _ _ _ _ (c_setCompare quad) quad (m_data child) Hslot)
        as [Hc1 Hf1]; [done|].
      set (h1 := alter (c_setCompare quad) p h) in *.
      destruct (slots_framed _ _ _ _ _ _ _ Hall Hf1) as [Hall1 Hd1]; [set_solver|].
      destruct (IH ptrs Fs quads h1 Hall1 Hdisj) as [Hall' Hf'].
      cbn [writeThrough]. fold h1. split.
      * constructor; [|done]. cbn [slotRepr].
        apply (repr_framed _ _ _ _ _ _ _ Hc1 Hf'). set_solver.
      * change (⋃ (Fc :: Fs)) with (Fc ∪ ⋃ Fs).
        apply (frame_trans h h1 _ _ (Fc ∪ ⋃ Fs) _).
        -- rewrite (union_comm_L Fc). apply frame_extend, Hf1.
        -- apply frame_extend, Hf'.
    + destruct (IH ptrs Fs quads h Hall Hdisj) as [Hall' Hf'].
      cbn [writeThrough]. split.
      * constructor; done.
      * subst Fc. change (⋃ (∅ :: Fs)) with (∅ ∪ ⋃ Fs).
        by rewrite (union_empty_l_L (C := gset loc)).
Qed.

Lemma h_writeThrough_sim (mapQuads : Quad NodeCompare) T :
  simulates (h_writeThrough mapQuads) T (writeCompares mapQuads T).
Proof.
  intros l F h HT. pose proof HT as HT'.
  apply repr_eq in HT' as (slots & Fs & Hl & -> & Hnl & Hd & Hall).
  unfold h_writeThrough. rewrite Hl. cbn [mbind option_bind c_regions].
  destruct (writeThrough_slots _ _ _ (quad_list mapQuads) _ Hall Hd) as [Hall' Hf].
  rewrite !firstn_all2 in Hall' by (cbn; lia).
  eexists _, _. split; [done|].
  assert (l ∈ dom h) as Hdom by (apply elem_of_dom; eauto).
  assert (quad_list (m_mapRegions (writeCompares mapQuads T))
          = zip_with (λ (region : option Node) quad,
                       match region with
                       | Some child => Some (setCompare quad child)
                       | None => None
                       end) (quad_list (m_mapRegions T)) (quad_list mapQuads)) as Hregions.
  { unfold writeCompares, set_regions. cbn [m_mapRegions].
    by destruct (m_mapRegions T), mapQuads. }
  rewrite <-Hregions in Hall'.
  destruct (node_after_loop (m_compare T) (m_data T)
              (m_mapRegions (writeCompares mapQuads T)) _ _ _ _ _ _ Hl Hnl Hf Hall' Hd)
    as (HT1 & Hf1 & _).
  split; [|done]. by rewrite (Node_eta (writeCompares mapQuads T)).
Qed.

Lemma weight_add val T : weight (add val T) = weight T.
Proof.
  induction T as [T IH] using Node_ind. rewrite !weight_eq. f_equal.
  assert (∀ rc, from_option weight 0 (quad_at rc (m_mapRegions (add val T)))
                = from_option weight 0 (quad_at rc (m_mapRegions T))) as Hrc.
  { intros rc. rewrite add_regions.
    destruct (quad_at rc (m_mapRegions T)) as [child|] eqn:E; [|done].
    cbn [from_option]. destruct (satisfies _ _); [|done]. by apply (IH rc). }
  pose proof (Hrc UPPER_LEFT) as H1. pose proof (Hrc UPPER_RIGHT) as H2.
  pose proof (Hrc LOWER_LEFT) as H3. pose proof (Hrc LOWER_RIGHT) as H4.
  unfold quad_list. cbn [quad_at fmap list_fmap] in *. by rewrite H1, H2, H3, H4.
Qed.

Lemma h_addAll_fuel_sim fuel (vals : list Value) T :
  weight T ≤ fuel →
  simulates (h_addAll fuel vals) T (foldl (λ acc thisVal, add thisVal acc) T vals).
Proof.
  revert T. induction vals as [|val vals IH]; intros T Hfuel l F h HT.
  - exists h, F. split; [done|]. split; [done|]. apply frame_refl.
  - destruct (h_add_sim fuel val T Hfuel l F h HT) as (h1 & F1 & Hrun & HT1 & Hf1).
    destruct (IH (add val T)) with (l := l) (F := F1) (h := h1)
      as (h' & F' & Hloop & HT' & Hf'); [by rewrite weight_add|done|].
    exists h', F'. split; [by cbn [h_addAll]; rewrite Hrun|]. split; [done|].
    by eapply frame_trans.
Qed.

Lemma h_addAll_sim (vals : SetValue) T :
  simulates (λ l h, h_addAll (size h) (elements vals) l h) T (addAll vals T).
Proof.
  intros l F h HT. apply h_addAll_fuel_sim; [|done]. by eapply repr_fuel.
Qed.

Lemma repr_slots T l F h :
  repr T l F h →
  ∃ slots : Quad (option loc),
    h !! l = Some (mkCell (m_compare T) slots (m_data T))
    ∧ ∀ rc, quad_at rc (m_mapRegions T) = None → quad_at rc slots = None.
Proof.
  destruct T as [c regs d]. cbn [repr m_compare m_mapRegions m_data].
  intros (slots & Fs & Hl & _ & _ & _ & H1 & H2 & H3 & H4).
  exists slots. split; [done|]. intros [] Hnone; cbn [quad_at] in *.
  - rewrite Hnone in H1. by destruct (q_ul slots).
  - rewrite Hnone in H2. by destruct (q_ur slots).
  - rewrite Hnone in H3. by destruct (q_ll slots).
  - rewrite Hnone in H4. by destruct (q_lr slots).
Qed.

Lemma createChildren_loop this (items : list (RegionCode * NodeCompare)) T F h :
  NoDup (items.*1) →
  repr T this F h →
  (∀ item, item ∈ items → quad_at item.1 (m_mapRegions T) = None) →
  ∃ h' F',
    createChildren this items h = Some h'
    ∧ repr (foldl (λ T (item : RegionCode * NodeCompare),
                     withRegion item.1 (Some (setCompare item.2 newNode)) T) T items)
           this F' h'
    ∧ frame h h' F F'.
Proof.
  revert T F h. induction items as [|[rc quad] items IH]; intros T F h Hnodup HT Hnone.
  - exists h, F. split; [done|]. split; [done|]. apply frame_refl.
  - rewrite fmap_cons in Hnodup. apply NoDup_cons in Hnodup as [Hrc Hnodup].
    cbn [fst snd] in *.
    assert (quad_at rc (m_mapRegions T) = None) as Hslot
      by (apply (Hnone (rc, quad)); left).
    destruct (repr_slots _ _ _ _ HT) as (slots & Hl & Hslots).
    pose proof (repr_dom _ _ _ _ HT) as Hdom.
    destruct (repr_lookup _ _ _ _ HT) as (_ & _ & Hthis).
    cbn [createChildren]. rewrite Hl. cbn [mbind option_bind c_regions].
    rewrite (Hslots rc Hslot).
    set (p := fresh (dom h)).
    assert (p ∉ dom h) as Hfresh by apply is_fresh.
    assert (p ≠ this) as Hne by (intros ->; set_solver).
    set (h0 := <[p := mkCell quad (quad_pure None) ∅]> h).
    assert (alter (c_setCompare quad) p
              (alter (λ c, c_setRegions (quad_set rc (Some p) (c_regions c)) c) this
                     (<[p := c_new]> h))
            = alter (λ c, c_setRegions (quad_set rc (Some p) (c_regions c)) c) this h0)
      as ->.
    { subst h0. apply map_eq. intros x. destruct (decide (x = p)) as [->|Hxp].
      - rewrite lookup_alter_eq, !(lookup_alter_ne _ _ this p), !lookup_insert_eq by done.
        done.
      - rewrite (lookup_alter_ne _ _ p x) by done.
        destruct (decide (x = this)) as [->|Hxt].
        + by rewrite !lookup_alter_eq, !lookup_insert_ne.
        + by rewrite !lookup_alter_ne, !lookup_insert_ne. }
    assert (frame h h0 F (F ∪ {[p]})) as Hf0.
    { rewrite (union_comm_L F). apply frame_insert_fresh; [apply frame_refl|done]. }
    assert (repr T this F h0) as HT0.
    { apply (repr_frame _ _ _ _ _ HT). intros x Hx. subst h0.
      apply lookup_insert_ne. intros ->. set_solver. }
    assert (repr (setCompare quad newNode) p {[p]} h0) as Hc0.
    { apply (repr_leaf quad ∅). subst h0. by rewrite lookup_insert_eq. }
    pose proof (repr_with_region _ _ _ _ rc _ _ _ HT0 Hslot Hc0) as HT1.
    set (h1 := alter _ this h0) in *.
    destruct (IH (withRegion rc (Some (setCompare quad newNode)) T) (F ∪ {[p]}) h1 Hnodup)
      as (h' & F' & Hloop & HT' & Hf').
    + apply HT1. set_solver.
    + intros item Hin. cbn [withRegion m_mapRegions]. rewrite quad_at_set.
      case_decide as Heq; [|apply Hnone; by right].
      exfalso. apply Hrc. subst rc. by apply list_elem_of_fmap_2.
    + exists h', F'. split; [done|]. split; [done|].
      eapply frame_trans; [|exact Hf']. by apply frame_alter.
Qed.

Lemma createChildren_sim (mapQuads : Quad NodeCompare) T :
  hasChildren T = false →
  simulates (λ l h, createChildren l (quad_items mapQuads) h) T (buildChildren mapQuads T).
Proof.
  intros Hc l F h HT.
  destruct (createChildren_loop l (quad_items mapQuads) T F h) as (h' & F' & Hrun & HT' & Hf).
  - destruct mapQuads. cbn.
    repeat (apply NoDup_cons; split; [set_solver|]). apply NoDup_nil_2.
  - done.
  - intros item _. by apply hasChildren_false.
  - exists h', F'. split; [done|]. split; [|done].
    replace (buildChildren mapQuads T) with
      (foldl (λ T (item : RegionCode * NodeCompare),
                withRegion item.1 (Some (setCompare item.2 newNode)) T) T
             (quad_items mapQuads)); [done|].
    unfold buildChildren, set_regions. apply hasChildren_false_pure in Hc. rewrite Hc.
    by destruct mapQuads.
Qed.

Lemma h_rebalanceChildren_sim (rec_h : loc → heap → option heap)
    (rec_p : Node → outcome Node) T T' :
  (∀ child child', Some child ∈ quad_list (m_mapRegions T) →
                   rec_p child = Done child' → simulates rec_h child child') →
  rebalanceChildren rec_p T = Done T' →
  simulates (h_rebalanceChildren rec_h) T T'.
Proof.
  intros Hrec Hreb l F h HT.
  apply rebalanceChildren_Done in Hreb as (Hc & Hd & Hr).
  pose proof HT as HT0.
  apply repr_eq in HT0 as (slots & Fs & Hl & -> & Hnl & Hdisj & Hall).
  unfold h_rebalanceChildren. rewrite Hl. cbn [mbind option_bind c_regions].
  assert (Forall2 (option_Forall2 (λ child child', rec_p child = Done child'))
            (quad_list (m_mapRegions T)) (quad_list (m_mapRegions T'))) as Hrel.
  { pose proof (Hr UPPER_LEFT) as H1. pose proof (Hr UPPER_RIGHT) as H2.
    pose proof (Hr LOWER_LEFT) as H3. pose proof (Hr LOWER_RIGHT) as H4.
    destruct (m_mapRegions T) as [r1 r2 r3 r4], (m_mapRegions T') as [r1' r2' r3' r4'].
    unfold quad_list. cbn [quad_at q_ul q_ur q_ll q_lr] in *.
    repeat constructor.
    - destruct r1; [destruct H1 as (? & ? & ->)|subst]; by constructor.
    - destruct r2; [destruct H2 as (? & ? & ->)|subst]; by constructor.
    - destruct r3; [destruct H3 as (? & ? & ->)|subst]; by constructor.
    - destruct r4; [destruct H4 as (? & ? & ->)|subst]; by constructor. }
  destruct (forChildren_sim rec_h _ _ _ _ _ _ Hall Hdisj Hrel)
    as (h' & Fs' & Hloop & Hall' & Hdisj' & Hf).
  { intros child child' p Fc h0 Hin HΦ Hc0. by eapply Hrec. }
  destruct (node_after_loop _ _ _ _ _ _ _ _ _ Hl Hnl Hf Hall' Hdisj') as (HT1 & Hf1 & _).
  eexists _, _. split; [done|]. split; [|done].
  by rewrite (Node_eta T'), Hc, Hd.
Qed.

(** ** [rebalance] *)

Lemma h_rebalance_sim fuel T T' :
  rebalance fuel T = Done T' → simulates (h_rebalance fuel) T T'.
Proof.
  revert T T'. induction fuel as [|fuel IH]; intros T T' Hreb; [done|].
  intros l F h HT.
  destruct (repr_lookup _ _ _ _ HT) as (slots & Hl & _).
  pose proof HT as HT0.
  apply repr_eq in HT0 as (slots0 & Fs & Hl0 & HF & _ & _ & Hall).
  rewrite Hl in Hl0. injection Hl0 as <-.
  cbn [h_rebalance]. rewrite Hl. cbn [mbind option_bind].
  rewrite (h_getAllChildValues_sim (size h) T l F h) by (done || by eapply repr_fuel).
  cbn [mbind option_bind c_compare].
  rewrite (repr_hasChildren T h slots Fs) by done.
  fold (survivors T).
  destruct (repr_alter _ _ _ _ (c_setData ∅) (m_compare T) ∅ HT) as [HTa Hfa]; [done|].
  change (mkNode (m_compare T) (m_mapRegions T) ∅) with (set_data ∅ T) in HTa.
  set (ha := alter (c_setData ∅) l h) in *.
  rewrite rebalance_eq in Hreb. cbv zeta in Hreb.
  change (hasChildren (set_data ∅ T)) with (hasChildren T) in Hreb.
  change (m_compare (set_data ∅ T)) with (m_compare T) in Hreb.
  assert (∀ (op : loc → heap → option heap),
            simulates op (set_data ∅ T) T' →
            ∃ h' F', op l ha = Some h' ∧ repr T' l F' h' ∧ frame h h' F F') as Hfinish.
  { intros op Hop. destruct (Hop l F ha HTa) as (h' & F' & Hrun & HT' & Hf').
    exists h', F'. split; [done|]. split; [done|]. by eapply frame_trans. }
  destruct (hasChildren T) eqn:Hc.
  - destruct (decide (size (survivors T) ≤ g_minDataSize)) as [Hsz|Hsz].
    + injection Hreb as <-.
      apply (Hfinish (λ l h, h ← h_deleteChildren (size h) l h;
                             Some (alter (c_setData (survivors T)) l h))).
      eapply simulates_seq; [apply h_deleteChildren_sim|].
      by apply (simulates_alter (deleteChildren (set_data ∅ T))).
    + destruct (childCompares (set_data ∅ T)) as [quads| |] eqn:Hq; [|done..].
      pose proof (childCompares_Done _ _ Hq) as Hb.
      rewrite (childCompares_branch _ Hb) in Hq. injection Hq as <-.
      rewrite (h_childCompares_sim _ _ _ _ HTa Hb).
      cbn [mbind option_bind outcome_bind] in *.
      set (mapQuads := buildQuadrantsFromData (m_compare T) (survivors T)
                         (slotCompares (set_data ∅ T))) in *.
      destruct (shouldSubdivide (survivors T) mapQuads).
      * apply (Hfinish (λ l h, h ← h_writeThrough mapQuads l h;
                               h ← h_addAll (size h) (elements (survivors T)) l h;
                               h_rebalanceChildren (h_rebalance fuel) l h)).
        eapply simulates_seq; [apply h_writeThrough_sim|].
        eapply (simulates_seq (λ l h, h_addAll (size h) (elements (survivors T)) l h));
          [apply h_addAll_sim|].
        eapply h_rebalanceChildren_sim; [|exact Hreb]. intros child child' _. apply IH.
      * injection Hreb as <-.
        apply (Hfinish (λ l h, h ← h_writeThrough mapQuads l h;
                               h ← h_deleteChildren (size h) l h;
                               Some (alter (c_setData (survivors T)) l h))).
        eapply simulates_seq; [apply h_writeThrough_sim|].
        eapply (simulates_seq (λ l h, h_deleteChildren (size h) l h));
          [apply h_deleteChildren_sim|].
        by apply (simulates_alter (deleteChildren (writeCompares mapQuads (set_data ∅ T)))).
  - destruct (decide (size (survivors T) ≤ g_minDataSize)) as [Hsz|Hsz].
    + injection Hreb as <-.
      apply (Hfinish (λ l h, Some (alter (c_setData (survivors T)) l h))).
      by apply (simulates_alter (set_data ∅ T)).
    + set (mapQuads := buildQuadrantsFromData (m_compare T) (survivors T)
                         (quad_pure nilCompare)) in *.
      destruct (shouldSubdivide (survivors T) mapQuads).
      * apply (Hfinish (λ l h, h ← createChildren l (quad_items mapQuads) h;
                               h ← h_addAll (size h) (elements (survivors T)) l h;
                               h_rebalanceChildren (h_rebalance fuel) l h)).
        eapply (simulates_seq (λ l h, createChildren l (quad_items mapQuads) h));
          [by apply createChildren_sim|].
        eapply (simulates_seq (λ l h, h_addAll (size h) (elements (survivors T)) l h));
          [apply h_addAll_sim|].
        eapply h_rebalanceChildren_sim; [|exact Hreb]. intros child child' _. apply IH.
      * injection Hreb as <-.
        apply (Hfinish (λ l h, Some (alter (c_setData (survivors T)) l h))).
        by apply (simulates_alter (set_data ∅ T)).
Qed.

(** ** The facade in memory *)

Lemma h_buildRootRegion_sim T :
  simulates (λ l h, h_buildRootRegion (size h) l h) T (buildRootRegion T).
Proof.
  intros l F h HT. unfold h_buildRootRegion.
  rewrite (h_getAllChildValues_sim (size h) T l F h) by (done || by eapply repr_fuel).
  cbn [mbind option_bind].
  by apply (simulates_alter T (c_setCompare (buildRegionFromData (getAllChildValues T)))).
Qed.

Lemma h_tree_rebalance_sim fuel T T' :
  rebalance fuel (buildRootRegion T) = Done T' →
  simulates (h_tree_rebalance fuel) T T'.
Proof.
  intros Hreb. unfold h_tree_rebalance.
  eapply (simulates_seq (λ l h, h_buildRootRegion (size h) l h));
    [apply h_buildRootRegion_sim|]. by apply h_rebalance_sim.
Qed.

Lemma h_mutate_sim fuel (m : mutation) (t t' : SearchTree2D) :
  perform fuel (toOperation m) t = Done t' →
  simulates (h_mutate fuel m) (m_tree t) (m_tree t').
Proof.
  destruct m as [val|val| |]; cbn [toOperation perform h_mutate].
  - intros [= <-] l F h HT. apply h_add_sim; [|done]. by eapply repr_fuel.
  - intros [= <-] l F h HT. apply h_remove_sim; [|done]. by eapply repr_fuel.
  - intros [= <-] l F h HT. apply h_clear_sim; [|done]. by eapply repr_fuel.
  - intros Hreb. apply tree_rebalance_Done in Hreb. by apply h_tree_rebalance_sim.
Qed.

Lemma performAll_cons fuel op ops (t t' : SearchTree2D) :
  performAll fuel (op :: ops) t = Done t' →
  ∃ t1, perform fuel op t = Done t1 ∧ performAll fuel ops t1 = Done t'.
Proof. cbn [performAll]. destruct (perform fuel op t) as [t1| |]; [eauto|done..]. Qed.

Lemma stepsOn_cons (second onSecond : bool) (m : mutation)
    (prog : list (bool * mutation)) :
  stepsOn second ((onSecond, m) :: prog) =
  if decide (onSecond = second) then toOperation m :: stepsOn second prog
  else stepsOn second prog.
Proof.
  unfold stepsOn. rewrite filter_cons. cbn [fst]. by case_decide.
Qed.

(** Two trees that share no cell evolve independently: whatever program
    mutates them, each ends as the graph its own steps produce. *)
Lemma h_mutateAll_sim fuel prog a b Fa Fb h (Ta Tb : Node) (ta tb : SearchTree2D) :
  repr Ta a Fa h → repr Tb b Fb h → Fa ## Fb →
  performAll fuel (stepsOn false prog) (mkTree Ta) = Done ta →
  performAll fuel (stepsOn true prog) (mkTree Tb) = Done tb →
  ∃ h' Fa' Fb',
    h_mutateAll fuel prog a b h = Some h'
    ∧ repr (m_tree ta) a Fa' h' ∧ repr (m_tree tb) b Fb' h' ∧ Fa' ## Fb'.
Proof.
  revert Ta Tb Fa Fb h.
  induction prog as [|[onSecond m] prog IH]; intros Ta Tb Fa Fb h HTa HTb Hdisj Hpa Hpb.
  - injection Hpa as <-. injection Hpb as <-. exists h, Fa, Fb. done.
  - rewrite stepsOn_cons in Hpa, Hpb. cbn [h_mutateAll]. destruct onSecond.
    + rewrite decide_False in Hpa by done. rewrite decide_True in Hpb by done.
      apply performAll_cons in Hpb as (t1 & Hstep & Hpb).
      destruct (h_mutate_sim fuel m (mkTree Tb) t1 Hstep b Fb h HTb)
        as (h1 & Fb1 & -> & HTb1 & Hf).
      destruct (repr_framed _ _ _ _ _ _ _ HTa Hf Hdisj) as [HTa1 Hdisj1].
      cbn [mbind option_bind].
      destruct t1 as [Tb1]. by apply (IH Ta Tb1 Fa Fb1 h1).
    + rewrite decide_True in Hpa by done. rewrite decide_False in Hpb by done.
      apply performAll_cons in Hpa as (t1 & Hstep & Hpa).
      destruct (h_mutate_sim fuel m (mkTree Ta) t1 Hstep a Fa h HTa)
        as (h1 & Fa1 & -> & HTa1 & Hf).
      destruct (repr_framed _ _ _ _ _ _ _ HTb Hf) as [HTb1 Hdisj1]; [done|].
      cbn [mbind option_bind].
      destruct t1 as [Ta1]. by apply (IH Ta1 Tb Fa1 Fb h1).
Qed.

(** C9.  Copying a tree laid out in memory builds the same node graph in
    cells taken from outside the store, so the copy and the original share
    no cell.  Whatever program of [add], [remove], [clear] and [rebalance]
    calls then mutates the two trees, the queries of each tree return what
    the calls made on that tree alone produce: the calls made on the other
    tree do not show. *)
Theorem copy_shares_nothing (T : Node) a F h :
  repr T a F h →
  ∃ b h1 Fa Fb,
    h_copyTree a h = Some (b, h1)
    ∧ repr T a Fa h1 ∧ repr T b Fb h1 ∧ Fa ## Fb
    ∧ (∀ r, h_tree_getNearbyValues h1 a r = h_tree_getNearbyValues h a r
            ∧ h_tree_getNearbyValues h1 b r = h_tree_getNearbyValues h a r)
    ∧ ∀ fuel prog ta tb,
        performAll fuel (stepsOn false prog) (mkTree T) = Done ta →
        performAll fuel (stepsOn true prog) (mkTree T) = Done tb →
        ∃ h2,
          h_mutateAll fuel prog a b h1 = Some h2
          ∧ ∀ r, h_tree_getNearbyValues h2 a r = Some (tree_getNearbyValues ta r)
                 ∧ h_tree_getNearbyValues h2 b r = Some (tree_getNearbyValues tb r).
Proof.
  intros HT.
  destruct (h_copyTree_sim T a F h HT) as (b & h1 & Fb & Hcopy & HTb & Hf).
  destruct (repr_framed _ _ _ _ _ _ _ HT Hf) as [HTa Hdisj]; [set_solver|].
  exists b, h1, F, Fb. do 4 (split; [done|]). split.
  - intros r.
    by rewrite (h_tree_getNearbyValues_sim T a F h1 r HTa),
               (h_tree_getNearbyValues_sim T b Fb h1 r HTb),
               (h_tree_getNearbyValues_sim T a F h r HT).
  - intros fuel prog ta tb Hpa Hpb.
    destruct (h_mutateAll_sim fuel prog a b F Fb h1 T T ta tb HTa HTb Hdisj Hpa Hpb)
      as (h2 & Fa' & Fb' & Hrun & HTa' & HTb' & _).
    exists h2. split; [done|]. intros r. unfold tree_getNearbyValues.
    by rewrite (h_tree_getNearbyValues_sim _ _ _ _ r HTa'),
               (h_tree_getNearbyValues_sim _ _ _ _ r HTb').
Qed.

(** ** Released storage *)

Lemma forChildren_mono (body : loc → heap → option heap) ptrs h h' :
  (∀ p h0 h1, body p h0 = Some h1 → dom h1 ⊆ dom h0) →
  forChildren body ptrs h = Some h' → dom h' ⊆ dom h.
Proof.
  intros Hbody. revert h. induction ptrs as [|[p|] ptrs IH]; intros h; cbn [forChildren].
  - by intros [= ->].
  - destruct (body p h) as [h1|] eqn:Hstep; [|done]. cbn. intros Hrest.
    etrans; [by apply IH|by eapply Hbody].
  - cbn. apply IH.
Qed.

Lemma deleteChildrenWith_mono (clearChild : loc → heap → option heap) l h h' :
  (∀ p h0 h1, clearChild p h0 = Some h1 → dom h1 ⊆ dom h0) →
  deleteChildrenWith clearChild l h = Some h' → dom h' ⊆ dom h.
Proof.
  intros Hbody. unfold deleteChildrenWith.
  destruct (h !! l) as [node|]; [|done]. cbn [mbind option_bind].
  match goal with
  | |- context [forChildren ?b ?ps h] => destruct (forChildren b ps h) as [h1|] eqn:Hloop
  end; [|done].
  cbn [mbind option_bind]. intros [= <-].
  rewrite dom_alter_L. eapply forChildren_mono; [|done].
  intros p h0 h2. cbn beta. destruct (clearChild p h0) as [h3|] eqn:Hc; [|done].
  cbn [mbind option_bind]. intros [= <-]. rewrite dom_delete_L. apply Hbody in Hc.
  set_solver.
Qed.

Lemma h_clear_mono fuel l h h' : h_clear fuel l h = Some h' → dom h' ⊆ dom h.
Proof.
  revert l h h'. induction fuel as [|fuel IH]; intros l h h'; [done|].
  cbn [h_clear]. destruct (h !! l) as [node|]; [|done]. cbn [mbind option_bind].
  destruct (c_hasChildren node).
  - destruct (forChildren (h_clear fuel) (quad_list (c_regions node)) h)
      as [h1|] eqn:Hloop; [|done].
    cbn [mbind option_bind].
    destruct (deleteChildrenWith (h_clear fuel) l h1) as [h2|] eqn:Hdel; [|done].
    cbn [mbind option_bind]. intros [= <-]. rewrite dom_alter_L.
    etrans; [by eapply deleteChildrenWith_mono|]. by eapply forChildren_mono.
  - cbn [mbind option_bind]. intros [= <-]. by rewrite dom_alter_L.
Qed.

(** The loop of [deleteChildren] releases every child. *)
Lemma forChildren_deletes (body : loc → heap → option heap) ptrs h h' :
  (∀ p h0 h1, body p h0 = Some h1 → dom h1 ⊆ dom h0) →
  forChildren (λ p h, h ← body p h; Some (delete p h)) ptrs h = Some h' →
  ∀ p, Some p ∈ ptrs → p ∉ dom h'.
Proof.
  intros Hbody.
  assert (∀ p h0 h1, (h ← body p h0; Some (delete p h)) = Some h1 → dom h1 ⊆ dom h0)
    as Hstep.
  { intros p h0 h1. destruct (body p h0) as [h2|] eqn:Hc; [|done]. cbn.
    intros [= <-]. rewrite dom_delete_L. apply Hbody in Hc. set_solver. }
  revert h. induction ptrs as [|[q|] ptrs IH]; intros h Hloop p Hp.
  - by apply elem_of_nil in Hp.
  - cbn [forChildren] in Hloop.
    destruct (body q h) as [h1|] eqn:Hq; [|done]. cbn in Hloop.
    apply elem_of_cons in Hp as [[= ->]|Hp]; [|by eapply IH].
    pose proof (forChildren_mono _ _ _ _ Hstep Hloop) as Hsub.
    rewrite dom_delete_L in Hsub. set_solver.
  - cbn [forChildren] in Hloop. cbn in Hloop.
    apply elem_of_cons in Hp as [?|Hp]; [done|]. by eapply IH.
Qed.

(** A loop whose body releases everything below the child it visits
    releases everything below every child. *)
Lemma forChildren_frees (body : loc → heap → option heap) regions ptrs Fs h h' :
  Forall3 (λ region p Fc, slotRepr repr region p Fc h) regions ptrs Fs →
  disjointList Fs →
  (∀ p h0 h1, body p h0 = Some h1 → dom h1 ⊆ dom h0) →
  (∀ child p Fc h0,
     Some child ∈ regions → repr child p Fc h0 →
     ∃ h1 Fc', body p h0 = Some h1 ∧ frame h0 h1 Fc Fc'
               ∧ ∀ x, x ∈ Fc → x ≠ p → x ∉ dom h1) →
  forChildren body ptrs h = Some h' →
  ∀ x, x ∈ ⋃ Fs → Some x ∉ ptrs → x ∉ dom h'.
Proof.
  intros Hall Hdisj Hmono. revert ptrs Fs h Hall Hdisj.
  induction regions as [|region regions IH]; intros ptrs Fs h Hall Hdisj Hbody Hloop x Hx Hnp.
  - inversion Hall; subst. set_solver.
  - apply Forall3_cons_inv_l in Hall as (p & ptrs' & Fc & Fs' & -> & -> & Hslot & Hall).
    rename ptrs' into ptrs. rename Fs' into Fs.
    destruct Hdisj as [Hd Hdisj]. cbn [forChildren] in Hloop.
    change (⋃ (Fc :: Fs)) with (Fc ∪ ⋃ Fs) in Hx.
    destruct region as [child|], p as [p|]; cbn [slotRepr] in Hslot; try done.
    + destruct (Hbody child p Fc h) as (h1 & Fc' & Hrun & Hf1 & Hfree); [left|done|].
      rewrite Hrun in Hloop. cbn in Hloop.
      destruct (slots_framed _ _ _ _ _ _ _ Hall Hf1) as [Hall1 _]; [set_solver|].
      apply elem_of_union in Hx as [Hx|Hx].
      * assert (x ≠ p) as Hne by (intros ->; apply Hnp; left).
        pose proof (forChildren_mono _ _ _ _ Hmono Hloop) as Hsub.
        specialize (Hfree x Hx Hne). set_solver.
      * eapply (IH ptrs Fs h1); try done.
        -- intros c q Fq h0 Hin. apply Hbody. by right.
        -- intros Hin. apply Hnp. by right.
    + subst Fc. cbn in Hloop. apply elem_of_union in Hx as [Hx|Hx]; [set_solver|].
      eapply (IH ptrs Fs h); try done.
      * intros c q Fq h0 Hin. apply Hbody. by right.
      * intros Hin. apply Hnp. by right.
Qed.

Lemma slots_pointer regions ptrs Fs h x :
  Forall3 (λ region p Fc, slotRepr repr region p Fc h) regions ptrs Fs →
  x ∈ ⋃ Fs → ∃ child, Some child ∈ regions.
Proof.
  induction 1 as [|region p Fc regions ptrs Fs Hslot Hall IH]; [set_solver|].
  change (⋃ (Fc :: Fs)) with (Fc ∪ ⋃ Fs). intros [Hx|Hx]%elem_of_union.
  - destruct region as [child|], p as [p|]; cbn [slotRepr] in Hslot; try done.
    + exists child. left.
    + set_solver.
  - destruct (IH Hx) as [child Hin]. exists child. by right.
Qed.

Lemma repr_leaf_footprint T l F h : hasChildren T = false → repr T l F h → F = {[l]}.
Proof.
  intros Hc HT. apply repr_eq in HT as (slots & Fs & Hl & -> & Hnl & Hd & Hall).
  apply set_eq. intros x. rewrite elem_of_union, elem_of_singleton. split; [|auto].
  intros [?|Hx]; [done|]. destruct (slots_pointer _ _ _ _ _ Hall Hx) as [child Hin].
  apply child_in_slots in Hin as [rc E].
  rewrite (proj1 (hasChildren_false T) Hc rc) in E. done.
Qed.

Lemma h_clear_frees T fuel l F h h' :
  weight T ≤ fuel → repr T l F h → h_clear fuel l h = Some h' →
  ∀ x, x ∈ F → x ≠ l → x ∉ dom h'.
Proof.
  revert fuel l F h h'. induction T as [T IH] using Node_ind.
  intros fuel l F h h' Hfuel HT Hrun x Hx Hne.
  destruct (hasChildren T) eqn:Hc.
  2:{ rewrite (repr_leaf_footprint _ _ _ _ Hc HT) in Hx. set_solver. }
  destruct fuel as [|fuel]; [done|].
  pose proof HT as HT'. apply repr_eq in HT' as (slots & Fs & Hl & -> & Hnl & Hd & Hall).
  apply elem_of_union in Hx as [Hx|Hx]; [set_solver|].
  cbn [h_clear] in Hrun. rewrite Hl in Hrun. cbn [mbind option_bind] in Hrun.
  rewrite (repr_hasChildren T h slots Fs), Hc in Hrun by done. cbn [c_regions] in Hrun.
  assert (∀ child, Some child ∈ quad_list (m_mapRegions T) → weight child ≤ fuel) as Hw.
  { intros child Hin. pose proof (weight_child _ _ Hin). lia. }
  destruct (forChildren_sim (h_clear fuel) (λ child child', child' = clear child)
              _ _ _ _ _ Hall Hd (option_map_Forall2 clear _))
    as (h1 & Fs1 & Hloop & Hall1 & Hd1 & Hf1).
  { intros child child' p Fc h0 Hin -> Hc0.
    by apply (h_clear_sim fuel child (Hw child Hin)). }
  rewrite Hloop in Hrun. cbn [mbind option_bind] in Hrun.
  destruct (deleteChildrenWith (h_clear fuel) l h1) as [h2|] eqn:Hdel; [|done].
  cbn in Hrun. injection Hrun as <-. rewrite dom_alter_L.
  destruct (decide (Some x ∈ quad_list slots)) as [Hptr|Hptr].
  - unfold deleteChildrenWith in Hdel.
    assert (h1 !! l = Some (mkCell (m_compare T) slots (m_data T))) as Hl1.
    { destruct Hf1 as [Hs _]. rewrite Hs; [done| |done]. apply elem_of_dom. eauto. }
    rewrite Hl1 in Hdel. cbn [mbind option_bind c_regions] in Hdel.
    destruct (forChildren _ (quad_list slots) h1) as [h3|] eqn:Hloop2; [|done].
    cbn in Hdel. injection Hdel as <-. rewrite dom_alter_L.
    eapply forChildren_deletes; [|done..]. intros p h0 h4. apply h_clear_mono.
  - assert (x ∉ dom h1) as Hfreed.
    { apply (forChildren_frees (h_clear fuel) (quad_list (m_mapRegions T))
               (quad_list slots) (quad_list Fs) h h1 Hall Hd); try done.
      - intros p h0 h4. apply h_clear_mono.
      - intros child p Fc h0 Hin Hc0.
        destruct (h_clear_sim fuel child (Hw child Hin) p Fc h0 Hc0)
          as (h4 & Fc' & Hrun4 & _ & Hf4).
        exists h4, Fc'. split; [done|]. split; [done|]. intros y Hy Hyp.
        pose proof Hin as Hin'. apply child_in_slots in Hin' as [rc E].
        eapply (IH rc child E fuel); try done. by apply Hw. }
    pose proof (deleteChildrenWith_mono _ _ _ _ (λ p h0 h4, h_clear_mono fuel p h0 h4) Hdel).
    set_solver.
Qed.

Lemma clear_hasChildren (T : Node) : hasChildren (clear T) = false.
Proof. by rewrite clear_eq. Qed.

Lemma h_clear_exact T l F h :
  repr T l F h →
  ∃ h', h_clear (size h) l h = Some h'
        ∧ repr (clear T) l {[l]} h'
        ∧ dom h' = dom h ∖ (F ∖ {[l]})
        ∧ ∀ x, x ∉ F → h' !! x = h !! x.
Proof.
  intros HT. pose proof (repr_fuel _ _ _ _ HT) as Hfuel.
  destruct (h_clear_sim (size h) T Hfuel l F h HT) as (h' & F' & Hrun & HT' & Hf).
  pose proof (repr_leaf_footprint _ _ _ _ (clear_hasChildren T) HT') as ->.
  exists h'. split; [done|]. split; [done|].
  pose proof (h_clear_mono _ _ _ _ Hrun) as Hmono.
  pose proof (h_clear_frees T _ _ _ _ _ Hfuel HT Hrun) as Hfree.
  pose proof (repr_dom _ _ _ _ HT') as Hdom'.
  destruct Hf as [Hs _].
  assert (∀ x, x ∉ F → h' !! x = h !! x) as Hout.
  { intros x Hx. destruct (decide (x ∈ dom h)) as [Hd|Hd]; [by apply Hs|].
    rewrite (proj1 (not_elem_of_dom h x) Hd). apply not_elem_of_dom. set_solver. }
  split; [|done]. apply set_eq. intros x.
  rewrite elem_of_difference, elem_of_difference, elem_of_singleton. split.
  - intros Hx. split; [by apply Hmono|]. intros [HF Hne]. by apply (Hfree x).
  - intros [Hx Hno]. destruct (decide (x = l)) as [->|Hne]; [set_solver|].
    assert (x ∉ F) as HF by tauto.
    apply elem_of_dom. rewrite (Hout x HF). by apply elem_of_dom.
Qed.

(** At the level of cells, [clear] releases the storage of every node
    below the one it is called on, leaves that node as an empty LEAF with
    the search space it had, and leaves every cell outside the graph as it
    was. *)
Theorem clear_releases_the_graph_below T l F h :
  repr T l F h →
  ∃ h', h_clear (size h) l h = Some h'
        ∧ h' !! l = Some (mkCell (m_compare T) (quad_pure None) ∅)
        ∧ dom h' = dom h ∖ (F ∖ {[l]})
        ∧ (∀ x, x ∉ F → h' !! x = h !! x)
        ∧ ∀ (U : Node) u G, repr U u G h → G ## F → repr U u G h'.
Proof.
  intros HT. destruct (h_clear_exact T l F h HT) as (h' & Hrun & HT' & Hdom & Hout).
  exists h'. split; [done|]. split.
  { apply repr_eq in HT' as (slots & Fs & Hl & _ & _ & _ & Hall).
    rewrite Hl, clear_eq. cbn. do 2 f_equal. rewrite clear_eq in Hall. cbn in Hall.
    unfold quad_list in Hall.
    repeat match goal with
           | Hf : Forall3 _ (_ :: _) _ _ |- _ => inversion Hf; clear Hf; subst
           end.
    destruct slots as [[?|] [?|] [?|] [?|]]; cbn in *; done. }
  split; [done|]. split; [done|].
  intros U u G HU Hdisj. apply (repr_frame _ _ _ _ _ HU).
  intros x Hx. apply Hout. set_solver.
Qed.

(** Destroying a tree releases the storage of every node of its graph, the
    root included, and nothing else: every cell outside the graph is as it
    was, so a tree stored next to it is intact. *)
Theorem destructor_releases_the_graph T t F h :
  repr T t F h →
  ∃ h', h_destroyTree t h = Some h'
        ∧ dom h' = dom h ∖ F
        ∧ (∀ x, x ∉ F → h' !! x = h !! x)
        ∧ ∀ (U : Node) u G, repr U u G h → G ## F → repr U u G h'.
Proof.
  intros HT. destruct (h_clear_exact T t F h HT) as (h1 & Hrun1 & HT1 & Hdom1 & Hout1).
  destruct (h_clear_exact _ t _ h1 HT1) as (h2 & Hrun2 & HT2 & Hdom2 & Hout2).
  pose proof (repr_lookup _ _ _ _ HT) as (slots & _ & HtF).
  exists (delete t h2). split.
  { unfold h_destroyTree. rewrite Hrun1. cbn. rewrite Hrun2. done. }
  assert (∀ x, x ∉ F → delete t h2 !! x = h !! x) as Hout.
  { intros x Hx. rewrite lookup_delete_ne by (intros ->; done).
    rewrite Hout2 by set_solver. by apply Hout1. }
  split.
  { rewrite dom_delete_L, Hdom2, Hdom1. set_solver. }
  split; [done|].
  intros U u G HU Hdisj. apply (repr_frame _ _ _ _ _ HU).
  intros x Hx. apply Hout. set_solver.
Qed.

(** ** Insertion and removal touch the data only *)

Lemma sameLinks_refl h : sameLinks h h.
Proof. by intros x. Qed.

Lemma sameLinks_trans h1 h2 h3 : sameLinks h1 h2 → sameLinks h2 h3 → sameLinks h1 h3.
Proof. intros H12 H23 x. destruct (H12 x), (H23 x). split; congruence. Qed.

Lemma sameLinks_setData h l (f : SetValue → SetValue) :
  sameLinks h (alter (λ c, c_setData (f (c_data c)) c) l h).
Proof.
  intros x. destruct (decide (x = l)) as [->|Hne].
  - rewrite lookup_alter_eq. by destruct (h !! l).
  - by rewrite lookup_alter_ne.
Qed.

Lemma sameLinks_dom h h' : sameLinks h h' → dom h' = dom h.
Proof.
  intros Hs. apply set_eq. intros x. rewrite !elem_of_dom.
  destruct (Hs x) as [Hc _]. destruct (h !! x), (h' !! x); cbn in Hc; try done.
  all: split; intros [? ?]; done.
Qed.

Lemma forChildren_sameLinks (body : loc → heap → option heap) ptrs h h' :
  (∀ p h0 h1, body p h0 = Some h1 → sameLinks h0 h1) →
  forChildren body ptrs h = Some h' → sameLinks h h'.
Proof.
  intros Hbody. revert h. induction ptrs as [|[p|] ptrs IH]; intros h; cbn [forChildren].
  - intros [= ->]. apply sameLinks_refl.
  - destruct (body p h) as [h1|] eqn:Hstep; [|done]. cbn. intros Hrest.
    eapply sameLinks_trans; [by eapply Hbody|by apply IH].
  - cbn. apply IH.
Qed.

Lemma addToChildren_sameLinks (addChild : loc → heap → option heap) val ptrs h h' b :
  (∀ p h0 h1, addChild p h0 = Some h1 → sameLinks h0 h1) →
  addToChildren addChild val ptrs h = Some (h', b) → sameLinks h h'.
Proof.
  intros Hbody. revert h h' b.
  induction ptrs as [|region ptrs IH]; intros h h' b; cbn [addToChildren].
  - intros [= -> _]. apply sameLinks_refl.
  - destruct region as [p|].
    + destruct (h !! p) as [child|]; [|done]. cbn.
      destruct (satisfies (c_compare child) val).
      * destruct (addChild p h) as [h1|] eqn:Hstep; [|done]. cbn.
        destruct (addToChildren addChild val ptrs h1) as [[h2 b2]|] eqn:Hrest; [|done].
        cbn. intros [= <- _].
        eapply sameLinks_trans; [by eapply Hbody|by eapply IH].
      * cbn. destruct (addToChildren addChild val ptrs h) as [[h2 b2]|] eqn:Hrest; [|done].
        cbn. intros [= <- _]. by eapply IH.
    + cbn. destruct (addToChildren addChild val ptrs h) as [[h2 b2]|] eqn:Hrest; [|done].
      cbn. intros [= <- _]. by eapply IH.
Qed.

Lemma h_add_sameLinks fuel val l h h' : h_add fuel val l h = Some h' → sameLinks h h'.
Proof.
  revert l h h'. induction fuel as [|fuel IH]; intros l h h'; [done|].
  cbn [h_add]. destruct (h !! l) as [node|]; [|done]. cbn [mbind option_bind].
  destruct (c_hasChildren node).
  - destruct (addToChildren (h_add fuel val) val (quad_list (c_regions node)) h)
      as [[h1 wasAdded]|] eqn:Hloop; [|done].
    pose proof (addToChildren_sameLinks _ _ _ _ _ _ IH Hloop) as H1.
    destruct wasAdded; intros [= <-]; [done|].
    eapply sameLinks_trans; [done|]. apply (sameLinks_setData h1 l (λ d, {[val]} ∪ d)).
  - intros [= <-]. apply (sameLinks_setData h l (λ d, {[val]} ∪ d)).
Qed.

Lemma h_remove_sameLinks fuel val l h h' : h_remove fuel val l h = Some h' → sameLinks h h'.
Proof.
  revert l h h'. induction fuel as [|fuel IH]; intros l h h'; [done|].
  cbn [h_remove]. destruct (h !! l) as [node|]; [|done]. cbn [mbind option_bind].
  destruct (c_hasChildren node).
  - destruct (forChildren (h_remove fuel val) (quad_list (c_regions node)) h)
      as [h1|] eqn:Hloop; [|done].
    cbn [mbind option_bind]. intros [= <-].
    eapply sameLinks_trans; [by eapply forChildren_sameLinks|].
    apply (sameLinks_setData h1 l (λ d, d ∖ {[val]})).
  - cbn [mbind option_bind]. intros [= <-]. apply (sameLinks_setData h l (λ d, d ∖ {[val]})).
Qed.

(** At the level of cells, [add] and [remove] run to completion on a tree
    laid out in memory, write nothing but data sets and touch no cell
    outside the graph: no node is allocated or released, no child slot and
    no search space changes. *)
Theorem add_and_remove_write_data_only val T l F h :
  repr T l F h →
  ∃ ha hr,
    h_add (size h) val l h = Some ha ∧ h_remove (size h) val l h = Some hr
    ∧ dom ha = dom h ∧ dom hr = dom h
    ∧ sameLinks h ha ∧ sameLinks h hr
    ∧ ∀ x, x ∉ F → ha !! x = h !! x ∧ hr !! x = h !! x.
Proof.
  intros HT. pose proof (repr_fuel _ _ _ _ HT) as Hfuel.
  destruct (h_add_sim (size h) val T Hfuel l F h HT) as (ha & Fa & Ha & _ & [Hsa _]).
  destruct (h_remove_sim (size h) val T Hfuel l F h HT) as (hr & Fr & Hr & _ & [Hsr _]).
  pose proof (h_add_sameLinks _ _ _ _ _ Ha) as Hla.
  pose proof (h_remove_sameLinks _ _ _ _ _ Hr) as Hlr.
  pose proof (sameLinks_dom _ _ Hla) as Hda.
  pose proof (sameLinks_dom _ _ Hlr) as Hdr.
  exists ha, hr. do 6 (split; [done|]). intros x Hx.
  destruct (decide (x ∈ dom h)) as [Hd|Hd]; [split; auto|].
  rewrite (proj1 (not_elem_of_dom h x) Hd). split; apply not_elem_of_dom; congruence.
Qed.

(** ** Nothing is left behind *)

(** The footprint of a graph is read off the child slots of its cells. *)
Lemma slot_footprint_links (region region' : option Node) (p : option loc) Fc Fc' h h' :
  (∀ child child' q, region = Some child → region' = Some child' →
     repr child q Fc h → repr child' q Fc' h' → Fc = Fc') →
  slotRepr repr region p Fc h → slotRepr repr region' p Fc' h' → Fc = Fc'.
Proof.
  intros Hkid. destruct region as [child|], region' as [child'|], p as [q|];
    cbn [slotRepr]; try done.
  - by apply Hkid.
  - by intros -> ->.
Qed.

Lemma repr_footprint_links T T' l F F' h h' :
  repr T l F h → repr T' l F' h' →
  (∀ x, x ∈ F → c_regions <$> h' !! x = c_regions <$> h !! x) →
  F = F'.
Proof.
  revert T' l F F'. induction T as [T IH] using Node_ind. intros T' l F F' HT HT' Hlinks.
  destruct T as [c regs d], T' as [c' regs' d'].
  cbn [repr m_compare m_mapRegions m_data] in HT, HT'.
  destruct HT as (ptrs & Fs & Hl & -> & Hnl & Hd & H1 & H2 & H3 & H4).
  destruct HT' as (ptrs' & Fs' & Hl' & -> & Hnl' & Hd' & H1' & H2' & H3' & H4').
  assert (ptrs' = ptrs) as ->.
  { specialize (Hlinks l). rewrite Hl, Hl' in Hlinks. cbn in Hlinks.
    assert (Some ptrs' = Some ptrs) as Heq by (apply Hlinks; set_solver).
    by injection Heq. }
  cbn [m_mapRegions] in IH.
  assert (q_ul Fs = q_ul Fs') as E1.
  { eapply slot_footprint_links; [|exact H1|exact H1'].
    intros child child' q E E' Hc Hc'. apply (IH UPPER_LEFT child E child' q); try done.
    intros x Hx. apply Hlinks. destruct Fs. cbn in *. set_solver. }
  assert (q_ur Fs = q_ur Fs') as E2.
  { eapply slot_footprint_links; [|exact H2|exact H2'].
    intros child child' q E E' Hc Hc'. apply (IH UPPER_RIGHT child E child' q); try done.
    intros x Hx. apply Hlinks. destruct Fs. cbn in *. set_solver. }
  assert (q_ll Fs = q_ll Fs') as E3.
  { eapply slot_footprint_links; [|exact H3|exact H3'].
    intros child child' q E E' Hc Hc'. apply (IH LOWER_LEFT child E child' q); try done.
    intros x Hx. apply Hlinks. destruct Fs. cbn in *. set_solver. }
  assert (q_lr Fs = q_lr Fs') as E4.
  { eapply slot_footprint_links; [|exact H4|exact H4'].
    intros child child' q E E' Hc Hc'. apply (IH LOWER_RIGHT child E child' q); try done.
    intros x Hx. apply Hlinks. destruct Fs. cbn in *. set_solver. }
  destruct Fs, Fs'. cbn in *. by subst.
Qed.

Lemma tidy_simulates (op : loc → heap → option heap) T T' : tidy op T T' → simulates op T T'.
Proof.
  intros Hop l F h HT. destruct (Hop l F h HT) as (h' & F' & ? & ? & ? & _). eauto.
Qed.

(** A walk that changes no child slot is tidy. *)
Lemma tidy_of_links (op : loc → heap → option heap) T T' :
  simulates op T T' →
  (∀ l h h', op l h = Some h' → ∀ x, c_regions <$> h' !! x = c_regions <$> h !! x) →
  tidy op T T'.
Proof.
  intros Hsim Hlinks l F h HT.
  destruct (Hsim l F h HT) as (h' & F' & Hrun & HT' & Hf).
  exists h', F'. do 3 (split; [done|]).
  pose proof (Hlinks l h h' Hrun) as Hx.
  rewrite <-(repr_footprint_links _ _ _ _ _ _ _ HT HT' (λ x _, Hx x)).
  intros x Hd. apply elem_of_dom in Hd.
  assert (x ∈ dom h).
  { apply elem_of_dom. specialize (Hx x). destruct (h !! x), (h' !! x), Hd; done. }
  destruct (decide (x ∈ F)); set_solver.
Qed.

Lemma tidy_seq (op1 op2 : loc → heap → option heap) T1 T2 T3 :
  tidy op1 T1 T2 → tidy op2 T2 T3 → tidy (λ l h, h ← op1 l h; op2 l h) T1 T3.
Proof.
  intros H1 H2 l F h HT. destruct (H1 _ _ _ HT) as (h1 & F1 & -> & HT1 & Hf1 & Hd1).
  destruct (H2 _ _ _ HT1) as (h2 & F2 & Hrun & HT2 & Hf2 & Hd2).
  exists h2, F2. split; [done|]. split; [done|]. split; [by eapply frame_trans|].
  set_solver.
Qed.

Lemma tidy_alter T (f : Cell → Cell) (c' : NodeCompare) (d' : SetValue) :
  (∀ slots, f (mkCell (m_compare T) slots (m_data T)) = mkCell c' slots d') →
  tidy (λ l h, Some (alter f l h)) T (mkNode c' (m_mapRegions T) d').
Proof.
  intros Hf l F h HT. destruct (repr_alter _ _ _ _ _ _ _ HT Hf) as [HT' Hfr].
  exists (alter f l h), F. do 3 (split; [done|]). rewrite dom_alter_L.
  intros x Hx. destruct (decide (x ∈ F)); set_solver.
Qed.

Lemma writeThrough_links (slots : list (option loc * NodeCompare)) h x :
  c_regions <$> writeThrough slots h !! x = c_regions <$> h !! x.
Proof.
  revert h. induction slots as [|[[p|] quad] slots IH]; intros h; cbn [writeThrough];
    [done| |apply IH].
  rewrite IH. destruct (decide (x = p)) as [->|Hne].
  - rewrite lookup_alter_eq. by destruct (h !! p).
  - by rewrite lookup_alter_ne.
Qed.

Lemma h_writeThrough_tidy (mapQuads : Quad NodeCompare) T :
  tidy (h_writeThrough mapQuads) T (writeCompares mapQuads T).
Proof.
  apply tidy_of_links; [apply h_writeThrough_sim|].
  intros l h h'. unfold h_writeThrough. destruct (h !! l) as [node|]; [|done].
  cbn [mbind option_bind]. intros Heq x.
  assert (h' = writeThrough (zip (quad_list (c_regions node)) (quad_list mapQuads)) h)
    as -> by congruence.
  apply writeThrough_links.
Qed.

Lemma h_addAll_links fuel (vals : list Value) l h h' x :
  h_addAll fuel vals l h = Some h' → c_regions <$> h' !! x = c_regions <$> h !! x.
Proof.
  revert h. induction vals as [|val vals IH]; intros h; cbn [h_addAll].
  - by intros [= ->].
  - destruct (h_add fuel val l h) as [h1|] eqn:Hadd; [|done]. cbn [mbind option_bind].
    intros Hrest. rewrite (IH _ Hrest). by destruct (h_add_sameLinks _ _ _ _ _ Hadd x).
Qed.

Lemma h_addAll_tidy (vals : SetValue) T :
  tidy (λ l h, h_addAll (size h) (elements vals) l h) T (addAll vals T).
Proof.
  apply tidy_of_links; [apply h_addAll_sim|].
  intros l h h' Hrun x. by eapply h_addAll_links.
Qed.

Lemma h_buildRootRegion_tidy T :
  tidy (λ l h, h_buildRootRegion (size h) l h) T (buildRootRegion T).
Proof.
  apply tidy_of_links; [apply h_buildRootRegion_sim|].
  intros l h h'. unfold h_buildRootRegion.
  destruct (h_getAllChildValues (size h) h l); [|done]. cbn [mbind option_bind].
  intros [= <-] x. destruct (decide (x = l)) as [->|Hne].
  - rewrite lookup_alter_eq. by destruct (h !! l).
  - by rewrite lookup_alter_ne.
Qed.

(** [deleteChildren] releases everything below the node. *)
Lemma deleteChildrenWith_mono' fuel l h h' :
  deleteChildrenWith (h_clear fuel) l h = Some h' → dom h' ⊆ dom h.
Proof. apply deleteChildrenWith_mono. intros p h0 h1. apply h_clear_mono. Qed.

Lemma h_deleteChildren_tidy T :
  tidy (λ l h, h_deleteChildren (size h) l h) T (deleteChildren T).
Proof.
  intros l F h HT.
  destruct (h_deleteChildren_sim T l F h HT) as (h' & F' & Hrun & HT' & Hf).
  exists h', F'. do 3 (split; [done|]).
  pose proof (repr_lookup _ _ _ _ HT') as (_ & _ & HlF').
  pose proof (deleteChildrenWith_mono' _ _ _ _ Hrun) as Hmono.
  pose proof (repr_fuel _ _ _ _ HT) as Hfuel.
  intros x Hx. destruct (decide (x = l)) as [->|Hne]; [set_solver|].
  destruct (decide (x ∈ F)) as [HxF|HxF]; [|set_solver]. exfalso.
  apply repr_eq in HT as (slots & Fs & Hl & -> & Hnl & Hd & Hall).
  apply elem_of_union in HxF as [?|HxF]; [set_solver|].
  unfold h_deleteChildren, deleteChildrenWith in Hrun. rewrite Hl in Hrun.
  cbn [mbind option_bind c_regions] in Hrun.
  destruct (forChildren _ (quad_list slots) h) as [h1|] eqn:Hloop; [|done].
  cbn [mbind option_bind] in Hrun. injection Hrun as <-.
  rewrite dom_alter_L in Hx.
  assert (∀ p h0 h2, (h ← h_clear (size h) p h0; Some (delete p h)) = Some h2 →
                     dom h2 ⊆ dom h0) as Hstep.
  { intros p h0 h2. destruct (h_clear (size h) p h0) as [h3|] eqn:Hc; [|done].
    cbn [mbind option_bind]. intros [= <-]. rewrite dom_delete_L.
    apply h_clear_mono in Hc. set_solver. }
  destruct (decide (Some x ∈ quad_list slots)) as [Hptr|Hptr].
  - revert Hx. eapply forChildren_deletes; [|done..]. intros p h0 h2. apply h_clear_mono.
  - revert Hx.
    apply (forChildren_frees _ (quad_list (m_mapRegions T)) (quad_list slots)
             (quad_list Fs) h h1 Hall Hd Hstep); try done.
    intros child p Fc h0 Hin Hc0.
    assert (weight child ≤ size h) as Hw by (pose proof (weight_child _ _ Hin); lia).
    destruct (h_clear_sim (size h) child Hw p Fc h0 Hc0) as (h4 & Fc' & Hrun4 & _ & Hf4).
    exists (delete p h4), ∅. rewrite Hrun4. split; [done|].
    destruct (repr_lookup _ _ _ _ Hc0) as (_ & _ & HpF). split.
    + apply (frame_shrink _ _ _ Fc'); [|set_solver]. by apply frame_delete.
    + intros y Hy Hyp. rewrite dom_delete_L.
      pose proof (h_clear_frees child _ _ _ _ _ Hw Hc0 Hrun4 y Hy Hyp). set_solver.
Qed.

(** Entering the loops over the children. *)
Lemma forChildren_tidy (body : loc → heap → option heap) (Φ : Node → Node → Prop)
    regions regions' ptrs Fs h :
  Forall3 (λ region p Fc, slotRepr repr region p Fc h) regions ptrs Fs →
  disjointList Fs →
  Forall2 (option_Forall2 Φ) regions regions' →
  (∀ child child', Some child ∈ regions → Φ child child' → tidy body child child') →
  ∃ h' Fs',
    forChildren body ptrs h = Some h'
    ∧ Forall3 (λ region p Fc, slotRepr repr region p Fc h') regions' ptrs Fs'
    ∧ disjointList Fs'
    ∧ frame h h' (⋃ Fs) (⋃ Fs')
    ∧ dom h' ⊆ dom h ∖ ⋃ Fs ∪ ⋃ Fs'.
Proof.
  revert regions' ptrs Fs h.
  induction regions as [|region regions IH]; intros regions' ptrs Fs h Hall Hdisj Hrel Hbody.
  - inversion Hall; subst.
    apply Forall2_nil_inv_l in Hrel as ->. exists h, []. split; [done|].
    split; [constructor|]. split; [done|]. split; [apply frame_refl|]. set_solver.
  - apply Forall3_cons_inv_l in Hall as (p & ptrs' & Fc & Fs' & -> & -> & Hslot & Hall).
    rename ptrs' into ptrs. rename Fs' into Fs.
    apply Forall2_cons_inv_l in Hrel as (region' & regions'' & Hhead & Hrel & ->).
    destruct Hdisj as [Hd Hdisj].
    pose proof (slots_dom' _ _ _ _ Hall) as Hdom.
    destruct Hhead as [child child' HΦ|].
    + destruct p as [p|]; [|done]. cbn [slotRepr] in Hslot.
      destruct (Hbody child child' (list_elem_of_here _ _) HΦ p Fc h Hslot)
        as (h1 & Fc1 & Hrun & Hc1 & Hf1 & Hd1').
      destruct (slots_framed _ _ _ _ _ _ _ Hall Hf1) as [Hall1 Hd1]; [set_solver|].
      destruct (IH regions'' ptrs Fs h1 Hall1 Hdisj Hrel)
        as (h' & Fs' & Hloop & Hall' & Hdisj' & Hf' & Hdom').
      { intros c c' Hin. apply Hbody. by right. }
      exists h', (Fc1 :: Fs'). split; [by cbn [forChildren]; rewrite Hrun|].
      destruct (repr_framed _ _ _ _ _ _ _ Hc1 Hf') as [Hc' Hd']; [set_solver|].
      split; [by constructor|]. split; [done|].
      change (⋃ (Fc :: Fs)) with (Fc ∪ ⋃ Fs).
      change (⋃ (Fc1 :: Fs')) with (Fc1 ∪ ⋃ Fs'). split.
      * apply (frame_trans h h1 h' _ (Fc1 ∪ ⋃ Fs) _).
        -- rewrite (union_comm_L Fc), (union_comm_L Fc1). apply frame_extend, Hf1.
        -- apply frame_extend, Hf'.
      * set_solver.
    + destruct p as [p|]; [done|]. cbn [slotRepr] in Hslot. subst Fc.
      destruct (IH regions'' ptrs Fs h Hall Hdisj Hrel)
        as (h' & Fs' & Hloop & Hall' & Hdisj' & Hf' & Hdom').
      { intros c c' Hin. apply Hbody. by right. }
      exists h', (∅ :: Fs'). split; [done|]. split; [by constructor|].
      split; [split; [set_solver|done]|].
      change (⋃ (∅ :: Fs)) with (∅ ∪ ⋃ Fs).
      change (⋃ (∅ :: Fs')) with (∅ ∪ ⋃ Fs').
      rewrite !(union_empty_l_L (C := gset loc)). done.
Qed.

Lemma h_rebalanceChildren_tidy (rec_h : loc → heap → option heap)
    (rec_p : Node → outcome Node) T T' :
  (∀ child child', Some child ∈ quad_list (m_mapRegions T) →
                   rec_p child = Done child' → tidy rec_h child child') →
  rebalanceChildren rec_p T = Done T' →
  tidy (h_rebalanceChildren rec_h) T T'.
Proof.
  intros Hrec Hreb l F h HT.
  apply rebalanceChildren_Done in Hreb as (Hc & Hd & Hr).
  pose proof HT as HT0.
  apply repr_eq in HT0 as (slots & Fs & Hl & -> & Hnl & Hdisj & Hall).
  unfold h_rebalanceChildren. rewrite Hl. cbn [mbind option_bind c_regions].
  assert (Forall2 (option_Forall2 (λ child child', rec_p child = Done child'))
            (quad_list (m_mapRegions T)) (quad_list (m_mapRegions T'))) as Hrel.
  { pose proof (Hr UPPER_LEFT) as H1. pose proof (Hr UPPER_RIGHT) as H2.
    pose proof (Hr LOWER_LEFT) as H3. pose proof (Hr LOWER_RIGHT) as H4.
    destruct (m_mapRegions T) as [r1 r2 r3 r4], (m_mapRegions T') as [r1' r2' r3' r4'].
    unfold quad_list. cbn [quad_at q_ul q_ur q_ll q_lr] in *.
    repeat constructor.
    - destruct r1; [destruct H1 as (? & ? & ->)|subst]; by constructor.
    - destruct r2; [destruct H2 as (? & ? & ->)|subst]; by constructor.
    - destruct r3; [destruct H3 as (? & ? & ->)|subst]; by constructor.
    - destruct r4; [destruct H4 as (? & ? & ->)|subst]; by constructor. }
  destruct (forChildren_tidy rec_h _ _ _ _ _ _ Hall Hdisj Hrel Hrec)
    as (h' & Fs' & Hloop & Hall' & Hdisj' & Hf & Hdom).
  destruct (node_after_loop _ _ _ _ _ _ _ _ _ Hl Hnl Hf Hall' Hdisj') as (HT1 & Hf1 & _).
  exists h', ({[l]} ∪ ⋃ Fs'). split; [done|].
  split; [by rewrite (Node_eta T'), Hc, Hd|]. split; [done|].
  intros x Hx. apply Hdom in Hx. rewrite !elem_of_union, !elem_of_difference in *.
  rewrite elem_of_union, elem_of_singleton. destruct (decide (x = l)); tauto.
Qed.

(** The children [rebalance] creates are linked to the node. *)
Lemma createChildren_pointed this (items : list (RegionCode * NodeCompare)) h h' :
  createChildren this items h = Some h' →
  (∀ x, x ∈ dom h' → x ∈ dom h ∨
        ∃ node, h' !! this = Some node ∧ Some x ∈ quad_list (c_regions node))
  ∧ (∀ x node, h !! this = Some node → Some x ∈ quad_list (c_regions node) →
        ∃ node', h' !! this = Some node' ∧ Some x ∈ quad_list (c_regions node')).
Proof.
  revert h. induction items as [|[rc quad] items IH]; intros h; cbn [createChildren].
  { intros [= <-]. split; [auto|eauto]. }
  destruct (h !! this) as [node|] eqn:Hthis; [|done]. cbn [mbind option_bind].
  destruct (quad_at rc (c_regions node)) as [p|] eqn:Hslot.
  - intros Hrest. destruct (IH _ Hrest) as [Hnew Hkeep].
    assert (∀ x nd, h !! this = Some nd → Some x ∈ quad_list (c_regions nd) →
              ∃ nd', alter (c_setCompare quad) p h !! this = Some nd'
                     ∧ Some x ∈ quad_list (c_regions nd')) as Hstep.
    { intros x nd Hnd Hx. destruct (decide (this = p)) as [->|Hne].
      - rewrite lookup_alter_eq, Hnd. cbn. eauto.
      - rewrite lookup_alter_ne by done. eauto. }
    split.
    + intros x Hx. destruct (Hnew x Hx) as [Hd|?]; [|by right].
      left. by rewrite dom_alter_L in Hd.
    + intros x nd [= <-] Hx. destruct (Hstep x node Hthis Hx) as (nd' & Hnd' & Hx').
      by apply (Hkeep x nd').
  - set (p := fresh (dom h)).
    assert (p ∉ dom h) as Hfresh by apply is_fresh.
    assert (p ≠ this) as Hne.
    { intros Heq. apply Hfresh. rewrite Heq. apply elem_of_dom. eauto. }
    set (h1 := alter (c_setCompare quad) p
                 (alter (λ c, c_setRegions (quad_set rc (Some p) (c_regions c)) c) this
                        (<[p := c_new]> h))).
    intros Hrest. destruct (IH _ Hrest) as [Hnew Hkeep].
    assert (h1 !! this
            = Some (c_setRegions (quad_set rc (Some p) (c_regions node)) node)) as Hthis1.
    { subst h1. rewrite lookup_alter_ne by done.
      rewrite lookup_alter_eq, lookup_insert_ne by done. by rewrite Hthis. }
    assert (∀ x, Some x ∈ quad_list (c_regions node) →
                 Some x ∈ quad_list (quad_set rc (Some p) (c_regions node))) as Hold.
    { intros x Hx. apply elem_of_quad_list in Hx as [rc' Hx].
      apply elem_of_quad_list. exists rc'. rewrite quad_at_set.
      case_decide as Heq; [|done]. subst rc'. congruence. }
    split.
    + intros x Hx. destruct (Hnew x Hx) as [Hd|?]; [|by right].
      subst h1. rewrite !dom_alter_L, dom_insert_L in Hd.
      apply elem_of_union in Hd as [Hd|Hd]; [|by left].
      apply elem_of_singleton in Hd. subst x. right.
      apply (Hkeep p _ Hthis1). cbn [c_regions c_setRegions].
      apply elem_of_quad_list. exists rc. rewrite quad_at_set. by rewrite decide_True.
    + intros x nd [= <-] Hx.
      apply (Hkeep x _ Hthis1). cbn [c_regions c_setRegions]. by apply Hold.
Qed.

Lemma repr_pointed T l F h (node : Cell) x :
  repr T l F h → h !! l = Some node → Some x ∈ quad_list (c_regions node) → x ∈ F.
Proof.
  intros HT Hl Hx. apply repr_eq in HT as (slots & Fs & Hl' & -> & _ & _ & Hall).
  rewrite Hl' in Hl. injection Hl as <-. cbn [c_regions] in Hx.
  apply elem_of_union. right. revert Hall Hx.
  generalize (quad_list (m_mapRegions T)) (quad_list slots) (quad_list Fs).
  intros regions ptrs Gs. induction 1 as [|region p Fc regions ptrs Gs Hslot Hall IH].
  - intros Hx. by apply elem_of_nil in Hx.
  - intros [<-|Hx]%elem_of_cons.
    + destruct region as [child|]; cbn [slotRepr] in Hslot; [|done].
      destruct (repr_lookup _ _ _ _ Hslot) as (_ & _ & Hin).
      change (⋃ (Fc :: Gs)) with (Fc ∪ ⋃ Gs). set_solver.
    + change (⋃ (Fc :: Gs)) with (Fc ∪ ⋃ Gs). set_solver.
Qed.

Lemma createChildren_tidy (mapQuads : Quad NodeCompare) T :
  hasChildren T = false →
  tidy (λ l h, createChildren l (quad_items mapQuads) h) T (buildChildren mapQuads T).
Proof.
  intros Hc l F h HT.
  destruct (createChildren_sim mapQuads T Hc l F h HT) as (h' & F' & Hrun & HT' & Hf).
  exists h', F'. do 3 (split; [done|]).
  destruct (createChildren_pointed _ _ _ _ Hrun) as [Hnew _].
  destruct (repr_lookup _ _ _ _ HT') as (slots & Hl' & HlF').
  rewrite (repr_leaf_footprint _ _ _ _ Hc HT).
  intros x Hx. destruct (Hnew x Hx) as [Hd|(node & Hnode & Hptr)].
  - destruct (decide (x = l)) as [->|]; set_solver.
  - apply elem_of_union. right. by eapply repr_pointed.
Qed.

Lemma h_rebalance_tidy fuel T T' :
  rebalance fuel T = Done T' → tidy (h_rebalance fuel) T T'.
Proof.
  revert T T'. induction fuel as [|fuel IH]; intros T T' Hreb; [done|].
  intros l F h HT.
  destruct (repr_lookup _ _ _ _ HT) as (slots & Hl & _).
  pose proof HT as HT0.
  apply repr_eq in HT0 as (slots0 & Fs & Hl0 & HF & _ & _ & Hall).
  rewrite Hl in Hl0. injection Hl0 as <-.
  cbn [h_rebalance]. rewrite Hl. cbn [mbind option_bind].
  rewrite (h_getAllChildValues_sim (size h) T l F h) by (done || by eapply repr_fuel).
  cbn [mbind option_bind c_compare].
  rewrite (repr_hasChildren T h slots Fs) by done.
  fold (survivors T).
  destruct (tidy_alter T (c_setData ∅) (m_compare T) ∅ (λ _, eq_refl) l F h HT)
    as (ha' & Fa & [= <-] & HTa & Hfa & Hda).
  change (mkNode (m_compare T) (m_mapRegions T) ∅) with (set_data ∅ T) in HTa.
  set (ha := alter (c_setData ∅) l h) in *.
  rewrite rebalance_eq in Hreb. cbv zeta in Hreb.
  change (hasChildren (set_data ∅ T)) with (hasChildren T) in Hreb.
  change (m_compare (set_data ∅ T)) with (m_compare T) in Hreb.
  assert (∀ (op : loc → heap → option heap),
            tidy op (set_data ∅ T) T' →
            ∃ h' F', op l ha = Some h' ∧ repr T' l F' h' ∧ frame h h' F F'
                     ∧ dom h' ⊆ dom h ∖ F ∪ F') as Hfinish.
  { intros op Hop. destruct (Hop l Fa ha HTa) as (h' & F' & Hrun & HT' & Hf' & Hd').
    exists h', F'. split; [done|]. split; [done|]. split; [by eapply frame_trans|].
    set_solver. }
  destruct (hasChildren T) eqn:Hc.
  - destruct (decide (size (survivors T) ≤ g_minDataSize)) as [Hsz|Hsz].
    + injection Hreb as <-.
      apply (Hfinish (λ l h, h ← h_deleteChildren (size h) l h;
                             Some (alter (c_setData (survivors T)) l h))).
      eapply tidy_seq; [apply h_deleteChildren_tidy|].
      by apply (tidy_alter (deleteChildren (set_data ∅ T))).
    + destruct (childCompares (set_data ∅ T)) as [quads| |] eqn:Hq; [|done..].
      pose proof (childCompares_Done _ _ Hq) as Hb.
      rewrite (childCompares_branch _ Hb) in Hq. injection Hq as <-.
      rewrite (h_childCompares_sim _ _ _ _ HTa Hb).
      cbn [mbind option_bind outcome_bind] in *.
      set (mapQuads := buildQuadrantsFromData (m_compare T) (survivors T)
                         (slotCompares (set_data ∅ T))) in *.
      destruct (shouldSubdivide (survivors T) mapQuads).
      * apply (Hfinish (λ l h, h ← h_writeThrough mapQuads l h;
                               h ← h_addAll (size h) (elements (survivors T)) l h;
                               h_rebalanceChildren (h_rebalance fuel) l h)).
        eapply tidy_seq; [apply h_writeThrough_tidy|].
        eapply (tidy_seq (λ l h, h_addAll (size h) (elements (survivors T)) l h));
          [apply h_addAll_tidy|].
        eapply h_rebalanceChildren_tidy; [|exact Hreb]. intros child child' _. apply IH.
      * injection Hreb as <-.
        apply (Hfinish (λ l h, h ← h_writeThrough mapQuads l h;
                               h ← h_deleteChildren (size h) l h;
                               Some (alter (c_setData (survivors T)) l h))).
        eapply tidy_seq; [apply h_writeThrough_tidy|].
        eapply (tidy_seq (λ l h, h_deleteChildren (size h) l h));
          [apply h_deleteChildren_tidy|].
        by apply (tidy_alter (deleteChildren (writeCompares mapQuads (set_data ∅ T)))).
  - destruct (decide (size (survivors T) ≤ g_minDataSize)) as [Hsz|Hsz].
    + injection Hreb as <-.
      apply (Hfinish (λ l h, Some (alter (c_setData (survivors T)) l h))).
      by apply (tidy_alter (set_data ∅ T)).
    + set (mapQuads := buildQuadrantsFromData (m_compare T) (survivors T)
                         (quad_pure nilCompare)) in *.
      destruct (shouldSubdivide (survivors T) mapQuads).
      * apply (Hfinish (λ l h, h ← createChildren l (quad_items mapQuads) h;
                               h ← h_addAll (size h) (elements (survivors T)) l h;
                               h_rebalanceChildren (h_rebalance fuel) l h)).
        eapply (tidy_seq (λ l h, createChildren l (quad_items mapQuads) h));
          [by apply createChildren_tidy|].
        eapply (tidy_seq (λ l h, h_addAll (size h) (elements (survivors T)) l h));
          [apply h_addAll_tidy|].
        eapply h_rebalanceChildren_tidy; [|exact Hreb]. intros child child' _. apply IH.
      * injection Hreb as <-.
        apply (Hfinish (λ l h, Some (alter (c_setData (survivors T)) l h))).
        by apply (tidy_alter (set_data ∅ T)).
Qed.

(** At the level of cells the facade [rebalance], when the rebalance of
    the graph returns, runs to completion and leaves the rebalanced graph
    at the same root.  The store then holds the cells it held outside the
    old graph, unchanged, and the cells of the new graph, nothing else: what
    the pass created is part of the tree and what it dropped is released. *)
Theorem rebalance_leaves_nothing_behind fuel (t t' : SearchTree2D) l F h :
  tree_rebalance fuel t = Done t' →
  repr (m_tree t) l F h →
  ∃ h' F',
    h_tree_rebalance fuel l h = Some h'
    ∧ repr (m_tree t') l F' h'
    ∧ dom h' = dom h ∖ F ∪ F'
    ∧ (∀ x, x ∈ F' → x ∈ F ∨ x ∉ dom h)
    ∧ (∀ x, x ∉ F → x ∉ F' → h' !! x = h !! x)
    ∧ ∀ (U : Node) u G, repr U u G h → G ## F → repr U u G h' ∧ G ## F'.
Proof.
  intros Hreb HT. apply tree_rebalance_Done in Hreb.
  assert (tidy (h_tree_rebalance fuel) (m_tree t) (m_tree t')) as Htidy.
  { unfold h_tree_rebalance.
    eapply (tidy_seq (λ l h, h_buildRootRegion (size h) l h));
      [apply h_buildRootRegion_tidy|]. by apply h_rebalance_tidy. }
  destruct (Htidy l F h HT) as (h' & F' & Hrun & HT' & Hf & Hdom).
  exists h', F'. split; [done|]. split; [done|].
  pose proof (repr_dom _ _ _ _ HT') as HF'. pose proof Hf as [Hs Hn].
  assert (dom h' = dom h ∖ F ∪ F') as Hdom'.
  { apply set_eq. intros x. split; [apply Hdom|].
    intros [[Hd HnF]%elem_of_difference|Hx]%elem_of_union; [|by apply HF'].
    apply elem_of_dom. rewrite (Hs x Hd HnF). by apply elem_of_dom. }
  split; [done|]. split; [done|]. split.
  - intros x HnF HnF'. destruct (decide (x ∈ dom h)) as [Hd|Hd]; [by apply Hs|].
    rewrite (proj1 (not_elem_of_dom h x) Hd). apply not_elem_of_dom. set_solver.
  - intros U u G HU Hdisj. by apply (repr_framed _ _ _ _ _ _ _ HU Hf).
Qed.

End memory_facts.

(** * The sample predicates at work *)

Lemma rect_quadrantsWithinParent : quadrantsWithinParent (Predicate := RectPredicate).
Proof.
  intros [a b c d] vals q rc [x y].
  destruct rc; cbn -[Nat.div]; unfold inside; cbn -[Nat.div];
    rewrite !bool_decide_eq_true;
    pose proof (Nat.Div0.mul_div_le (a + c) 2);
    pose proof (Nat.mul_succ_div_gt (a + c) 2);
    pose proof (Nat.Div0.mul_div_le (b + d) 2);
    pose proof (Nat.mul_succ_div_gt (b + d) 2); lia.
Defined.

Lemma rect_quadrantsIgnoreSlots : quadrantsIgnoreSlots (Predicate := RectPredicate).
Proof. intros parentRegion values quads quads'. reflexivity. Defined.

Lemma span_quadrantsIgnoreSlots : quadrantsIgnoreSlots (Predicate := SpanPredicate).
Proof. intros parentRegion values quads quads'. reflexivity. Qed.

Lemma rect_overlapsWhereSatisfied : overlapsWhereSatisfied (Predicate := RectPredicate).
Proof.
  intros [a b c d] [a' b' c' d'] [x y]. cbn. unfold inside, intersects. cbn.
  rewrite !bool_decide_eq_true. lia.
Defined.

Lemma rect_quadrantsShrink : quadrantsShrink (Predicate := RectPredicate) rectSpan.
Proof.
  intros [a b c d] vals quads rc Hsz Hall. unfold g_minDataSize in Hsz.
  assert (∀ v, v ∈ vals → a ≤ v.1 ≤ c ∧ b ≤ v.2 ≤ d) as Hin.
  { intros v Hv. specialize (Hall v Hv). cbn in Hall. unfold inside in Hall.
    by apply bool_decide_eq_true in Hall. }
  assert (a ≤ c ∧ b ≤ d) as [Hac Hbd].
  { destruct (size_pos_elem_of vals) as [v Hv]; [lia|]. specialize (Hin v Hv). lia. }
  assert (a < c ∨ b < d) as Hwide.
  { destruct (decide (a < c ∨ b < d)) as [|Hno]; [done|]. exfalso.
    assert (vals ⊆ {[(a, b)]}) as Hsub.
    { intros [x y] Hv. specialize (Hin _ Hv). cbn in Hin.
      apply elem_of_singleton. f_equal; lia. }
    apply subseteq_size in Hsub. rewrite size_singleton in Hsub. lia. }
  pose proof (Nat.Div0.mul_div_le (a + c) 2).
  pose proof (Nat.mul_succ_div_gt (a + c) 2).
  pose proof (Nat.Div0.mul_div_le (b + d) 2).
  pose proof (Nat.mul_succ_div_gt (b + d) 2).
  destruct rc; cbn -[Nat.div]; unfold rectSpan; cbn -[Nat.div]; lia.
Defined.

Lemma fivePoints_rebalance : tree_rebalance 2 fivePoints = Done fivePointsRebalanced.
Proof. vm_compute. reflexivity. Defined.

Lemma fivePoints_inside_boundingBox :
  ∀ v, v ∈ getAllChildValues (m_tree fivePoints) →
       satisfies (buildRegionFromData (getAllChildValues (m_tree fivePoints))) v = true.
Proof.
  apply (bool_decide_unpack
           (set_Forall
              (λ v, satisfies (buildRegionFromData (getAllChildValues (m_tree fivePoints))) v
                    = true)
              (getAllChildValues (m_tree fivePoints)))).
  vm_compute. exact I.
Defined.



(** A pass need not return: on the grid the first quadrant of the first
    slab is that slab again, so a node with four values there is subdivided
    into a child equal to itself, whatever the fuel. *)
Lemma rebalance_can_diverge fuel : rebalance fuel crowdedSlab = OutOfFuel.
Proof.
  induction fuel as [|fuel IH]; [done|].
  rewrite rebalance_S by (right; left; reflexivity).
  destruct (decide _) as [Hsz|_]; [exfalso; revert Hsz; vm_compute; lia|].
  assert (shouldSubdivide (survivors crowdedSlab) (candidateQuads crowdedSlab) = true)
    as -> by (vm_compute; reflexivity).
  assert (subdivided crowdedSlab
          = mkNode (mkSlab 0 5)
              (mkQuad (Some crowdedSlab)
                      (Some (mkNode (mkSlab 5 10) (quad_pure None) ∅))
                      (Some (mkNode (mkSlab 10 15) (quad_pure None) ∅))
                      (Some (mkNode (mkSlab 15 20) (quad_pure None) ∅)))
              ∅) as -> by (vm_compute; reflexivity).
  unfold rebalanceChildren, quad_mapM. cbn [m_mapRegions q_ul]. by rewrite IH.
Qed.



(** C6 at the five points: a second [rebalance] returns the same tree. *)
Lemma rebalance_twice_same_queries_witness :
  tree_rebalance 2 fivePoints = Done fivePointsRebalanced
  ∧ tree_rebalance 2 fivePointsRebalanced = Done fivePointsRebalanced.
Proof.
  split; [exact fivePoints_rebalance|].
  apply (rebalance_twice_same_queries 2 fivePoints fivePointsRebalanced
           rect_quadrantsIgnoreSlots fivePoints_inside_boundingBox fivePoints_rebalance).
Defined.

(** C6 as stated fails in two ways.  On the spans the first [rebalance]
    drops 3, the greatest value; the second one rebuilds the root span from
    what is left and drops 2; a query that met both values after the first
    call meets one after the second.  On the rectangles quartered once the
    five points lie in their bounding box; the first [rebalance] subdivides
    the root, the second one is handed the whole parent for every slot and
    merges the children back; a query that met one quadrant after the first
    call meets all five points after the second. *)
Lemma rebalance_twice_differs :
  (tree_rebalance 1 threeValues = Done threeValuesOnce
   ∧ tree_rebalance 1 threeValuesOnce = Done threeValuesTwice
   ∧ tree_getNearbyValues threeValuesOnce (mkSpan 0 10) = {[1; 2]}
   ∧ tree_getNearbyValues threeValuesTwice (mkSpan 0 10) = {[1]})
  ∧ (fivePoints
     = addValues (Predicate := OnceRectPredicate)
         [(1, 1); (2, 8); (8, 2); (9, 9); (5, 5)] (newTree (Predicate := OnceRectPredicate))
     ∧ tree_rebalance (Predicate := OnceRectPredicate) 2 fivePoints
       = Done fivePointsRebalanced
     ∧ tree_rebalance (Predicate := OnceRectPredicate) 2 fivePointsRebalanced
       = Done fivePointsMerged
     ∧ tree_getNearbyValues (Predicate := OnceRectPredicate)
         fivePointsRebalanced (mkRect 0 0 3 3) = {[(1, 1); (5, 5)]}
     ∧ tree_getNearbyValues (Predicate := OnceRectPredicate)
         fivePointsMerged (mkRect 0 0 3 3)
       = {[(1, 1); (2, 8); (8, 2); (9, 9); (5, 5)]}).
Proof. repeat split; vm_compute; reflexivity. Qed.

(** C10.  [clear] leaves the root search space as it was.  After the same
    [add] calls, a cleared tree answers a query through that stale search
    space and a freshly constructed tree through [nilCompare]; the two
    answers differ for the rectangles below; and the next facade
    [rebalance] makes the two trees equal. *)
Theorem clear_keeps_root_region :
  (∀ (Value NodeCompare : Type) `(Countable Value)
     (Predicate : SearchPredicate Value NodeCompare)
     (l : list Value) (t : SearchTree2D) (r : NodeCompare) (fuel : nat),
     m_compare (m_tree (tree_clear t)) = m_compare (m_tree t)
     ∧ m_mapRegions (m_tree (tree_clear t)) = quad_pure None
     ∧ tree_getNearbyValues (addValues l (tree_clear t)) r
       = (if overlaps (m_compare (m_tree t)) r then list_to_set l else ∅)
     ∧ tree_getNearbyValues (addValues l newTree) r
       = (if overlaps nilCompare r then list_to_set l else ∅)
     ∧ tree_rebalance fuel (addValues l (tree_clear t))
       = tree_rebalance fuel (addValues l newTree))
  ∧ (∃ t, tree_rebalance 1 (tree_add (2, 2) newTree) = Done t
          ∧ reusedTree = addValues [(50, 50)] (tree_clear t)
          ∧ freshTree = addValues [(50, 50)] newTree)
  ∧ tree_getNearbyValues reusedTree (mkRect 0 0 10 10) = {[(50, 50)]}
  ∧ tree_getNearbyValues freshTree (mkRect 0 0 10 10) = ∅.
Proof.
  split.
  { intros Value NodeCompare ? ? Predicate l t r fuel.
    destruct (clear_then_add l t r fuel) as (Hc & Hq & Hn & Hr).
    split; [done|]. split; [|done]. simpl. by rewrite clear_eq. }
  split.
  { eexists. split; [vm_compute; reflexivity|]. split; vm_compute; reflexivity. }
  split; vm_compute; reflexivity.
Qed.

Lemma fivePointsHeap_repr :
  repr (m_tree fivePointsRebalanced) 1%positive {[1; 2; 3; 4; 5]}%positive fivePointsHeap.
Proof.
  apply repr_eq.
  exists (mkQuad (Some 2) (Some 3) (Some 4) (Some 5))%positive,
         (mkQuad {[2]} {[3]} {[4]} {[5]})%positive.
  split; [vm_compute; reflexivity|]. split; [vm_compute; reflexivity|].
  split; [set_solver|]. split; [cbn; set_solver|].
  repeat (apply Forall3_cons; [apply repr_leaf; vm_compute; reflexivity|]).
  apply Forall3_nil.
Defined.

(** C9 at the five points in memory: the rebalanced tree at address 1 is
    copied, and the copy and the original then evolve independently. *)
Lemma copy_shares_nothing_witness :
  repr (m_tree fivePointsRebalanced) 1%positive {[1; 2; 3; 4; 5]}%positive fivePointsHeap
  ∧ ∃ b h1 Fa Fb,
      h_copyTree 1%positive fivePointsHeap = Some (b, h1)
      ∧ repr (m_tree fivePointsRebalanced) 1%positive Fa h1
      ∧ repr (m_tree fivePointsRebalanced) b Fb h1
      ∧ Fa ## Fb
      ∧ (∀ r, h_tree_getNearbyValues h1 1%positive r
              = h_tree_getNearbyValues fivePointsHeap 1%positive r
              ∧ h_tree_getNearbyValues h1 b r
                = h_tree_getNearbyValues fivePointsHeap 1%positive r)
      ∧ ∀ fuel prog ta tb,
          performAll fuel (stepsOn false prog) (mkTree (m_tree fivePointsRebalanced))
            = Done ta →
          performAll fuel (stepsOn true prog) (mkTree (m_tree fivePointsRebalanced))
            = Done tb →
          ∃ h2,
            h_mutateAll fuel prog 1%positive b h1 = Some h2
            ∧ ∀ r, h_tree_getNearbyValues h2 1%positive r
                   = Some (tree_getNearbyValues ta r)
                   ∧ h_tree_getNearbyValues h2 b r = Some (tree_getNearbyValues tb r).
Proof.
  split; [exact fivePointsHeap_repr|].
  exact (copy_shares_nothing _ _ _ _ fivePointsHeap_repr).
Defined.

(** ** More of the sample predicates *)

Lemma fivePoints_root_rebalance :
  rebalance 2 (buildRootRegion (m_tree fivePoints)) = Done (m_tree fivePointsRebalanced).
Proof. vm_compute. reflexivity. Defined.

Lemma fivePointsRebalanced_inPlace : valuesInPlace (m_tree fivePointsRebalanced).
Proof.
  intros m v Hm Hv.
  destruct (rebalance_settled 2 _ _ fivePoints_root_rebalance m Hm) as [Hs _]. auto.
Defined.

Lemma tree_is_flat_until_rebalanced_witness :
  existsb isRebalance flatProgram = false
  ∧ ∃ t : SearchTree2D,
      performAll 0 flatProgram newTree = Done t
      ∧ m_compare (m_tree t) = nilCompare
      ∧ nodes (m_tree t) = [m_tree t]
      ∧ ∀ r, tree_getNearbyValues t r
             = if overlaps nilCompare r then getAllChildValues (m_tree t) else ∅.
Proof.
  split; [reflexivity|]. apply (tree_is_flat_until_rebalanced 0 flatProgram). reflexivity.
Defined.

Lemma rebalance_settles_every_node_witness :
  rebalance 2 (buildRootRegion (m_tree fivePoints)) = Done (m_tree fivePointsRebalanced)
  ∧ m_compare (m_tree fivePointsRebalanced) = m_compare (buildRootRegion (m_tree fivePoints))
  ∧ ∀ m, m ∈ nodes (m_tree fivePointsRebalanced) → settled m.
Proof.
  split; [exact fivePoints_root_rebalance|].
  apply (rebalance_settles_every_node 2 _ _ fivePoints_root_rebalance).
Defined.

Lemma rebalanced_tree_finds_its_values_witness :
  overlapsWhereSatisfied (Predicate := RectPredicate)
  ∧ tree_rebalance 2 fivePoints = Done fivePointsRebalanced
  ∧ ∀ r v, v ∈ getAllChildValues (m_tree fivePointsRebalanced) →
           satisfies r v = true → v ∈ tree_getNearbyValues fivePointsRebalanced r.
Proof.
  split; [exact rect_overlapsWhereSatisfied|]. split; [exact fivePoints_rebalance|].
  pose proof (rebalanced_tree_finds_its_values 2 fivePoints fivePointsRebalanced
                rect_overlapsWhereSatisfied fivePoints_rebalance) as Hw.
  cbv zeta in Hw. destruct Hw as (_ & _ & Hfind & _). exact Hfind.
Defined.

Lemma values_in_place_are_found_witness :
  valuesInPlace (m_tree fivePointsRebalanced)
  ∧ valuesInPlace (remove (3, 3) (m_tree fivePointsRebalanced)).
Proof.
  split; [exact fivePointsRebalanced_inPlace|].
  apply (values_in_place_are_found (3, 3) (m_tree fivePointsRebalanced)
           fivePointsRebalanced_inPlace).
Defined.

Lemma rebalance_returns_when_quadrants_shrink_witness :
  quadrantsShrink (Predicate := RectPredicate) rectSpan
  ∧ ∀ ops : list (operation (Value := Point)), ∃ fuel (t : SearchTree2D),
      performAll fuel ops newTree = Done t.
Proof.
  split; [exact rect_quadrantsShrink|].
  apply (rebalance_returns_when_quadrants_shrink rectSpan rect_quadrantsShrink).
Defined.

Lemma crowdedSlab_inSlab : ∀ v, v ∈ m_data crowdedSlab → satisfies (mkSlab 0 5) v = true.
Proof.
  apply (bool_decide_unpack
           (set_Forall (λ v, satisfies (mkSlab 0 5) v = true) (m_data crowdedSlab))).
  vm_compute. exact I.
Defined.

Lemma rebalance_runs_forever_witness :
  (∀ v, v ∈ m_data crowdedSlab → satisfies (mkSlab 0 5) v = true)
  ∧ g_minDataSize < size (m_data crowdedSlab)
  ∧ ∀ fuel, rebalance fuel crowdedSlab = OutOfFuel.
Proof.
  split; [exact crowdedSlab_inSlab|].
  assert (g_minDataSize < size (m_data crowdedSlab)) as Hsz.
  { apply Nat.ltb_lt. vm_compute. reflexivity. }
  split; [exact Hsz|]. intros fuel.
  apply (rebalance_runs_forever (mkSlab 0 5) (m_data crowdedSlab) UPPER_LEFT fuel
           crowdedSlab_inSlab Hsz).
  - reflexivity.
  - vm_compute. reflexivity.
Defined.

Lemma rebalance_forgets_history_witness :
  leafOrBranchEverywhere (m_tree sixPoints) = true
  ∧ tree_rebalance 3 sixPoints
    = tree_rebalance 3 (addValues (elements (getAllChildValues (m_tree sixPoints))) newTree).
Proof.
  split; [reflexivity|].
  apply (rebalance_forgets_history 3 sixPoints rect_quadrantsIgnoreSlots
           rect_quadrantsWithinParent eq_refl).
Defined.

Lemma clear_releases_the_graph_below_witness :
  repr (m_tree fivePointsRebalanced) 1%positive {[1; 2; 3; 4; 5]}%positive fivePointsHeap
  ∧ ∃ h', h_clear (size fivePointsHeap) 1%positive fivePointsHeap = Some h'
          ∧ dom h' = dom fivePointsHeap ∖ ({[1; 2; 3; 4; 5]}%positive ∖ {[1%positive]}).
Proof.
  split; [exact fivePointsHeap_repr|].
  destruct (clear_releases_the_graph_below _ _ _ _ fivePointsHeap_repr)
    as (h' & Hrun & _ & Hdom & _).
  exists h'. split; [exact Hrun|exact Hdom].
Defined.

Lemma destructor_releases_the_graph_witness :
  repr (m_tree fivePointsRebalanced) 1%positive {[1; 2; 3; 4; 5]}%positive fivePointsHeap
  ∧ ∃ h', h_destroyTree 1%positive fivePointsHeap = Some h'
          ∧ dom h' = dom fivePointsHeap ∖ {[1; 2; 3; 4; 5]}%positive.
Proof.
  split; [exact fivePointsHeap_repr|].
  destruct (destructor_releases_the_graph _ _ _ _ fivePointsHeap_repr)
    as (h' & Hrun & Hdom & _).
  exists h'. split; [exact Hrun|exact Hdom].
Defined.

Lemma add_and_remove_write_data_only_witness :
  repr (m_tree fivePointsRebalanced) 1%positive {[1; 2; 3; 4; 5]}%positive fivePointsHeap
  ∧ ∃ ha hr,
      h_add (size fivePointsHeap) (3, 3) 1%positive fivePointsHeap = Some ha
      ∧ h_remove (size fivePointsHeap) (3, 3) 1%positive fivePointsHeap = Some hr
      ∧ dom ha = dom fivePointsHeap ∧ dom hr = dom fivePointsHeap.
Proof.
  split; [exact fivePointsHeap_repr|].
  destruct (add_and_remove_write_data_only (3, 3) _ _ _ _ fivePointsHeap_repr)
    as (ha & hr & Ha & Hr & Hda & Hdr & _).
  exists ha, hr. auto.
Defined.

Lemma fivePointsRebalanced_rebalance :
  tree_rebalance 2 fivePointsRebalanced = Done fivePointsRebalanced.
Proof. vm_compute. reflexivity. Defined.

Lemma rebalance_leaves_nothing_behind_witness :
  tree_rebalance 2 fivePointsRebalanced = Done fivePointsRebalanced
  ∧ repr (m_tree fivePointsRebalanced) 1%positive {[1; 2; 3; 4; 5]}%positive fivePointsHeap
  ∧ ∃ h' F',
      h_tree_rebalance 2 1%positive fivePointsHeap = Some h'
      ∧ repr (m_tree fivePointsRebalanced) 1%positive F' h'
      ∧ dom h' = dom fivePointsHeap ∖ {[1; 2; 3; 4; 5]}%positive ∪ F'.
Proof.
  split; [exact fivePointsRebalanced_rebalance|]. split; [exact fivePointsHeap_repr|].
  destruct (rebalance_leaves_nothing_behind 2 _ _ _ _ _ fivePointsRebalanced_rebalance
              fivePointsHeap_repr) as (h' & F' & Hrun & HT' & Hdom & _).
  exists h', F'. auto.
Defined.
